(** * openmp_multi_cuda: the multi-GPU stencil driver

    A shallow embedding of [openmp_multi_cuda.c] (MSU CUDA course, lecture 9,
    multigpu/openmp example) and the properties of its orchestration layer:
    device discovery, replication of the input over the host workspace,
    the per-device step function [thread_func], the tick loop of [main] with
    its join, the release of the devices and the final comparison.

    The CUDA driver and runtime, the two stencil kernels of [pattern2d.h],
    [rand] and the OpenMP runtime are external to the file.  They are
    represented by a [World]: the status each call returns and the data the
    kernels produce.  What the program does to the outside is recorded as a
    list of [event]s: the external calls it makes, with the status each one
    returned, and the lines it prints on stdout and stderr. *)

From Stdlib Require Import ZArith Lia Ascii String.
From Stdlib Require Import Floats.SpecFloat.
From stdpp Require Import base list strings.

Local Open Scope string_scope.
Local Open Scope list_scope.
Local Open Scope Z_scope.

(** ** Machine data *)

(** [int] is 32 bits wide, two's complement.  The driver does arithmetic
    on [int]s in three places: [config->step++], the product [nx * ny], and
    the index [i + j * nx] of the comparison.  Where the C standard leaves
    the overflow open the value wraps around, as on the machines the
    course targets; with the globals of the source nothing overflows. *)
Definition int_wrap (z : Z) : Z := (z + 2 ^ 31) mod 2 ^ 32 - 2 ^ 31.

(** [float] is IEEE 754 binary32: 24 bits of precision, [emax = 128]. *)
Definition prec32 : Z := 24.
Definition emax32 : Z := 128.
Definition prec64 : Z := 53.
Definition emax64 : Z := 1024.

(** [(float) z] for an [int] [z]. *)
Definition float_of_int (z : Z) : spec_float := binary_normalize prec32 emax32 z 0 false.

(** [(double) z] for an [int] [z]; exact. *)
Definition double_of_int (z : Z) : spec_float := binary_normalize prec64 emax64 z 0 false.

(** [(float) x] for a [double] [x]: rounded to nearest. *)
Definition float_of_double (x : spec_float) : spec_float :=
  match x with
  | S754_finite s m e => binary_round prec32 emax32 s m e
  | _ => x
  end.

(** [fabs(a - b)] for two [float]s.  The subtraction is done in [float]; the
    widening to [double] for [fabs] and the narrowing of the result lose
    nothing. *)
Definition fabs_diff (a b : spec_float) : spec_float := SFabs (SFsub prec32 emax32 a b).

(** [a > b] on [float]s: false as soon as one side is a NaN. *)
Definition float_gt (a b : spec_float) : bool := SFltb b a.

Definition is_nan (x : spec_float) : bool :=
  match x with S754_nan => true | _ => false end.

(** ** Output *)

(** The arguments of a [printf]: the program prints [int]s with [%d] and one
    [float] with [%f]. *)
Inductive arg :=
| AInt (z : Z)
| AFloat (f : spec_float).

Definition nl : string := String (Ascii.ascii_of_nat 10) EmptyString.

(** The number of conversion specifications of a format.  No format of the
    program contains an escaped percent sign. *)
Fixpoint conversions (fmt : string) : nat :=
  match fmt with
  | EmptyString => 0
  | String c rest =>
      if Ascii.eqb c "%"%char then S (conversions rest) else conversions rest
  end.

(** ** External calls *)

(** One constructor per call site of an external function whose status the
    program receives; [idevice] is the device the call is made for.  The
    value is an [int] in the source.  [pattern2d_cpu] records the two host
    pointers it is given, as offsets in cells from [inout], and its tag. *)
Inductive call :=
| cudaGetDeviceCount
| cuDeviceGet (idevice : Z)
| cuCtxCreate (idevice : Z)
| cudaMalloc_in_dev (idevice : Z)
| cudaMalloc_out_dev (idevice : Z)
| cudaMemcpy_HostToDevice (idevice : Z)
| cuCtxPopCurrent_init (idevice : Z)
| cuCtxPushCurrent_step (idevice : Z)
| pattern2d_gpu (idevice : Z)
| cuCtxPopCurrent_step (idevice : Z)
| pattern2d_cpu (in_host out_host : nat) (device_id : Z)
| cuCtxPushCurrent_fini (idevice : Z)
| cudaMemcpy_DeviceToHost (idevice : Z)
| cudaFree_in_dev (idevice : Z)
| cudaFree_out_dev (idevice : Z)
| cuCtxDestroy (idevice : Z).

(** The two host blocks the program allocates. *)
Inductive host_block := inout_block | configs_block.

Inductive event :=
| Call (f : call) (status : Z)
| Malloc (b : host_block)
| Free (b : host_block)
| Stdout (fmt : string) (args : list arg)
| Stderr (fmt : string) (args : list arg).

(** [printf] and [fprintf(stderr, ...)]: the format consumes as many
    arguments as it has conversions; further arguments are evaluated and
    ignored. *)
Definition printf (fmt : string) (args : list arg) : event :=
  Stdout fmt (take (conversions fmt) args).

Definition eprintf (fmt : string) (args : list arg) : event :=
  Stderr fmt (take (conversions fmt) args).

(** ** The outside world *)

(** [w_ret f n] is the status the [n]-th execution (from 0) of the call [f]
    returns.  The calls of initialization and release are executed once;
    those of [thread_func], and [pattern2d_cpu], once per tick.  What a call
    answers depends on the call and on how often it was made before, not on
    what other devices do in between: the state of a device is private to
    its context.

    [w_ndevices] is the count [cudaGetDeviceCount] stores, which is not
    negative; [w_nthreads] is what [omp_get_num_threads] returns;
    [w_RAND_MAX] is the constant of [stdlib.h] and [w_rand i] what the
    [i]-th call of [rand] returns.

    Memory that is allocated and not yet written holds what the world left
    there: [w_malloc_cell] for the block [inout], [w_cudaMalloc_cell d b]
    for the input ([b = false]) and output ([b = true]) buffer of device
    [d], [w_status_garbage d] for the field [status] of [configs[d]], which
    the source does not initialize.  [malloc] itself is taken to succeed:
    the source uses its result unchecked.

    [w_ctx f n] is the context handle the call [f] stores.

    The kernels are black boxes: [w_gpu d n inp out] is the content of
    the output buffer after the [n]-th run of [pattern2d_gpu] on device [d]
    with input [inp] and the output buffer holding [out] before;
    [w_cpu n inp out] is the same for [pattern2d_cpu]. *)
Record World := {
  w_ret : call -> nat -> Z;
  w_ndevices : nat;
  w_nthreads : Z;
  w_RAND_MAX : Z;
  w_rand : nat -> Z;
  w_malloc_cell : nat -> spec_float;
  w_cudaMalloc_cell : Z -> bool -> nat -> spec_float;
  w_status_garbage : Z -> Z;
  w_ctx : call -> nat -> Z;
  w_gpu : Z -> nat -> list spec_float -> list spec_float -> list spec_float;
  w_cpu : nat -> list spec_float -> list spec_float -> list spec_float
}.

(** ** The thread configuration structure *)

(** The device buffers are reached through [in_dev] and [out_dev] alone and
    are two allocations: each field holds the content of the buffer it
    points to, and exchanging the pointers exchanges the fields. *)
Module config_t.
Record t := mk {
  idevice : Z;
  status : Z;
  step : Z;
  nx : Z;
  ny : Z;
  inout_cpu : nat;             (* offset in cells from [inout] *)
  in_dev : list spec_float;    (* content of the buffer [in_dev] points to *)
  out_dev : list spec_float;   (* content of the buffer [out_dev] points to *)
  ctx : Z
}.

Definition set_status (v : Z) (c : t) : t :=
  mk (idevice c) v (step c) (nx c) (ny c) (inout_cpu c) (in_dev c) (out_dev c) (ctx c).
Definition set_step (v : Z) (c : t) : t :=
  mk (idevice c) (status c) v (nx c) (ny c) (inout_cpu c) (in_dev c) (out_dev c) (ctx c).
Definition set_in_dev (v : list spec_float) (c : t) : t :=
  mk (idevice c) (status c) (step c) (nx c) (ny c) (inout_cpu c) v (out_dev c) (ctx c).
Definition set_out_dev (v : list spec_float) (c : t) : t :=
  mk (idevice c) (status c) (step c) (nx c) (ny c) (inout_cpu c) (in_dev c) v (ctx c).
Definition set_ctx (v : Z) (c : t) : t :=
  mk (idevice c) (status c) (step c) (nx c) (ny c) (inout_cpu c) (in_dev c) (out_dev c) v.
End config_t.

(** The globals [nticks], [nx] and [ny]; the source initializes them to
    10, 128 and 128 and never assigns them. *)
Record globals := { nticks : Z; nx : Z; ny : Z }.

Definition source_globals : globals := {| nticks := 10; nx := 128; ny := 128 |}.

(** ** Control: a trace and an early [return] *)

Inductive outcome (A : Type) :=
| Return (status : Z)
| Continue (a : A).
Arguments Return {A} status.
Arguments Continue {A} a.

Definition M (A : Type) : Type := list event * outcome A.

Definition ret {A} (a : A) : M A := ([], Continue a).

Definition bind {A B} (m : M A) (f : A -> M B) : M B :=
  match m with
  | (t, Return s) => (t, Return s)
  | (t, Continue a) => let (t', r) := f a in (t ++ t', r)
  end.

Definition emit (e : event) : M unit := ([e], Continue tt).

Definition exit {A} (s : Z) : M A := ([], Return s).

Notation "x <- m ;; k" := (bind m (fun x => k))
  (at level 100, m at next level, right associativity).
Notation "m ;;; k" := (bind m (fun _ => k))
  (at level 100, right associativity).

(** An external call whose status is checked on the spot: the call is
    recorded; a status that is not zero is reported with [fmt] and
    returned from the enclosing function. *)
Definition checked (w : World) (f : call) (n : nat) (fmt : string) (args : list arg) : M unit :=
  let s := w_ret w f n in
  emit (Call f s) ;;;
  if s =? 0 then ret tt
  else (emit (eprintf fmt (args ++ [AInt s])) ;;; exit s).

(** ** [thread_func] *)

(** The function executed for one device in one tick: its trace, the
    configuration it leaves and the value it returns.  [k] counts the ticks
    and selects what the world answers. *)
Definition thread_func (w : World) (k : nat) (config : config_t.t)
  : list event * config_t.t * Z :=
  let idevice := config_t.idevice config in
  let cu_status := w_ret w (cuCtxPushCurrent_step idevice) k in
  if negb (cu_status =? 0) then
    ([Call (cuCtxPushCurrent_step idevice) cu_status;
      eprintf ("Cannot push current context for device %d, status = %d" ++ nl)%string
        [AInt idevice; AInt cu_status]],
     config, cu_status)
  else
  let status := w_ret w (pattern2d_gpu idevice) k in
  let config1 :=
    config_t.set_out_dev
      (w_gpu w idevice k (config_t.in_dev config) (config_t.out_dev config)) config in
  if negb (status =? 0) then
    ([Call (cuCtxPushCurrent_step idevice) cu_status;
      Call (pattern2d_gpu idevice) status;
      eprintf ("Cannot execute pattern 2d on device %d, status = %d" ++ nl)%string
        [AInt idevice; AInt status]],
     config1, status)
  else
  let config2 := config_t.set_step (int_wrap (config_t.step config1 + 1)) config1 in
  let cu_status' := w_ret w (cuCtxPopCurrent_step idevice) k in
  let config3 := config_t.set_ctx (w_ctx w (cuCtxPopCurrent_step idevice) k) config2 in
  if negb (cu_status' =? 0) then
    ([Call (cuCtxPushCurrent_step idevice) cu_status;
      Call (pattern2d_gpu idevice) status;
      Call (cuCtxPopCurrent_step idevice) cu_status';
      eprintf ("Cannot pop current context for device %d, status = %d" ++ nl)%string
        [AInt idevice; AInt cu_status']],
     config3, cu_status')
  else
  let swap := config_t.in_dev config3 in
  let config4 := config_t.set_in_dev (config_t.out_dev config3) config3 in
  let config5 := config_t.set_out_dev swap config4 in
  ([Call (cuCtxPushCurrent_step idevice) cu_status;
    Call (pattern2d_gpu idevice) status;
    Call (cuCtxPopCurrent_step idevice) cu_status';
    printf ("Device %d completed step %d" ++ nl)%string
      [AInt idevice; AInt (config_t.step config5)]],
   config5, 0).

(** ** Loops with an early [return] *)

Fixpoint foldM {A S} (f : S -> A -> M S) (l : list A) (s : S) : M S :=
  match l with
  | [] => ret s
  | a :: l' => s' <- f s a ;; foldM f l' s'
  end.

Fixpoint mapM {A B} (f : A -> M B) (l : list A) : M (list B) :=
  match l with
  | [] => ret []
  | a :: l' => b <- f a ;; bs <- mapM f l' ;; ret (b :: bs)
  end.

(** ** Host memory *)

(** [p[i]] for a pointer [p] at offset [p] cells into the block [mem].  A
    read outside the block is undefined in the source; here it gives +0. *)
Definition load (mem : list spec_float) (p : nat) (i : Z) : spec_float :=
  default (S754_zero false) (mem !! (p + Z.to_nat i)%nat).

(** [memcpy(mem + dst, mem + src, n cells)]. *)
Definition memcpy (dst src n : nat) (mem : list spec_float) : list spec_float :=
  list_inserts dst (take n (drop src mem)) mem.

(** The [n] cells at offset [p]. *)
Definition tile (p n : nat) (mem : list spec_float) : list spec_float :=
  take n (drop p mem).

(** [size_t np = nx * ny]: the product is taken in [int] and converted. *)
Definition size_t_of_int (z : Z) : Z := z mod 2 ^ 64.

Definition np_of (g : globals) : nat :=
  Z.to_nat (size_t_of_int (int_wrap (nx g * ny g))).

(** ** Creation of the input data (lines 118 to 124) *)

(** [float invdrandmax = 1.0 / RAND_MAX]: a [double] division, narrowed. *)
Definition invdrandmax (w : World) : spec_float :=
  float_of_double
    (SFdiv prec64 emax64 (double_of_int 1) (double_of_int (w_RAND_MAX w))).

(** [rand() * invdrandmax] for the [i]-th call of [rand]. *)
Definition seed_cell (w : World) (i : nat) : spec_float :=
  SFmul prec32 emax32 (float_of_int (w_rand w i)) (invdrandmax w).

Definition seed_loop (w : World) (np : nat) (mem : list spec_float) : list spec_float :=
  foldl (fun mem i => <[i := seed_cell w i]> mem) mem (seq 0 np).

Definition copy_loop (ndevices np : nat) (mem : list spec_float) : list spec_float :=
  foldl (fun mem i => memcpy (np * (i + 1)) 0 np mem) mem (seq 0 (ndevices + 1)).

(** The block [malloc] returns holds whatever the world left there. *)
Definition malloc_inout (w : World) (ndevices np : nat) : list spec_float :=
  map (w_malloc_cell w) (seq 0 ((ndevices + 2) * np)).

Definition init_inout (w : World) (ndevices np : nat) : list spec_float :=
  copy_loop ndevices np (seed_loop w np (malloc_inout w ndevices np)).

(** ** Creation of the worker configs (lines 131 to 192) *)

Definition init_config (g : globals) (w : World) (np : nat) (inout : list spec_float)
    (idevice : nat) : M config_t.t :=
  let d := Z.of_nat idevice in
  let config :=
    config_t.mk d (w_status_garbage w d) 0 (nx g) (ny g) (np * idevice) [] [] 0 in
  checked w (cuDeviceGet d) 0
    ("Cannot get CUDA device by index %d, status = %d" ++ nl)%string [AInt d] ;;;
  checked w (cuCtxCreate d) 0
    ("Cannot create a context for device %d, status = %d" ++ nl)%string [AInt d] ;;;
  let config := config_t.set_ctx (w_ctx w (cuCtxCreate d) 0) config in
  checked w (cudaMalloc_in_dev d) 0
    ("Cannot allocate CUDA input buffer on device %d, status = %d" ++ nl)%string [AInt d] ;;;
  let config :=
    config_t.set_in_dev (map (w_cudaMalloc_cell w d false) (seq 0 np)) config in
  checked w (cudaMalloc_out_dev d) 0
    ("Cannot allocate CUDA output buffer on device %d, status = %d" ++ nl)%string [AInt d] ;;;
  let config :=
    config_t.set_out_dev (map (w_cudaMalloc_cell w d true) (seq 0 np)) config in
  checked w (cudaMemcpy_HostToDevice d) 0
    ("Cannot copy input data to CUDA buffer on device %d, status = %d" ++ nl)%string [AInt d] ;;;
  let config :=
    config_t.set_in_dev (tile (config_t.inout_cpu config) np inout) config in
  checked w (cuCtxPopCurrent_init d) 0
    ("Cannot pop current context for device %d, status = %d" ++ nl)%string [AInt d] ;;;
  let config := config_t.set_ctx (w_ctx w (cuCtxPopCurrent_init d) 0) config in
  emit (printf ("Device %d initialized" ++ nl)%string [AInt d]) ;;;
  ret config.

(** ** The state of [main] from the tick loop on *)

Record state := {
  inout : list spec_float;
  configs : list config_t.t;
  control : nat;      (* offset in cells from [inout] *)
  input : nat         (* offset in cells from [inout] *)
}.

Definition set_inout (v : list spec_float) (st : state) : state :=
  {| inout := v; configs := configs st; control := control st; input := input st |}.

Definition set_configs (v : list config_t.t) (st : state) : state :=
  {| inout := inout st; configs := v; control := control st; input := input st |}.

(** [swap = control; control = input; input = swap]. *)
Definition swap_host (st : state) : state :=
  {| inout := inout st; configs := configs st; control := input st; input := control st |}.

(** ** One tick (lines 199 to 236) *)

(** The assignment of line 210. *)
Definition worker (w : World) (k : nat) (config : config_t.t) : list event * config_t.t :=
  let '(t, config', r) := thread_func w k config in
  (t, config_t.set_status r config').

(** The parallel loop over the devices.  [order] is the order in which the
    iterations happen to run; each iteration works on [configs + i] alone.
    The lines of one [thread_func] are kept together here; [fan_par] below
    takes the events of the iterations in any interleaving. *)
Definition fan_step (w : World) (k : nat) (acc : list event * list config_t.t) (i : nat)
  : list event * list config_t.t :=
  match acc.2 !! i with
  | Some config =>
      let (t, config') := worker w k config in (acc.1 ++ t, <[i := config']> acc.2)
  | None => acc
  end.

Definition fan_out (w : World) (k : nat) (order : list nat) (cs : list config_t.t)
  : list event * list config_t.t :=
  foldl (fan_step w k) ([], cs) order.

(** The section for the CPU thread: the value [pattern2d_cpu] returns is
    dropped.  The array [configs] has [ndevices] elements, and its length
    stands for [ndevices] here and in the loop of the join. *)
Definition host_section (w : World) (k : nat) (np : nat) (st : state)
  : list event * state :=
  let ndevices := Z.of_nat (length (configs st)) in
  let out :=
    w_cpu w k (tile (input st) np (inout st)) (tile (control st) np (inout st)) in
  ([Call (pattern2d_cpu (input st) (control st) ndevices)
      (w_ret w (pattern2d_cpu (input st) (control st) ndevices) k)],
   swap_host (set_inout (list_inserts (control st) (take np out) (inout st)) st)).

(** The loop of lines 227 to 236. *)
Fixpoint join (i : nat) (cs : list config_t.t) : M unit :=
  match cs with
  | [] => ret tt
  | config :: cs' =>
      let status := config_t.status config in
      if negb (status =? 0) then
        emit (eprintf
                ("Cannot execute thread function for device %d, status = %d" ++ nl)%string
                [AInt (Z.of_nat i); AInt status]) ;;;
        exit status
      else join (S i) cs'
  end.

(** One tick: the two sections, then the join.  The sections work on
    disjoint data, the devices on their buffers and the host on the tiles
    [control] and [input]; their events are recorded with those of the GPU
    section first.  [sched k] is the order of the parallel loop in tick
    [k]. *)
Definition tick (w : World) (sched : nat -> list nat) (np : nat) (k : nat) (st : state)
  : M state :=
  let (t1, cs) := fan_out w k (sched k) (configs st) in
  let (t2, st') := host_section w k np (set_configs cs st) in
  (t1 ++ t2, Continue st') ;;;
  join 0 (configs st') ;;;
  ret st'.

(** [n] ticks from tick [k] on. *)
Fixpoint step_loop (w : World) (sched : nat -> list nat) (np : nat) (n k : nat)
    (st : state) : M state :=
  match n with
  | O => ret st
  | S n' => st' <- tick w sched np k st ;; step_loop w sched np n' (S k) st'
  end.

(** ** Release of the devices (lines 247 to 294) *)

Definition fini_config (w : World) (np : nat) (st : state) (idevice : nat) : M state :=
  match configs st !! idevice with
  | None => ret st
  | Some config =>
      let d := Z.of_nat idevice in
      checked w (cuCtxPushCurrent_fini d) 0
        ("Cannot push current context for device %d, status = %d" ++ nl)%string [AInt d] ;;;
      checked w (cudaMemcpy_DeviceToHost d) 0
        ("Cannot copy output data from CUDA buffer on device %d, status = %d" ++ nl)%string
        [AInt d] ;;;
      let st :=
        set_inout
          (list_inserts (config_t.inout_cpu config) (take np (config_t.in_dev config))
             (inout st)) st in
      checked w (cudaFree_in_dev d) 0
        ("Cannot release input buffer on device %d, status = %d" ++ nl)%string [AInt d] ;;;
      checked w (cudaFree_out_dev d) 0
        ("Cannot release output buffer on device %d, status = %d" ++ nl)%string [AInt d] ;;;
      checked w (cuCtxDestroy d) 0
        ("Cannot destroy context for device %d" ++ nl)%string [AInt d] ;;;
      emit (printf ("Device %d deinitialized" ++ nl)%string [AInt d]) ;;;
      ret st
  end.

(** ** Comparison of each GPU result to the CPU result (lines 297 to 318) *)

(** The index [i + j * nx], computed in [int]. *)
Definition cell_index (nx i j : Z) : Z := int_wrap (i + int_wrap (j * nx)).

(** The body of the inner loop (lines 306 to 313) for the tile at offset
    [p], on the running [maxdiff], [maxi] and [maxj]. *)
Definition compare_cell (g : globals) (mem : list spec_float) (control p : nat) (j : Z)
    (acc : spec_float * Z * Z) (i : Z) : spec_float * Z * Z :=
  let '(maxdiff, maxi, maxj) := acc in
  let diff :=
    fabs_diff (load mem control (cell_index (nx g) i j))
              (load mem p (cell_index (nx g) i j)) in
  if float_gt diff maxdiff then (diff, i, j) else (maxdiff, maxi, maxj).

(** The inner loop (lines 304 to 314). *)
Definition compare_row (g : globals) (mem : list spec_float) (control p : nat)
    (acc : spec_float * Z * Z) (j : Z) : spec_float * Z * Z :=
  foldl (compare_cell g mem control p j) acc (seqZ 0 (nx g)).

(** Lines 300 to 315. *)
Definition abs_max_diff (g : globals) (mem : list spec_float) (control p : nat)
  : spec_float * Z * Z :=
  foldl (compare_row g mem control p)
    (fabs_diff (load mem control 0) (load mem p 0), 0, 0)
    (seqZ 0 (ny g)).

Definition validate (g : globals) (np : nat) (st : state) (idevice : nat) : event :=
  let '(maxdiff, maxi, maxj) :=
    abs_max_diff g (inout st) (control st) (idevice * np) in
  printf ("Device %d result abs max diff = %f @ (%d,%d)" ++ nl)%string
    [AInt (Z.of_nat idevice); AFloat maxdiff; AInt maxi; AInt maxj].

(** ** [main] *)

(** Lines 93 to 196: discovery, the input data, the worker configs and the
    two host pointers. *)
Definition prologue (g : globals) (w : World) : M state :=
  let ndevices := w_ndevices w in
  checked w cudaGetDeviceCount 0
    ("Cannot get the cuda device count, status = %d" ++ nl)%string [] ;;;
  emit (printf ("%d CUDA device(s) found" ++ nl)%string [AInt (Z.of_nat ndevices)]) ;;;
  if (ndevices =? 0)%nat then exit 0 else
  emit (printf ("%d OpenMP threads used" ++ nl)%string [AInt (w_nthreads w)]) ;;;
  let np := np_of g in
  emit (Malloc inout_block) ;;;
  let inout := init_inout w ndevices np in
  emit (Malloc configs_block) ;;;
  configs <- mapM (init_config g w np inout) (seq 0 ndevices) ;;
  ret {| inout := inout; configs := configs;
         control := (ndevices * np)%nat; input := ((ndevices + 1) * np)%nat |}.

(** Lines 239 to 321: the last swap, the release of the devices, the
    comparison, and the two [free]s. *)
Definition epilogue (g : globals) (w : World) (st : state) : M state :=
  let ndevices := w_ndevices w in
  let np := np_of g in
  let st := swap_host st in
  st <- foldM (fini_config w np) (seq 0 ndevices) st ;;
  (map (validate g np st) (seq 0 ndevices), Continue tt) ;;;
  emit (Free configs_block) ;;;
  emit (Free inout_block) ;;;
  ret st.

(** [main] up to its last [return]: the trace, and either the status of an
    early [return] or the state the comparison was made on. *)
Definition main_run (g : globals) (w : World) (sched : nat -> list nat) : M state :=
  st <- prologue g w ;;
  st <- step_loop w sched (np_of g) (Z.to_nat (nticks g)) 0 st ;;
  epilogue g w st.

Definition main (g : globals) (w : World) (sched : nat -> list nat) : list event * Z :=
  match main_run g w sched with
  | (t, Return s) => (t, s)
  | (t, Continue _) => (t, 0)
  end.

(** The loop order: iteration [i] of every parallel loop runs after
    iteration [i - 1]. *)
Definition in_order (ndevices : nat) : nat -> list nat := fun _ => seq 0 ndevices.

(** * Notions the properties are stated with *)

(** ** Observations on traces *)

Definition is_stdout (e : event) : bool :=
  match e with Stdout _ _ => true | _ => false end.

Definition is_stderr (e : event) : bool :=
  match e with Stderr _ _ => true | _ => false end.

(** The lines a trace puts on stdout, and on stderr. *)
Definition stdout_of (t : list event) : list event := List.filter is_stdout t.
Definition stderr_of (t : list event) : list event := List.filter is_stderr t.

(** The line of line 86. *)
Definition completed_line (idevice k : Z) : event :=
  Stdout ("Device %d completed step %d" ++ nl)%string [AInt idevice; AInt k].

(** The line of lines 232 and 233. *)
Definition join_line (i s : Z) : event :=
  Stderr ("Cannot execute thread function for device %d, status = %d" ++ nl)%string
    [AInt i; AInt s].

(** The first configuration from [cs] on whose status is not zero, with
    its index, [i] being the index of the head of [cs]. *)
Fixpoint first_nonzero (i : nat) (cs : list config_t.t) : option (nat * Z) :=
  match cs with
  | [] => None
  | c :: cs' =>
      if config_t.status c =? 0 then first_nonzero (S i) cs' else Some (i, config_t.status c)
  end.

(** The events of the release of a device: the copy of its result to the
    host, the two [cudaFree], the destruction of its context, with the push
    that precedes them, and its "deinitialized" line. *)
Definition is_release (e : event) : bool :=
  match e with
  | Call (cuCtxPushCurrent_fini _) _
  | Call (cudaMemcpy_DeviceToHost _) _
  | Call (cudaFree_in_dev _) _
  | Call (cudaFree_out_dev _) _
  | Call (cuCtxDestroy _) _ => true
  | Stdout fmt _ => String.eqb fmt ("Device %d deinitialized" ++ nl)%string
  | _ => false
  end.

(** The lines of the comparison. *)
Definition is_comparison (e : event) : bool :=
  match e with
  | Stdout fmt _ =>
      String.eqb fmt ("Device %d result abs max diff = %f @ (%d,%d)" ++ nl)%string
  | _ => false
  end.

(** The state an outcome continues with, [st] when it is a [return]. *)
Definition continued {A} (st : A) (o : outcome A) : A :=
  match o with Continue a => a | Return _ => st end.

Definition is_cpu_call (e : event) : bool :=
  match e with Call (pattern2d_cpu _ _ _) _ => true | _ => false end.

(** The output pointer of the last call of [pattern2d_cpu] in a trace: the
    tile the host kernel has written most recently. *)
Fixpoint last_cpu_out (t : list event) : option nat :=
  match t with
  | [] => None
  | e :: t' =>
      match last_cpu_out t' with
      | Some p => Some p
      | None =>
          match e with
          | Call (pattern2d_cpu _ out_host _) _ => Some out_host
          | _ => None
          end
      end
  end.

(** The state in which the tick loop is left, when it is left at its end. *)
Definition after_loop (g : globals) (w : World) (sched : nat -> list nat) : outcome state :=
  match prologue g w with
  | (_, Continue st0) => (step_loop w sched (np_of g) (Z.to_nat (nticks g)) 0 st0).2
  | (_, Return s) => Return s
  end.

(** The difference the comparison takes at the linear index [n] of the
    tile at offset [p]. *)
Definition diff_at (mem : list spec_float) (control p : nat) (n : Z) : spec_float :=
  fabs_diff (load mem control n) (load mem p n).

(** What holds of the running [maxdiff], [maxi] and [maxj] when the cells
    of linear index below [N] have been compared: the maximum is the
    difference at [(maxi, maxj)], no cell compared exceeds it, and the cells
    before [(maxi, maxj)] are below it. *)
Definition running_max (g : globals) (mem : list spec_float) (control p : nat) (N : Z)
    (acc : spec_float * Z * Z) : Prop :=
  0 <= acc.1.2 < nx g /\ 0 <= acc.2 < ny g /\
  acc.1.1 = diff_at mem control p (acc.1.2 + acc.2 * nx g) /\
  (forall n, 0 <= n < N -> float_gt (diff_at mem control p n) acc.1.1 = false) /\
  (forall n, 0 <= n < acc.1.2 + acc.2 * nx g ->
     float_gt acc.1.1 (diff_at mem control p n) = true).

(** The place of a float that is not a NaN in the order of [SFcompare], as
    a triple compared lexicographically. *)
Definition float_key (x : spec_float) : Z * Z * Z :=
  match x with
  | S754_zero _ => (0, 0, 0)
  | S754_infinity false => (2, 0, 0)
  | S754_infinity true => (-2, 0, 0)
  | S754_nan => (0, 0, 0)
  | S754_finite false m e => (1, e, Z.pos m)
  | S754_finite true m e => (-1, - e, - Z.pos m)
  end.

Definition key_lt (a b : Z * Z * Z) : Prop :=
  a.1.1 < b.1.1 \/
  (a.1.1 = b.1.1 /\ (a.1.2 < b.1.2 \/ (a.1.2 = b.1.2 /\ a.2 < b.2))).

(** The calls whose status the program looks at: all but [pattern2d_cpu]. *)
Definition is_checked (f : call) : bool :=
  match f with pattern2d_cpu _ _ _ => false | _ => true end.

Definition is_failure (e : event) : bool :=
  match e with Call f s => is_checked f && negb (s =? 0) | _ => false end.

(** The status of the first call of a trace that the program looks at and
    that did not return zero. *)
Fixpoint first_failure (t : list event) : option Z :=
  match t with
  | [] => None
  | e :: t' =>
      if is_failure e
      then match e with Call _ s => Some s | _ => None end
      else first_failure t'
  end.

(** What [first_failure] is for a computation that agrees with its status:
    none when it continues or returns zero, the status it returns
    otherwise. *)
Definition agrees {A} (m : M A) : Prop :=
  match m.2 with
  | Continue _ => first_failure m.1 = None
  | Return s => first_failure m.1 = if s =? 0 then None else Some s
  end.

(** The message the program has for each call whose status it looks at,
    and the arguments the message is to print: the device, where the call
    has one, and the status. *)
Definition report_fmt (f : call) : string :=
  match f with
  | cudaGetDeviceCount => "Cannot get the cuda device count, status = %d" ++ nl
  | cuDeviceGet _ => "Cannot get CUDA device by index %d, status = %d" ++ nl
  | cuCtxCreate _ => "Cannot create a context for device %d, status = %d" ++ nl
  | cudaMalloc_in_dev _ =>
      "Cannot allocate CUDA input buffer on device %d, status = %d" ++ nl
  | cudaMalloc_out_dev _ =>
      "Cannot allocate CUDA output buffer on device %d, status = %d" ++ nl
  | cudaMemcpy_HostToDevice _ =>
      "Cannot copy input data to CUDA buffer on device %d, status = %d" ++ nl
  | cuCtxPopCurrent_init _ | cuCtxPopCurrent_step _ =>
      "Cannot pop current context for device %d, status = %d" ++ nl
  | cuCtxPushCurrent_step _ | cuCtxPushCurrent_fini _ =>
      "Cannot push current context for device %d, status = %d" ++ nl
  | pattern2d_gpu _ | pattern2d_cpu _ _ _ =>
      "Cannot execute pattern 2d on device %d, status = %d" ++ nl
  | cudaMemcpy_DeviceToHost _ =>
      "Cannot copy output data from CUDA buffer on device %d, status = %d" ++ nl
  | cudaFree_in_dev _ => "Cannot release input buffer on device %d, status = %d" ++ nl
  | cudaFree_out_dev _ => "Cannot release output buffer on device %d, status = %d" ++ nl
  | cuCtxDestroy _ => "Cannot destroy context for device %d" ++ nl
  end%string.

Definition report_args (f : call) (s : Z) : list arg :=
  match f with
  | cudaGetDeviceCount => [AInt s]
  | cuDeviceGet d | cuCtxCreate d | cudaMalloc_in_dev d | cudaMalloc_out_dev d
  | cudaMemcpy_HostToDevice d | cuCtxPopCurrent_init d | cuCtxPushCurrent_step d
  | pattern2d_gpu d | cuCtxPopCurrent_step d | pattern2d_cpu _ _ d
  | cuCtxPushCurrent_fini d | cudaMemcpy_DeviceToHost d | cudaFree_in_dev d
  | cudaFree_out_dev d | cuCtxDestroy d => [AInt d; AInt s]
  end.

(** The event [e] is the stderr line for the failure of [f] with status
    [s]: the message of [f] with the arguments it is given.  The message
    for [cuCtxDestroy] (line 289) is given the device and the status as the
    others are; of its line only this is said: it is a stderr line that
    begins with the message and carries the device index first. *)
Definition reports (f : call) (s : Z) (e : event) : Prop :=
  match f with
  | cuCtxDestroy d =>
      exists fmt rest,
        e = Stderr fmt (AInt d :: rest) /\
        String.prefix "Cannot destroy context for device %d" fmt = true
  | _ => e = Stderr (report_fmt f) (report_args f s)
  end.

(** Every failure of a trace is followed at once by its stderr line.  This
    is meant for the events of one strand of control: what one function
    does between a call and the next. *)
Fixpoint well_reported (t : list event) : Prop :=
  match t with
  | [] => True
  | e :: rest =>
      if is_failure e then
        match e, rest with
        | Call f s, e' :: rest' => reports f s e' /\ well_reported rest'
        | _, _ => False
        end
      else well_reported rest
  end.

Definition is_join_line (e : event) : bool :=
  match e with
  | Stderr fmt _ =>
      String.eqb fmt
        ("Cannot execute thread function for device %d, status = %d" ++ nl)%string
  | _ => false
  end.

Definition failures (t : list event) : nat := length (List.filter is_failure t).
Definition joins (t : list event) : nat := length (List.filter is_join_line t).

(** A trace in which each failure is reported on the spot, and whose
    stderr lines are these reports and the lines of the join. *)
Definition reported (t : list event) : Prop :=
  well_reported t /\ length (stderr_of t) = (failures t + joins t)%nat.

(** The "completed" lines of one tick: one for each device, in the order
    in which the devices ran, whose [thread_func] returns zero. *)
Definition completed_lines (w : World) (k : nat) (cs : list config_t.t) (order : list nat)
  : list event :=
  concat
    (map
       (fun i =>
          match cs !! i with
          | Some c =>
              if (thread_func w k c).2 =? 0
              then [completed_line (config_t.idevice c) (int_wrap (config_t.step c + 1))]
              else []
          | None => []
          end)
       order).

(** * Examples: worlds, globals and configurations to run the program on *)

(** A world with [D] devices in which the calls return what [r] says; the
    kernels copy their input, and [rand] counts. *)
Definition example_world (D : nat) (r : call -> nat -> Z) : World := {|
  w_ret := r;
  w_ndevices := D;
  w_nthreads := 4;
  w_RAND_MAX := 2147483647;
  w_rand := fun i => Z.of_nat i * 100000000;
  w_malloc_cell := fun _ => S754_nan;
  w_cudaMalloc_cell := fun _ _ _ => S754_nan;
  w_status_garbage := fun _ => 77;
  w_ctx := fun _ _ => 1;
  w_gpu := fun _ _ inp _ => inp;
  w_cpu := fun _ inp _ => inp
|}.

Definition all_succeed : call -> nat -> Z := fun _ _ => 0.

(** A 2 by 2 grid and three ticks. *)
Definition small_globals : globals := {| nticks := 3; nx := 2; ny := 2 |}.

(** A configuration at rest, as [main] builds it for device 0. *)
Definition example_config : config_t.t :=
  config_t.mk 0 77 0 2 2 0
    [S754_zero false; S754_zero false; S754_zero false; S754_zero false]
    [S754_nan; S754_nan; S754_nan; S754_nan] 1.

(** The pop of device 0 fails with status 9 in the first tick. *)
Definition pop_fails : call -> nat -> Z :=
  fun f k => match f, k with cuCtxPopCurrent_step 0, O => 9 | _, _ => 0 end.

(** The kernel of device 0 fails with status 5 in the first tick. *)
Definition kernel_fails : call -> nat -> Z :=
  fun f k => match f, k with pattern2d_gpu 0, O => 5 | _, _ => 0 end.

(** Two devices fail in the second tick: the kernel of device 0 with
    status 5, the pop of device 1 with status 9. *)
Definition two_fail : call -> nat -> Z :=
  fun f k =>
    match f, k with
    | pattern2d_gpu 0, 1%nat => 5
    | cuCtxPopCurrent_step 1, 1%nat => 9
    | _, _ => 0
    end.

(** Device 1 runs before device 0 in every tick. *)
Definition reversed : nat -> list nat := fun _ => [1; 0]%nat.

Definition empty_state : state :=
  {| inout := []; configs := []; control := 0; input := 0 |}.

(** A workspace of three 2 by 2 tiles: the tile at offset 4 differs from
    the tile at offset 0 by 1 in the cells 1 and 3. *)
Definition example_mem : list spec_float :=
  [S754_zero false; S754_zero false; S754_zero false; S754_zero false;
   S754_zero false; float_of_int 1; S754_zero false; float_of_int 1;
   S754_zero false; S754_zero false; S754_zero false; S754_zero false].

(** [pattern2d_cpu] returns 5 in the first tick; all other calls succeed. *)
Definition cpu_fails : call -> nat -> Z :=
  fun f k => match f, k with pattern2d_cpu _ _ _, O => 5 | _, _ => 0 end.

(** [cudaGetDeviceCount] fails with status 3. *)
Definition count_fails : call -> nat -> Z :=
  fun f k => match f with cudaGetDeviceCount => 3 | _ => 0 end.

(** The destruction of the context of device 0 fails with status 3. *)
Definition destroy_fails : call -> nat -> Z :=
  fun f k => match f with cuCtxDestroy 0 => 3 | _ => 0 end.

(** The configurations [main] builds for two devices. *)
Definition example_configs : list config_t.t :=
  configs (continued empty_state (prologue small_globals (example_world 2 all_succeed)).2).

(** * The shape of a run without failure *)

(** What the creation of the config of a device puts on the trace when no
    call fails (lines 140 to 191). *)
Definition init_trace (idevice : nat) : list event :=
  let d := Z.of_nat idevice in
  [Call (cuDeviceGet d) 0; Call (cuCtxCreate d) 0;
   Call (cudaMalloc_in_dev d) 0; Call (cudaMalloc_out_dev d) 0;
   Call (cudaMemcpy_HostToDevice d) 0; Call (cuCtxPopCurrent_init d) 0;
   Stdout ("Device %d initialized" ++ nl)%string [AInt d]].

(** The config it leaves: at step 0, with the tile of the device in the
    input buffer and the output buffer as [cudaMalloc] returned it. *)
Definition initial_config (g : globals) (w : World) (np : nat) (inout : list spec_float)
    (idevice : nat) : config_t.t :=
  let d := Z.of_nat idevice in
  config_t.mk d (w_status_garbage w d) 0 (nx g) (ny g) (np * idevice)
    (tile (np * idevice) np inout)
    (map (w_cudaMalloc_cell w d true) (seq 0 np))
    (w_ctx w (cuCtxPopCurrent_init d) 0).

(** What a step of device [d] that succeeds puts on the trace, [k] being
    the step it completes (lines 54 to 86). *)
Definition step_trace (d k : Z) : list event :=
  [Call (cuCtxPushCurrent_step d) 0; Call (pattern2d_gpu d) 0;
   Call (cuCtxPopCurrent_step d) 0; completed_line d k].

(** The trace of tick [j] when every step succeeds: the steps in the order
    [sched j], then the call of the host kernel with the pointers [inp] and
    [ctl] and the status the world gives it. *)
Definition tick_trace (w : World) (sched : nat -> list nat) (D : nat) (ctl inp : nat)
    (j : nat) : list event :=
  concat (map (fun i => step_trace (Z.of_nat i) (Z.of_nat j + 1)) (sched j)) ++
  [Call (pattern2d_cpu inp ctl (Z.of_nat D))
     (w_ret w (pattern2d_cpu inp ctl (Z.of_nat D)) j)].

(** The trace of [n] such ticks from tick [k] on; the two host pointers
    change places after each. *)
Fixpoint loop_trace (w : World) (sched : nat -> list nat) (D : nat) (ctl inp : nat)
    (n k : nat) : list event :=
  match n with
  | O => []
  | S n' => tick_trace w sched D ctl inp k ++ loop_trace w sched D inp ctl n' (S k)
  end.

(** What the release of a device puts on the trace when no call fails
    (lines 253 to 293). *)
Definition release_trace (idevice : nat) : list event :=
  let d := Z.of_nat idevice in
  [Call (cuCtxPushCurrent_fini d) 0; Call (cudaMemcpy_DeviceToHost d) 0;
   Call (cudaFree_in_dev d) 0; Call (cudaFree_out_dev d) 0;
   Call (cuCtxDestroy d) 0;
   Stdout ("Device %d deinitialized" ++ nl)%string [AInt d]].

(** The configs of a state are those of the devices 0 to [D - 1], in
    order, each at step [k]. *)
Definition at_step (D : nat) (k : Z) (cs : list config_t.t) : Prop :=
  length cs = D /\
  forall i c, cs !! i = Some c ->
    config_t.idevice c = Z.of_nat i /\ config_t.step c = k.

(** * The data of a run without failure *)

(** The seeded tile, and the output buffer of device [d] as [cudaMalloc]
    returned it. *)
Definition seed_tile (w : World) (np : nat) : list spec_float :=
  map (seed_cell w) (seq 0 np).

Definition fresh_out_dev (w : World) (np : nat) (d : nat) : list spec_float :=
  map (w_cudaMalloc_cell w (Z.of_nat d) true) (seq 0 np).

(** One step of device [d] on the contents of its two buffers, input
    first: the kernel writes the output buffer, and the buffers change
    places. *)
Definition device_step (w : World) (d : nat)
    (b : list spec_float * list spec_float) (k : nat)
  : list spec_float * list spec_float :=
  (w_gpu w (Z.of_nat d) k b.1 b.2, b.1).

(** The two buffers of device [d] after [n] steps from [b]. *)
Definition device_buffers (w : World) (d : nat) (n : nat)
    (b : list spec_float * list spec_float) : list spec_float * list spec_float :=
  foldl (device_step w d) b (seq 0 n).

(** The same for the host kernel on the tiles [input] and [control]. *)
Definition host_step (w : World) (b : list spec_float * list spec_float) (k : nat)
  : list spec_float * list spec_float :=
  (w_cpu w k b.1 b.2, b.1).

Definition host_tiles (w : World) (n : nat) (b : list spec_float * list spec_float)
  : list spec_float * list spec_float :=
  foldl (host_step w) b (seq 0 n).

(** The kernels leave the size of the buffer they write as it is. *)
Definition kernels_keep_size (w : World) : Prop :=
  (forall d k inp out,
     length inp = length out -> length (w_gpu w d k inp out) = length out) /\
  (forall k inp out,
     length inp = length out -> length (w_cpu w k inp out) = length out).

(** What holds of the data when [k] ticks have run without failure:
    the two host pointers are the tiles [D] and [D + 1], which hold what
    [k] steps of the host kernel make of the seeded tile; the host tiles
    of the devices are as the initialization left them; the buffers of
    device [i] hold what [k] steps of its kernel make of the seeded tile. *)
Definition data_at (w : World) (D np : nat) (k : nat) (st : state) : Prop :=
  length (inout st) = ((D + 2) * np)%nat /\
  ((control st = (D * np)%nat /\ input st = ((D + 1) * np)%nat) \/
   (control st = ((D + 1) * np)%nat /\ input st = (D * np)%nat)) /\
  (tile (input st) np (inout st), tile (control st) np (inout st)) =
    host_tiles w k (seed_tile w np, seed_tile w np) /\
  (forall d, (d < D)%nat -> tile (d * np) np (inout st) = seed_tile w np) /\
  (forall i c, configs st !! i = Some c ->
     config_t.inout_cpu c = (np * i)%nat /\
     (config_t.in_dev c, config_t.out_dev c) =
       device_buffers w i k (seed_tile w np, fresh_out_dev w np i) /\
     length (config_t.in_dev c) = np /\ length (config_t.out_dev c) = np).

Definition is_finite (x : spec_float) : bool :=
  match x with S754_zero _ | S754_finite _ _ _ => true | _ => false end.

(** [n] steps of a kernel that is a function [F] of the tick and of its
    input. *)
Definition iterate (F : nat -> list spec_float -> list spec_float) (n : nat)
    (x : list spec_float) : list spec_float :=
  foldl (fun x k => F k x) x (seq 0 n).

(** The line of the comparison for a device whose tile equals the control
    tile. *)
Definition no_difference_line (d : nat) : event :=
  Stdout ("Device %d result abs max diff = %f @ (%d,%d)" ++ nl)%string
    [AInt (Z.of_nat d); AFloat (S754_zero false); AInt 0; AInt 0].

(** * Runs that fail *)

Definition is_free (e : event) : bool :=
  match e with Free _ => true | _ => false end.

(** The lines of lines 191 and 293. *)
Definition init_line (d : nat) : event :=
  Stdout ("Device %d initialized" ++ nl)%string [AInt (Z.of_nat d)].

Definition deinit_line (d : nat) : event :=
  Stdout ("Device %d deinitialized" ++ nl)%string [AInt (Z.of_nat d)].

(** A workspace of two 2 by 2 tiles whose first cells differ by a NaN and
    whose second cells differ by 1. *)
Definition nan_mem : list spec_float :=
  [S754_nan; S754_zero false; S754_zero false; S754_zero false;
   S754_zero false; float_of_int 1; S754_zero false; S754_zero false].

(** The same with the NaN in the second cell of the first tile and the
    difference of 1 in the third cell. *)
Definition nan_later_mem : list spec_float :=
  [S754_zero false; S754_nan; S754_zero false; S754_zero false;
   S754_zero false; S754_zero false; float_of_int 1; S754_zero false].

(** The creation of the context of device 1 fails with status 7. *)
Definition create_fails : call -> nat -> Z :=
  fun f k => match f with cuCtxCreate 1 => 7 | _ => 0 end.

(** The second [cudaFree] of device 0 fails with status 4. *)
Definition free_fails : call -> nat -> Z :=
  fun f k => match f with cudaFree_out_dev 0 => 4 | _ => 0 end.

(** * The parallel loop with its iterations interleaved *)

(** The iterations of the loop of lines 206 to 211 run in a team of
    threads, and nothing orders the calls and lines of one iteration with
    respect to those of another: the events of two steps may alternate.
    [fan_out] above runs one whole [thread_func] after another, which is
    enough to tell what the iterations leave in [configs] and what each of
    them prints; it does not tell in what order the events of a tick can
    come.  For that an event is recorded with its strand of control: the
    thread that runs [main] up to the loop and after it ([None]), or
    iteration [i] of the loop of the current tick ([Some i]). *)
Definition strand : Type := option nat.

Definition strand_eqb (x y : strand) : bool :=
  match x, y with
  | None, None => true
  | Some i, Some j => Nat.eqb i j
  | _, _ => false
  end.

Definition on_main (t : list event) : list (strand * event) := map (pair None) t.

Definition on_iteration (i : nat) (t : list event) : list (strand * event) :=
  map (pair (Some i)) t.

(** The events of a trace in the order in which they happen, and those of
    one strand. *)
Definition flat (t : list (strand * event)) : list event := map snd t.

Definition strand_events (x : strand) (t : list (strand * event)) : list event :=
  map snd (List.filter (fun p => strand_eqb p.1 x) t).

(** An interleaving of the traces [ts] of the iterations.  [picks] names,
    event by event, the iteration whose next event happens; a pick of an
    iteration that has no event left is passed over, and when [picks] is
    used up what is left of the iterations follows, iteration by
    iteration. *)
Fixpoint merge (picks : list nat) (ts : list (list event)) : list (strand * event) :=
  match picks with
  | [] => concat (imap on_iteration ts)
  | i :: picks' =>
      match ts !! i with
      | Some (e :: rest) => (Some i, e) :: merge picks' (<[i := rest]> ts)
      | _ => merge picks' ts
      end
  end.

(** The interleavings of [ts]: at each point the next event of one of the
    iterations happens, until none has an event left. *)
Inductive interleaves : list (list event) -> list (strand * event) -> Prop :=
| interleaves_done ts :
    Forall (fun l => l = []) ts -> interleaves ts []
| interleaves_next ts i e rest t :
    ts !! i = Some (e :: rest) ->
    interleaves (<[i := rest]> ts) t ->
    interleaves ts ((Some i, e) :: t).

(** A trace with strands and an early [return]. *)
Definition P (A : Type) : Type := list (strand * event) * outcome A.

Definition lift {A} (m : M A) : P A := (on_main m.1, m.2).

Definition pbind {A B} (m : P A) (f : A -> P B) : P B :=
  match m with
  | (t, Return s) => (t, Return s)
  | (t, Continue a) => let (t', r) := f a in (t ++ t', r)
  end.

(** The parallel loop of tick [k]: each iteration works on [configs + i]
    alone and leaves there what [worker] makes of it, however the events
    are interleaved. *)
Definition fan_par (w : World) (k : nat) (picks : list nat) (cs : list config_t.t)
  : list (strand * event) * list config_t.t :=
  (merge picks (map (fun c => (worker w k c).1) cs),
   map (fun c => (worker w k c).2) cs).

(** One tick, as [tick]: the section of the devices, the section of the
    host, which the thread of [main] runs when the loop is done, and the
    join. *)
Definition tick_par (w : World) (picks : nat -> list nat) (np : nat) (k : nat) (st : state)
  : P state :=
  let (t1, cs) := fan_par w k (picks k) (configs st) in
  let (t2, st') := host_section w k np (set_configs cs st) in
  pbind (t1 ++ on_main t2, Continue st') (fun _ =>
  pbind (lift (join 0 (configs st'))) (fun _ =>
  ([], Continue st'))).

Fixpoint step_loop_par (w : World) (picks : nat -> list nat) (np : nat) (n k : nat)
    (st : state) : P state :=
  match n with
  | O => ([], Continue st)
  | S n' =>
      pbind (tick_par w picks np k st) (fun st' => step_loop_par w picks np n' (S k) st')
  end.

Definition main_run_par (g : globals) (w : World) (picks : nat -> list nat) : P state :=
  pbind (lift (prologue g w)) (fun st =>
  pbind (step_loop_par w picks (np_of g) (Z.to_nat (nticks g)) 0 st) (fun st =>
  lift (epilogue g w st))).

(** [main] with the interleaving [picks k] in tick [k]. *)
Definition main_par (g : globals) (w : World) (picks : nat -> list nat)
  : list (strand * event) * Z :=
  match main_run_par g w picks with
  | (t, Return s) => (t, s)
  | (t, Continue _) => (t, 0)
  end.

(** The interleaved run [p] and the run [m] end alike and are made of the
    same events, each as often in the one as in the other. *)
Definition same_events {A} (p : P A) (m : M A) : Prop :=
  p.2 = m.2 /\ flat p.1 ≡ₚ m.1.

(** The device a call is made for. *)
Definition call_device (f : call) : option Z :=
  match f with
  | cudaGetDeviceCount => None
  | cuDeviceGet d | cuCtxCreate d | cudaMalloc_in_dev d | cudaMalloc_out_dev d
  | cudaMemcpy_HostToDevice d | cuCtxPopCurrent_init d | cuCtxPushCurrent_step d
  | pattern2d_gpu d | cuCtxPopCurrent_step d | pattern2d_cpu _ _ d
  | cuCtxPushCurrent_fini d | cudaMemcpy_DeviceToHost d | cudaFree_in_dev d
  | cudaFree_out_dev d | cuCtxDestroy d => Some d
  end.

(** [configs[i]] is the config of device [i]. *)
Definition indexed (cs : list config_t.t) : Prop :=
  forall i c, cs !! i = Some c -> config_t.idevice c = Z.of_nat i.

(** No call of a step has failed. *)
Definition no_step_failure (t : list (strand * event)) : Prop :=
  forall j f s, In (Some j, Call f s) t -> s = 0.

(** No line of the join, and no failed call of a step. *)
Definition no_join (t : list (strand * event)) : Prop :=
  joins (flat t) = 0%nat /\ no_step_failure t.

(** The trace ends at the join with the status [s]: its last event is the
    line of the join, made by the thread of [main], for an iteration [i]
    and with the status [s]; a call for device [i] in iteration [i] has
    returned [s], which is not zero; no call of an iteration before [i] has
    failed; and there is no other line of the join. *)
Definition ends_at_join (t : list (strand * event)) (s : Z) : Prop :=
  exists i f pre,
    t = pre ++ [(None, join_line (Z.of_nat i) s)] /\ s <> 0 /\
    joins (flat pre) = 0%nat /\
    In (Some i, Call f s) pre /\ call_device f = Some (Z.of_nat i) /\
    (forall j f' s', In (Some j, Call f' s') pre -> s' <> 0 -> (i <= j)%nat).

(** The trace of tick [j] when every step succeeds: an interleaving of the
    steps of the devices, then the call of the host kernel. *)
Definition tick_par_trace (w : World) (picks : nat -> list nat) (D : nat) (ctl inp : nat)
    (j : nat) : list (strand * event) :=
  merge (picks j) (map (fun i => step_trace (Z.of_nat i) (Z.of_nat j + 1)) (seq 0 D)) ++
  on_main
    [Call (pattern2d_cpu inp ctl (Z.of_nat D))
       (w_ret w (pattern2d_cpu inp ctl (Z.of_nat D)) j)].

Fixpoint loop_par_trace (w : World) (picks : nat -> list nat) (D : nat) (ctl inp : nat)
    (n k : nat) : list (strand * event) :=
  match n with
  | O => []
  | S n' =>
      tick_par_trace w picks D ctl inp k ++ loop_par_trace w picks D inp ctl n' (S k)
  end.

(** In every tick the two devices take turns, event by event. *)
Definition alternating : nat -> list nat := fun _ => [0; 1; 0; 1; 0; 1; 0; 1]%nat.

(** * Properties *)

(** ** The control structure *)

Lemma bind_ret_l {A B} (a : A) (f : A -> M B) : bind (ret a) f = f a.
Proof. unfold bind, ret. destruct (f a) as [t r]. reflexivity. Qed.

Lemma bind_Return {A B} t s (f : A -> M B) : bind (t, Return s) f = (t, Return s).
Proof. reflexivity. Qed.

Lemma bind_Continue {A B} t a (f : A -> M B) :
  bind (t, Continue a) f = (t ++ (f a).1, (f a).2).
Proof. unfold bind. destruct (f a). reflexivity. Qed.

Lemma checked_ok w f n fmt args :
  w_ret w f n = 0 -> checked w f n fmt args = ([Call f 0], Continue tt).
Proof. intros H. unfold checked. rewrite H. reflexivity. Qed.

Lemma checked_fail w f n fmt args :
  w_ret w f n <> 0 ->
  checked w f n fmt args =
    ([Call f (w_ret w f n); eprintf fmt (args ++ [AInt (w_ret w f n)])],
     Return (w_ret w f n)).
Proof.
  intros H. unfold checked. apply Z.eqb_neq in H. rewrite H. reflexivity.
Qed.

(** ** A run without failure *)

(** One device, a 2 by 2 grid and one tick, with kernels that copy their
    input: what [main] prints and returns. *)
Example main_one_device_one_tick :
  (main {| nticks := 1; nx := 2; ny := 2 |} (example_world 1 all_succeed) (in_order 1)).2 = 0 /\
  stdout_of
    (main {| nticks := 1; nx := 2; ny := 2 |} (example_world 1 all_succeed) (in_order 1)).1 =
    [Stdout ("%d CUDA device(s) found" ++ nl)%string [AInt 1];
     Stdout ("%d OpenMP threads used" ++ nl)%string [AInt 4];
     Stdout ("Device %d initialized" ++ nl)%string [AInt 0];
     completed_line 0 1;
     Stdout ("Device %d deinitialized" ++ nl)%string [AInt 0];
     Stdout ("Device %d result abs max diff = %f @ (%d,%d)" ++ nl)%string
       [AInt 0; AFloat (S754_zero false); AInt 0; AInt 0]] /\
  stderr_of
    (main {| nticks := 1; nx := 2; ny := 2 |} (example_world 1 all_succeed) (in_order 1)).1 =
    [].
Proof. vm_compute. repeat split; reflexivity. Qed.

(** ** Discovery *)

(** C7. With a device count of zero, [main] returns 0 having called
    [cudaGetDeviceCount] and printed the discovery line, and nothing else:
    no allocation, no device is initialized, no tick, no comparison. *)
Theorem main_zero_devices (g : globals) (w : World) (sched : nat -> list nat) :
  w_ret w cudaGetDeviceCount 0%nat = 0 ->
  w_ndevices w = 0%nat ->
  main g w sched =
    ([Call cudaGetDeviceCount 0;
      Stdout ("%d CUDA device(s) found" ++ nl)%string [AInt 0]], 0).
Proof.
  intros Hs Hn. unfold main, main_run, prologue.
  rewrite (checked_ok _ _ _ _ _ Hs), Hn. reflexivity.
Qed.

Lemma main_zero_devices_witness :
  main source_globals (example_world 0 all_succeed) (in_order 0) =
    ([Call cudaGetDeviceCount 0;
      Stdout ("%d CUDA device(s) found" ++ nl)%string [AInt 0]], 0).
Proof. apply main_zero_devices; reflexivity. Defined.

(** ** [thread_func] *)

(** C2, as the code has it.  When [thread_func] fails, line 210 stores the
    status it returned in the configuration.  The step counter is left as
    it was when the push or the kernel failed; when the pop fails the
    counter has already been incremented (line 70 precedes line 73). *)
Theorem thread_func_failure (w : World) (k : nat) (config : config_t.t) :
  let d := config_t.idevice config in
  let push := w_ret w (cuCtxPushCurrent_step d) k in
  let kernel := w_ret w (pattern2d_gpu d) k in
  let pop := w_ret w (cuCtxPopCurrent_step d) k in
  let config' := (worker w k config).2 in
  (thread_func w k config).2 <> 0 ->
  config_t.status config' = (thread_func w k config).2 /\
  (push <> 0 ->
     config_t.status config' = push /\
     config_t.step config' = config_t.step config) /\
  (push = 0 -> kernel <> 0 ->
     config_t.status config' = kernel /\
     config_t.step config' = config_t.step config) /\
  (push = 0 -> kernel = 0 ->
     config_t.status config' = pop /\ pop <> 0 /\
     config_t.step config' = int_wrap (config_t.step config + 1)).
Proof.
  intros d push kernel pop config'.
  subst config'. unfold worker, thread_func. fold d. fold push kernel pop.
  destruct (Z.eqb_spec push 0) as [Hpush | Hpush]; simpl.
  2: { intros _. repeat split; try reflexivity; intros; contradiction. }
  destruct (Z.eqb_spec kernel 0) as [Hk | Hk]; simpl.
  2: { intros _. repeat split; try reflexivity; intros; contradiction. }
  destruct (Z.eqb_spec pop 0) as [Hpop | Hpop]; simpl.
  { intros H. contradiction. }
  intros _. repeat split; try reflexivity; try assumption; intros; contradiction.
Qed.

Lemma thread_func_failure_witness :
  config_t.status (worker (example_world 1 pop_fails) 0 example_config).2 = 9 /\
  config_t.step (worker (example_world 1 pop_fails) 0 example_config).2 = 1.
Proof.
  assert (Hf : (thread_func (example_world 1 pop_fails) 0 example_config).2 <> 0)
    by (vm_compute; discriminate).
  destruct (thread_func_failure (example_world 1 pop_fails) 0 example_config Hf)
    as (_ & _ & _ & Hpop).
  destruct Hpop as (Hs & _ & Hstep); [reflexivity | reflexivity |].
  split; [exact Hs | exact Hstep].
Defined.

(** C2, as stated, fails when the pop fails: the invocation fails with
    status 9, and the step counter has gone from 0 to 1. *)
Lemma step_incremented_when_pop_fails :
  let config' := (worker (example_world 1 pop_fails) 0 example_config).2 in
  (thread_func (example_world 1 pop_fails) 0 example_config).2 = 9 /\
  config_t.status config' = 9 /\
  config_t.step example_config = 0 /\
  config_t.step config' = 1 /\
  config_t.step config' <> config_t.step example_config.
Proof. vm_compute. repeat split; discriminate. Qed.

(** [thread_func] prints its "completed" line exactly when it succeeds. *)
Lemma thread_func_stdout (w : World) (k : nat) (config : config_t.t) :
  let d := config_t.idevice config in
  let t := (thread_func w k config).1.1 in
  let config' := (thread_func w k config).1.2 in
  let r := (thread_func w k config).2 in
  (r = 0 <->
     w_ret w (cuCtxPushCurrent_step d) k = 0 /\
     w_ret w (pattern2d_gpu d) k = 0 /\
     w_ret w (cuCtxPopCurrent_step d) k = 0) /\
  (r = 0 <-> In (completed_line d (config_t.step config')) t) /\
  (r = 0 ->
     stdout_of t = [completed_line d (config_t.step config')] /\
     config_t.step config' = int_wrap (config_t.step config + 1)) /\
  (r <> 0 -> stdout_of t = []).
Proof.
  intros d t config' r. subst t config' r. unfold thread_func. fold d.
  destruct (Z.eqb_spec (w_ret w (cuCtxPushCurrent_step d) k) 0) as [Hpush | Hpush];
    simpl.
  2: { repeat split; try tauto; try (intros; contradiction).
       intros [H | [H | []]]; discriminate H. }
  destruct (Z.eqb_spec (w_ret w (pattern2d_gpu d) k) 0) as [Hk | Hk]; simpl.
  2: { repeat split; try tauto; try (intros; contradiction).
       intros [H | [H | [H | []]]]; discriminate H. }
  destruct (Z.eqb_spec (w_ret w (cuCtxPopCurrent_step d) k) 0) as [Hpop | Hpop];
    simpl.
  2: { repeat split; try tauto; try (intros; contradiction).
       intros [H | [H | [H | [H | []]]]]; discriminate H. }
  repeat split; try tauto; try (intros; contradiction).
Qed.

(** ** Properties of traces that the control structure preserves *)

Lemma bind_inv_Continue {A B} (m : M A) (f : A -> M B) t b :
  bind m f = (t, Continue b) ->
  exists t1 a t2, m = (t1, Continue a) /\ f a = (t2, Continue b) /\ t = t1 ++ t2.
Proof.
  destruct m as [t1 [s | a]]; simpl; [discriminate |].
  destruct (f a) as [t2 r] eqn:E. intros [= <- ->]. eauto 6.
Qed.

Lemma bind_inv_Return {A B} (m : M A) (f : A -> M B) t s :
  bind m f = (t, Return s) ->
  m = (t, Return s) \/
  exists t1 a t2, m = (t1, Continue a) /\ f a = (t2, Return s) /\ t = t1 ++ t2.
Proof.
  destruct m as [t1 [s1 | a]]; simpl.
  - intros [= <- <-]. left. reflexivity.
  - destruct (f a) as [t2 r] eqn:E. intros [= <- ->]. right. eauto 6.
Qed.

Section Closed.
Variable P : list event -> Prop.
Hypothesis P_nil : P [].
Hypothesis P_app : forall t1 t2, P t1 -> P t2 -> P (t1 ++ t2).

Lemma closed_bind {A B} (m : M A) (f : A -> M B) :
  P m.1 -> (forall a, P (f a).1) -> P (bind m f).1.
Proof.
  intros Hm Hf. destruct m as [t [s | a]]; simpl in *; [assumption |].
  specialize (Hf a). destruct (f a) as [t' r]. simpl in *. auto.
Qed.

Lemma closed_mapM {A B} (f : A -> M B) (l : list A) :
  (forall a, P (f a).1) -> P (mapM f l).1.
Proof.
  intros Hf. induction l as [| a l IH]; simpl; [assumption |].
  apply closed_bind; [apply Hf |]. intros b.
  apply closed_bind; [assumption |]. intros bs. assumption.
Qed.

Lemma closed_foldM {A S} (f : S -> A -> M S) (l : list A) (s : S) :
  (forall s a, P (f s a).1) -> P (foldM f l s).1.
Proof.
  intros Hf. revert s. induction l as [| a l IH]; intros s; simpl; [assumption |].
  apply closed_bind; [apply Hf | apply IH].
Qed.

Lemma closed_fan_out w k order cs :
  (forall c, P (worker w k c).1) -> P (fan_out w k order cs).1.
Proof.
  intros Hw. unfold fan_out.
  assert (G : forall acc, P acc.1 -> P (foldl (fan_step w k) acc order).1).
  { induction order as [| i order IH]; intros acc Hacc; simpl; [assumption |].
    apply IH. unfold fan_step. destruct (acc.2 !! i) as [c |]; [| assumption].
    specialize (Hw c). destruct (worker w k c) as [t c']. simpl in *. auto. }
  apply G. assumption.
Qed.

Lemma closed_tick w sched np k st :
  (forall c, P (worker w k c).1) ->
  (forall st', P (host_section w k np st').1) ->
  (forall i cs, P (join i cs).1) ->
  P (tick w sched np k st).1.
Proof.
  intros Hw Hh Hj. unfold tick.
  pose proof (closed_fan_out w k (sched k) (configs st) Hw) as Hf.
  destruct (fan_out w k (sched k) (configs st)) as [t1 cs].
  specialize (Hh (set_configs cs st)).
  destruct (host_section w k np (set_configs cs st)) as [t2 st'].
  apply closed_bind; [simpl in *; auto |]. intros _.
  apply closed_bind; [apply Hj |]. intros _. assumption.
Qed.

Lemma closed_step_loop w sched np n k st :
  (forall k st, P (tick w sched np k st).1) ->
  P (step_loop w sched np n k st).1.
Proof.
  intros Ht. revert k st. induction n as [| n IH]; intros k st; simpl; [assumption |].
  apply closed_bind; [apply Ht | intros st'; apply IH].
Qed.
End Closed.

(** ** The parallel loop *)

(** Each iteration reads and writes its own configuration only: when no
    index occurs twice, the loop leaves in place [i] what [worker] makes of
    the configuration that was there, whatever the order. *)
Lemma fan_out_acc w k order :
  NoDup order ->
  forall t0 cs0,
    (foldl (fan_step w k) (t0, cs0) order).1 =
      t0 ++ concat (map (fun i => from_option (fun c => (worker w k c).1) [] (cs0 !! i)) order) /\
    forall i,
      (foldl (fan_step w k) (t0, cs0) order).2 !! i =
        if decide (i ∈ order) then (fun c => (worker w k c).2) <$> cs0 !! i else cs0 !! i.
Proof.
  induction 1 as [| a l Ha Hl IH]; intros t0 cs0; simpl.
  { split; [by rewrite app_nil_r |]. intros i.
    destruct (decide (i ∈ [])) as [Hi | _]; [| done]. by apply elem_of_nil in Hi. }
  assert (Hdec : forall i (X : Type) (x y : X),
             (if decide (i ∈ a :: l) then x else y) =
             if decide (i = a) then x else if decide (i ∈ l) then x else y).
  { intros i X x y. destruct (decide (i ∈ a :: l)) as [Hi | Hi];
      destruct (decide (i = a)) as [-> | Hne]; try done.
    - destruct (decide (i ∈ l)) as [| Hn]; [done |].
      apply elem_of_cons in Hi as [? | ?]; done.
    - exfalso. apply Hi, elem_of_cons. by left.
    - destruct (decide (i ∈ l)) as [Hl' |]; [| done].
      exfalso. apply Hi, elem_of_cons. by right. }
  unfold fan_step at 2 4. simpl.
  destruct (cs0 !! a) as [c |] eqn:Ea; simpl.
  - destruct (worker w k c) as [t c'] eqn:Ew.
    destruct (IH (t0 ++ t) (<[a := c']> cs0)) as [IH1 IH2]. split.
    + rewrite IH1, <- app_assoc. do 3 f_equal.
      apply map_ext_in. intros i Hi. apply list_elem_of_In in Hi.
      rewrite list_lookup_insert_ne; [done |]. intros ->. contradiction.
    + intros i. rewrite IH2, Hdec. destruct (decide (i = a)) as [-> | Hne].
      * destruct (decide (a ∈ l)); [contradiction |].
        rewrite list_lookup_insert_eq by (eapply lookup_lt_Some; eassumption).
        rewrite Ea. simpl. by rewrite Ew.
      * rewrite list_lookup_insert_ne by done. done.
  - destruct (IH t0 cs0) as [IH1 IH2]. split; [done |].
    intros i. rewrite IH2, Hdec. destruct (decide (i = a)) as [-> | Hne]; [| done].
    destruct (decide (a ∈ l)); [contradiction |]. by rewrite Ea.
Qed.

Lemma fan_out_configs w k order cs :
  order ≡ₚ seq 0 (length cs) ->
  (fan_out w k order cs).2 = map (fun c => (worker w k c).2) cs.
Proof.
  intros Hp. assert (Hnd : NoDup order) by (rewrite Hp; apply NoDup_seq).
  destruct (fan_out_acc w k order Hnd [] cs) as [_ H2].
  apply list_eq. intros i. unfold fan_out. rewrite H2.
  change (map ?f cs) with (f <$> cs). rewrite list_lookup_fmap.
  destruct (decide (i ∈ order)) as [Hi | Hi]; [done |].
  rewrite (lookup_ge_None_2 cs i); [done |].
  destruct (decide (i < length cs)%nat) as [Hlt | ?]; [| lia].
  exfalso. apply Hi. rewrite Hp. apply elem_of_seq. lia.
Qed.

Lemma map_lookup_seq {A B} (F : A -> B) (d : B) (pre l : list A) :
  map (fun i => from_option F d ((pre ++ l) !! i)) (seq (length pre) (length l)) = map F l.
Proof.
  revert pre. induction l as [| a l IH]; intros pre; simpl; [done |].
  rewrite lookup_app_r by lia. rewrite Nat.sub_diag. simpl. f_equal.
  specialize (IH (pre ++ [a])). rewrite length_app in IH. simpl in IH.
  rewrite Nat.add_1_r in IH. rewrite <- app_assoc in IH. exact IH.
Qed.

Lemma fan_out_in_order w k cs :
  (fan_out w k (seq 0 (length cs)) cs).1 = concat (map (fun c => (worker w k c).1) cs).
Proof.
  destruct (fan_out_acc w k (seq 0 (length cs)) (NoDup_seq _ _) [] cs) as [H1 _].
  unfold fan_out. rewrite H1. simpl. f_equal.
  apply (map_lookup_seq (fun c => (worker w k c).1) [] [] cs).
Qed.

(** ** The join *)

Lemma join_first_nonzero i cs :
  join i cs =
    match first_nonzero i cs with
    | None => ([], Continue tt)
    | Some (j, s) => ([join_line (Z.of_nat j) s], Return s)
    end.
Proof.
  revert i. induction cs as [| c cs IH]; intros i; simpl; [reflexivity |].
  destruct (Z.eqb_spec (config_t.status c) 0) as [Hz | Hz]; simpl.
  - apply IH.
  - reflexivity.
Qed.

Lemma first_nonzero_Some i cs j s :
  first_nonzero i cs = Some (j, s) <->
  exists c, (i <= j)%nat /\ cs !! (j - i)%nat = Some c /\ config_t.status c = s /\ s <> 0 /\
    forall m c', (m < j - i)%nat -> cs !! m = Some c' -> config_t.status c' = 0.
Proof.
  revert i. induction cs as [| c cs IH]; intros i; simpl.
  { split; [discriminate |]. intros (c & _ & H & _). discriminate H. }
  destruct (Z.eqb_spec (config_t.status c) 0) as [Hz | Hz].
  - rewrite IH. split.
    + intros (c0 & Hle & Hl & Hs & Hne & Hlow). exists c0.
      replace (j - i)%nat with (S (j - S i)) by lia. simpl.
      repeat split; try assumption; [lia |].
      intros [| m] c' Hm Hc'; simpl in Hc'; [congruence |].
      apply (Hlow m c'); [lia | assumption].
    + intros (c0 & Hle & Hl & Hs & Hne & Hlow).
      destruct (j - i)%nat as [| m] eqn:E; simpl in Hl; [congruence |].
      exists c0. replace (j - S i)%nat with m by lia.
      repeat split; try assumption; [lia |].
      intros m' c' Hm' Hc'. apply (Hlow (S m') c'); [lia | assumption].
  - split.
    + intros [= <- <-]. exists c. rewrite Nat.sub_diag. simpl.
      repeat split; try assumption; [lia |]. intros m c' Hm. lia.
    + intros (c0 & Hle & Hl & Hs & Hne & Hlow).
      destruct (j - i)%nat as [| m] eqn:E; simpl in Hl.
      * injection Hl as <-. subst s. do 2 f_equal. lia.
      * exfalso. apply Hz. apply (Hlow 0%nat c); [lia | reflexivity].
Qed.

(** ** The shape of a run of [main] *)

Lemma tick_eq w sched np k st :
  tick w sched np k st =
    let fo := fan_out w k (sched k) (configs st) in
    let hs := host_section w k np (set_configs fo.2 st) in
    match first_nonzero 0 fo.2 with
    | None => (fo.1 ++ hs.1, Continue hs.2)
    | Some (j, s) => (fo.1 ++ hs.1 ++ [join_line (Z.of_nat j) s], Return s)
    end.
Proof.
  unfold tick. destruct (fan_out w k (sched k) (configs st)) as [t1 cs]. simpl.
  rewrite join_first_nonzero.
  destruct (first_nonzero 0 cs) as [[j s] |]; simpl.
  - by rewrite <- app_assoc.
  - by rewrite !app_nil_r.
Qed.

Lemma step_loop_add w sched np n1 n2 k st :
  step_loop w sched np (n1 + n2) k st =
    (st' <- step_loop w sched np n1 k st ;; step_loop w sched np n2 (k + n1) st').
Proof.
  revert k st. induction n1 as [| n1 IH]; intros k st; simpl.
  { rewrite Nat.add_0_r. unfold ret, bind.
    destruct (step_loop w sched np n2 k st). reflexivity. }
  destruct (tick w sched np k st) as [t [s | st']]; simpl; [reflexivity |].
  rewrite IH. replace (S k + n1)%nat with (k + S n1)%nat by lia.
  destruct (step_loop w sched np n1 (S k) st') as [t1 [s1 | st1]]; simpl;
    [reflexivity |].
  destruct (step_loop w sched np n2 (k + S n1) st1) as [t2 r2].
  by rewrite app_assoc.
Qed.

(** A run whose tick [k] ends in a [return]: the ticks before it continue,
    and nothing follows the tick. *)
Lemma main_returns_in_tick g w sched k t0 st0 t1 st t2 s :
  prologue g w = (t0, Continue st0) ->
  step_loop w sched (np_of g) k 0 st0 = (t1, Continue st) ->
  (k < Z.to_nat (nticks g))%nat ->
  tick w sched (np_of g) k st = (t2, Return s) ->
  main g w sched = (t0 ++ t1 ++ t2, s).
Proof.
  intros H0 H1 Hk H2. unfold main, main_run. rewrite H0. simpl.
  replace (Z.to_nat (nticks g)) with (k + S (Z.to_nat (nticks g) - S k))%nat by lia.
  rewrite step_loop_add, H1. simpl. rewrite H2. simpl. reflexivity.
Qed.

(** ** Which events a part of the program can emit *)

Section Events.
Variable Q : event -> bool.

Lemma events_nil : forallb Q [] = true.
Proof. reflexivity. Qed.

Lemma events_app t1 t2 :
  forallb Q t1 = true -> forallb Q t2 = true -> forallb Q (t1 ++ t2) = true.
Proof. intros H1 H2. rewrite forallb_app, H1, H2. reflexivity. Qed.

Lemma events_bind {A B} (m : M A) (f : A -> M B) :
  forallb Q m.1 = true -> (forall a, forallb Q (f a).1 = true) ->
  forallb Q (bind m f).1 = true.
Proof. apply (closed_bind (fun t => forallb Q t = true) events_app). Qed.

Lemma events_mapM {A B} (f : A -> M B) (l : list A) :
  (forall a, forallb Q (f a).1 = true) -> forallb Q (mapM f l).1 = true.
Proof. apply (closed_mapM (fun t => forallb Q t = true) events_nil events_app). Qed.

Lemma events_foldM {A S} (f : S -> A -> M S) (l : list A) (s : S) :
  (forall s a, forallb Q (f s a).1 = true) -> forallb Q (foldM f l s).1 = true.
Proof. apply (closed_foldM (fun t => forallb Q t = true) events_nil events_app). Qed.

Lemma events_checked w f n fmt args :
  (forall s, Q (Call f s) = true) ->
  (forall a, Q (Stderr fmt a) = true) ->
  forallb Q (checked w f n fmt args).1 = true.
Proof.
  intros Hc He. unfold checked. destruct (w_ret w f n =? 0); simpl.
  - rewrite Hc. reflexivity.
  - unfold eprintf. rewrite Hc, He. reflexivity.
Qed.

Lemma events_emit e : Q e = true -> forallb Q (emit e).1 = true.
Proof. intros H. simpl. rewrite H. reflexivity. Qed.

Lemma events_map {A} (f : A -> event) (l : list A) :
  (forall a, Q (f a) = true) -> forallb Q (map f l) = true.
Proof. intros H. induction l as [| a l IH]; simpl; [| rewrite H, IH]; reflexivity. Qed.

Lemma events_step_loop w sched np n k st :
  (forall d k' s, Q (Call (cuCtxPushCurrent_step d) s) = true /\
                  Q (Call (pattern2d_gpu d) s) = true /\
                  Q (Call (cuCtxPopCurrent_step d) s) = true /\
                  Q (completed_line d k') = true) ->
  (forall fmt a, Q (Stderr fmt a) = true) ->
  (forall p q d s, Q (Call (pattern2d_cpu p q d) s) = true) ->
  forallb Q (step_loop w sched np n k st).1 = true.
Proof.
  intros Hw He Hc.
  apply (closed_step_loop (fun t => forallb Q t = true) events_nil events_app).
  clear k st. intros k st.
  apply (closed_tick (fun t => forallb Q t = true) events_nil events_app).
  - intros c. unfold worker, thread_func.
    set (d := config_t.idevice c).
    destruct (Hw d 0 (w_ret w (cuCtxPushCurrent_step d) k)) as (H1 & _).
    destruct (Hw d 0 (w_ret w (pattern2d_gpu d) k)) as (_ & H2 & _).
    destruct (Hw d 0 (w_ret w (cuCtxPopCurrent_step d) k)) as (_ & _ & H3 & _).
    repeat (match goal with |- context [negb (?x =? 0)] => destruct (x =? 0) end;
            simpl);
      unfold eprintf, printf; simpl; rewrite ?H1, ?H2, ?H3, ?He; simpl;
      try reflexivity.
    match goal with
    | |- context [Stdout ?f [AInt d; AInt ?k']] =>
        destruct (Hw d k' 0) as (_ & _ & _ & H4)
    end.
    unfold completed_line in H4. simpl in H4. rewrite H4. reflexivity.
  - intros st'. simpl. rewrite Hc. reflexivity.
  - intros i cs. rewrite join_first_nonzero.
    destruct (first_nonzero i cs) as [[j s] |]; simpl; [| reflexivity].
    unfold join_line. rewrite He. reflexivity.
Qed.
End Events.

Ltac events :=
  repeat first
    [ apply events_checked; [intros ?; reflexivity | intros ?; reflexivity]
    | apply events_emit; reflexivity
    | apply events_mapM; intros ?
    | apply events_foldM; intros ? ?
    | apply events_map; intros ?
    | apply events_bind; [| intros ?]
    | reflexivity ].

Lemma prologue_no_release g w :
  forallb (fun e => negb (is_release e || is_comparison e)) (prologue g w).1 = true.
Proof.
  unfold prologue. events.
  destruct (w_ndevices w =? 0)%nat; [reflexivity |]. unfold init_config. events.
Qed.

Lemma step_loop_no_release w sched np n k st :
  forallb (fun e => negb (is_release e || is_comparison e))
    (step_loop w sched np n k st).1 = true.
Proof.
  apply events_step_loop; intros; repeat split; reflexivity.
Qed.

(** ** Failure of a step *)

Lemma first_nonzero_lookup cs i c :
  cs !! i = Some c -> config_t.status c <> 0 ->
  (forall j c', (j < i)%nat -> cs !! j = Some c' -> config_t.status c' = 0) ->
  first_nonzero 0 cs = Some (i, config_t.status c).
Proof.
  intros Hi Hs Hlow. apply first_nonzero_Some. exists c.
  rewrite Nat.sub_0_r. repeat split; try assumption. lia.
Qed.

Lemma first_nonzero_exists cs i c :
  cs !! i = Some c -> config_t.status c <> 0 ->
  exists j c', (j <= i)%nat /\ cs !! j = Some c' /\ config_t.status c' <> 0 /\
    first_nonzero 0 cs = Some (j, config_t.status c').
Proof.
  intros Hi Hs.
  destruct (first_nonzero 0 cs) as [[j s] |] eqn:E.
  - pose proof E as E'. apply first_nonzero_Some in E' as (c' & _ & Hj & <- & Hne & Hlow).
    rewrite Nat.sub_0_r in Hj, Hlow. exists j, c'.
    repeat split; try assumption.
    destruct (decide (j <= i)%nat) as [| Hgt]; [assumption |].
    exfalso. apply Hs. apply (Hlow i c); [lia | assumption].
  - exfalso. revert i Hi E. generalize 0%nat.
    induction cs as [| c0 cs IH]; intros n i Hi E; [discriminate Hi |].
    simpl in E. destruct (Z.eqb_spec (config_t.status c0) 0) as [Hz | Hz];
      [| discriminate E].
    destruct i as [| i]; simpl in Hi; [congruence |]. eapply IH; eassumption.
Qed.

(** C10.  When the tick [k] of a run is reached and, at its join, the
    configuration of device [i] holds a status that is not zero while those
    of the devices below [i] hold zero, [main] returns the status of device
    [i], whatever the devices above [i] hold and in whatever order the
    iterations of the parallel loop ran. *)
Theorem exit_status_of_lowest_failing_device
    (g : globals) (w : World) (sched : nat -> list nat) (k : nat)
    (t0 t1 : list event) (st0 st : state) (i : nat) (c : config_t.t) :
  prologue g w = (t0, Continue st0) ->
  step_loop w sched (np_of g) k 0 st0 = (t1, Continue st) ->
  (k < Z.to_nat (nticks g))%nat ->
  (fan_out w k (sched k) (configs st)).2 !! i = Some c ->
  config_t.status c <> 0 ->
  (forall j c', (j < i)%nat ->
     (fan_out w k (sched k) (configs st)).2 !! j = Some c' -> config_t.status c' = 0) ->
  (main g w sched).2 = config_t.status c.
Proof.
  intros H0 H1 Hk Hi Hs Hlow.
  pose proof (first_nonzero_lookup _ _ _ Hi Hs Hlow) as Hf.
  pose proof (tick_eq w sched (np_of g) k st) as Ht. simpl in Ht. rewrite Hf in Ht.
  rewrite (main_returns_in_tick _ _ _ _ _ _ _ _ _ _ H0 H1 Hk Ht). reflexivity.
Qed.

Lemma exit_status_of_lowest_failing_device_witness :
  (main small_globals (example_world 2 two_fail) reversed).2 = 5.
Proof.
  pose (W := example_world 2 two_fail).
  pose (p := prologue small_globals W).
  pose (l := step_loop W reversed (np_of small_globals) 1 0 (continued empty_state p.2)).
  pose (st := continued empty_state l.2).
  pose (cs := (fan_out W 1 (reversed 1) (configs st)).2).
  refine (eq_trans
            (exit_status_of_lowest_failing_device small_globals W reversed 1
               p.1 l.1 (continued empty_state p.2) st 0
               (default example_config (cs !! 0%nat)) _ _ _ _ _ _) _).
  - vm_compute. reflexivity.
  - vm_compute. reflexivity.
  - vm_compute. lia.
  - vm_compute. reflexivity.
  - vm_compute. discriminate.
  - intros j c' Hj. lia.
  - vm_compute. reflexivity.
Defined.

(** C1, as the code has it.  When the tick [k] of a run is reached and, at
    its join, the configuration of some device holds a status that is not
    zero, [main] returns at this join: with the status of the lowest such
    device, after the line of the join and without a further tick.  The
    release of the devices is skipped like the comparison: the run copies
    no result back, frees no buffer, destroys no context and prints no
    "deinitialized" line. *)
Theorem abort_at_join_skips_release
    (g : globals) (w : World) (sched : nat -> list nat) (k : nat)
    (t0 t1 : list event) (st0 st : state) (i : nat) (c : config_t.t) :
  prologue g w = (t0, Continue st0) ->
  step_loop w sched (np_of g) k 0 st0 = (t1, Continue st) ->
  (k < Z.to_nat (nticks g))%nat ->
  (fan_out w k (sched k) (configs st)).2 !! i = Some c ->
  config_t.status c <> 0 ->
  exists j c',
    (j <= i)%nat /\
    (fan_out w k (sched k) (configs st)).2 !! j = Some c' /\
    config_t.status c' <> 0 /\
    main g w sched =
      (t0 ++ t1 ++ (fan_out w k (sched k) (configs st)).1 ++
         (host_section w k (np_of g)
            (set_configs (fan_out w k (sched k) (configs st)).2 st)).1 ++
         [join_line (Z.of_nat j) (config_t.status c')],
       config_t.status c') /\
    forallb (fun e => negb (is_release e || is_comparison e)) (main g w sched).1 = true.
Proof.
  intros H0 H1 Hk Hi Hs.
  destruct (first_nonzero_exists _ _ _ Hi Hs) as (j & c' & Hj & Hc' & Hne & Hf).
  exists j, c'. repeat split; try assumption.
  - pose proof (tick_eq w sched (np_of g) k st) as Ht. simpl in Ht. rewrite Hf in Ht.
    apply (main_returns_in_tick _ _ _ _ _ _ _ _ _ _ H0 H1 Hk Ht).
  - pose proof (tick_eq w sched (np_of g) k st) as Ht. simpl in Ht. rewrite Hf in Ht.
    rewrite (main_returns_in_tick _ _ _ _ _ _ _ _ _ _ H0 H1 Hk Ht). simpl.
    pose proof (prologue_no_release g w) as Hp. rewrite H0 in Hp.
    pose proof (step_loop_no_release w sched (np_of g) k 0 st0) as Hl.
    rewrite H1 in Hl.
    pose proof (step_loop_no_release w sched (np_of g) 1 k st) as Hl'.
    simpl in Hl'. rewrite Ht in Hl'. simpl in *.
    rewrite !forallb_app. rewrite Hp, Hl. simpl.
    rewrite !forallb_app in Hl'. exact Hl'.
Qed.

Lemma abort_at_join_skips_release_witness :
  (main small_globals (example_world 2 two_fail) reversed).2 = 5 /\
  forallb (fun e => negb (is_release e || is_comparison e))
    (main small_globals (example_world 2 two_fail) reversed).1 = true.
Proof.
  pose (W := example_world 2 two_fail).
  pose (p := prologue small_globals W).
  pose (l := step_loop W reversed (np_of small_globals) 1 0 (continued empty_state p.2)).
  pose (st := continued empty_state l.2).
  pose (cs := (fan_out W 1 (reversed 1) (configs st)).2).
  destruct (abort_at_join_skips_release small_globals W reversed 1
              p.1 l.1 (continued empty_state p.2) st 1
              (default example_config (cs !! 1%nat)))
    as (j & c' & _ & _ & _ & _ & Hall).
  - vm_compute. reflexivity.
  - vm_compute. reflexivity.
  - vm_compute. lia.
  - vm_compute. reflexivity.
  - vm_compute. discriminate.
  - split; [vm_compute; reflexivity | exact Hall].
Defined.

(** C1, as stated, fails.  Device 0 is initialized, its kernel fails with
    status 5 in the first tick, and [main] returns 5 without one event of
    the release: the context of device 0 exists and is not destroyed, its
    buffers are not freed, and no "deinitialized" line is printed. *)
Lemma no_release_after_failed_step :
  (main small_globals (example_world 1 kernel_fails) (in_order 1)).2 = 5 /\
  In (Call (cuCtxCreate 0) 0)
    (main small_globals (example_world 1 kernel_fails) (in_order 1)).1 /\
  In (Call (cudaMalloc_in_dev 0) 0)
    (main small_globals (example_world 1 kernel_fails) (in_order 1)).1 /\
  In (Call (cudaMalloc_out_dev 0) 0)
    (main small_globals (example_world 1 kernel_fails) (in_order 1)).1 /\
  In (Stdout ("Device %d initialized" ++ nl)%string [AInt 0])
    (main small_globals (example_world 1 kernel_fails) (in_order 1)).1 /\
  List.filter is_release
    (main small_globals (example_world 1 kernel_fails) (in_order 1)).1 = [].
Proof.
  vm_compute. repeat split; repeat (try (left; reflexivity); right).
Qed.

(** ** The host pointers *)

Lemma last_cpu_out_app t1 t2 :
  last_cpu_out (t1 ++ t2) =
    match last_cpu_out t2 with Some p => Some p | None => last_cpu_out t1 end.
Proof.
  induction t1 as [| e t1 IH]; simpl.
  - destruct (last_cpu_out t2); reflexivity.
  - rewrite IH. destruct (last_cpu_out t2); reflexivity.
Qed.

Lemma last_cpu_out_none t :
  forallb (fun e => negb (is_cpu_call e)) t = true -> last_cpu_out t = None.
Proof.
  induction t as [| e t IH]; simpl; [reflexivity |].
  intros [He Ht]%andb_true_iff. rewrite (IH Ht).
  destruct e as [[] | | | |]; simpl in *; try reflexivity; discriminate.
Qed.

Lemma filter_none (Q : event -> bool) t :
  forallb (fun e => negb (Q e)) t = true -> List.filter Q t = [].
Proof.
  induction t as [| e t IH]; simpl; [reflexivity |].
  intros [He Ht]%andb_true_iff. apply negb_true_iff in He. rewrite He. auto.
Qed.

Lemma forallb_weaken (Q Q' : event -> bool) t :
  (forall e, Q e = true -> Q' e = true) -> forallb Q t = true -> forallb Q' t = true.
Proof.
  intros HQ. induction t as [| e t IH]; simpl; [reflexivity |].
  intros [He Ht]%andb_true_iff. rewrite (HQ e He), (IH Ht). reflexivity.
Qed.

Lemma filter_all (Q : event -> bool) t :
  forallb Q t = true -> List.filter Q t = t.
Proof.
  induction t as [| e t IH]; simpl; [reflexivity |].
  intros [He Ht]%andb_true_iff. rewrite He, IH; auto.
Qed.

Lemma foldM_invariant {A S} (I : S -> Prop) (f : S -> A -> M S) l s t s' :
  (forall s a t s', I s -> f s a = (t, Continue s') -> I s') ->
  I s -> foldM f l s = (t, Continue s') -> I s'.
Proof.
  intros Hf. revert s t. induction l as [| a l IH]; intros s t Hs; simpl.
  - intros [= _ <-]. assumption.
  - intros (t1 & s1 & t2 & H1 & H2 & _)%bind_inv_Continue. eauto.
Qed.

Lemma fini_config_pointers w np st i t st' :
  fini_config w np st i = (t, Continue st') ->
  control st' = control st /\ input st' = input st /\ configs st' = configs st.
Proof.
  unfold fini_config. destruct (configs st !! i) as [c |]; [| intros [= _ <-]; auto].
  unfold checked.
  repeat (match goal with |- context [w_ret w ?f 0 =? 0] => destruct (w_ret w f 0 =? 0) end;
          simpl; try discriminate).
  intros [= _ <-]. auto.
Qed.

Lemma fan_out_no_cpu w k order cs :
  forallb (fun e => negb (is_cpu_call e)) (fan_out w k order cs).1 = true.
Proof.
  apply (closed_fan_out _ (events_nil _) (events_app _)). intros c.
  unfold worker, thread_func.
  repeat (match goal with |- context [negb (?x =? 0)] => destruct (x =? 0) end; simpl);
    reflexivity.
Qed.

(** The tick loop, when it runs to its end: [input] then points to the tile
    the last call of [pattern2d_cpu] has written. *)
Lemma step_loop_last_written w sched np n k st t st' :
  step_loop w sched np n k st = (t, Continue st') ->
  (n = 0%nat /\ t = [] /\ st' = st) \/
  ((0 < n)%nat /\ last_cpu_out t = Some (input st')).
Proof.
  revert k st t. induction n as [| n IH]; intros k st t; simpl.
  { intros [= <- <-]. left. auto. }
  intros (t1 & st1 & t2 & H1 & H2 & ->)%bind_inv_Continue. right. split; [lia |].
  rewrite last_cpu_out_app.
  destruct (IH _ _ _ H2) as [(-> & -> & ->) | (_ & ->)]; [| reflexivity]. simpl.
  rewrite tick_eq in H1. simpl in H1.
  destruct (first_nonzero 0 (fan_out w k (sched k) (configs st)).2) as [[j s] |];
    [discriminate |].
  injection H1 as <- <-. rewrite last_cpu_out_app. reflexivity.
Qed.

(** C4.  In a run that reaches the comparison, the tick loop is followed
    by one swap of [control] and [input] and by no other assignment to
    them: the comparison is made against the tile [input] pointed to when
    the loop was left.  After one tick or more this is the tile the last
    call of [pattern2d_cpu] has written. *)
Theorem control_is_last_written
    (g : globals) (w : World) (sched : nat -> list nat) (t : list event) (st : state) :
  main_run g w sched = (t, Continue st) ->
  exists st1,
    after_loop g w sched = Continue st1 /\
    control st = input st1 /\
    input st = control st1 /\
    List.filter is_comparison t =
      map (validate g (np_of g) st) (seq 0 (w_ndevices w)) /\
    (0 < nticks g -> last_cpu_out t = Some (control st)).
Proof.
  unfold main_run.
  intros (t0 & st0 & t' & H0 & H & ->)%bind_inv_Continue.
  apply bind_inv_Continue in H as (t1 & st1 & t2 & H1 & H2 & ->).
  exists st1. unfold after_loop. rewrite H0, H1. split; [reflexivity |].
  unfold epilogue in H2.
  apply bind_inv_Continue in H2 as (t3 & st2 & t4 & H3 & H4 & ->).
  assert (Hst : st2 = st).
  { simpl in H4. injection H4 as _ H4. exact H4. }
  subst st2.
  assert (Hp : control st = input st1 /\ input st = control st1).
  { refine (foldM_invariant
              (fun s => control s = input st1 /\ input s = control st1)
              _ _ _ _ _ _ _ H3); [| simpl; auto].
    intros s a ta s' [Hc Hi] Hf.
    apply fini_config_pointers in Hf as (-> & -> & _). auto. }
  destruct Hp as [Hc Hi]. repeat split; try assumption.
  - simpl in H4. injection H4 as <-.
    rewrite !List.filter_app.
    pose proof (prologue_no_release g w) as Hp0. rewrite H0 in Hp0. simpl in Hp0.
    pose proof (step_loop_no_release w sched (np_of g) (Z.to_nat (nticks g)) 0 st0) as Hp1.
    rewrite H1 in Hp1. simpl in Hp1.
    rewrite (filter_none is_comparison t0), (filter_none is_comparison t1),
      (filter_none is_comparison t3).
    + simpl. rewrite filter_all; [apply app_nil_r |].
      apply events_map. intros i. unfold validate.
      destruct (abs_max_diff g (inout st) (control st) (i * np_of g)) as [[? ?] ?].
      reflexivity.
    + pose proof (events_foldM (fun e => negb (is_comparison e))
                    (fini_config w (np_of g)) (seq 0 (w_ndevices w)) (swap_host st1)) as Hp3.
      rewrite H3 in Hp3. apply Hp3. intros s a. unfold fini_config.
      destruct (configs s !! a); events.
    + eapply forallb_weaken; [| exact Hp1]. intros e. simpl.
      destruct (is_release e), (is_comparison e); simpl; auto.
    + eapply forallb_weaken; [| exact Hp0]. intros e. simpl.
      destruct (is_release e), (is_comparison e); simpl; auto.
  - intros Hn.
    assert (Ht3 : last_cpu_out (t3 ++ t4) = None).
    { apply last_cpu_out_none. apply events_app.
      - pose proof (events_foldM (fun e => negb (is_cpu_call e))
                      (fini_config w (np_of g)) (seq 0 (w_ndevices w)) (swap_host st1)) as Hp3.
        rewrite H3 in Hp3. apply Hp3. intros s a. unfold fini_config.
        destruct (configs s !! a); events.
      - simpl in H4. injection H4 as <-. apply events_app; [| reflexivity].
        apply events_map. intros i. unfold validate.
        destruct (abs_max_diff g (inout st) (control st) (i * np_of g)) as [[? ?] ?].
        reflexivity. }
    rewrite (last_cpu_out_app t0), (last_cpu_out_app t1), Ht3.
    destruct (step_loop_last_written _ _ _ _ _ _ _ _ H1) as [(Hz & _) | (_ & ->)];
      [lia | congruence].
Qed.

Lemma control_is_last_written_witness :
  last_cpu_out (main_run small_globals (example_world 2 all_succeed) (in_order 2)).1 =
    Some 8%nat.
Proof.
  pose (r := main_run small_globals (example_world 2 all_succeed) (in_order 2)).
  destruct (control_is_last_written small_globals (example_world 2 all_succeed)
              (in_order 2) r.1 (continued empty_state r.2))
    as (st1 & _ & _ & _ & _ & H).
  - vm_compute. reflexivity.
  - refine (eq_trans (H _) _); vm_compute; reflexivity.
Defined.

(** ** The input data *)

Lemma length_seed_loop w n mem : length (seed_loop w n mem) = length mem.
Proof.
  unfold seed_loop. generalize (seq 0 n) as l. intros l. revert mem.
  induction l as [| i l IH]; intros mem; simpl; [reflexivity |].
  rewrite IH. apply length_insert.
Qed.

Lemma lookup_seed_loop w n mem i :
  (n <= length mem)%nat ->
  seed_loop w n mem !! i = if decide (i < n)%nat then Some (seed_cell w i) else mem !! i.
Proof.
  unfold seed_loop. induction n as [| n IH]; intros Hn.
  { simpl. destruct (decide (i < 0)%nat); [lia | reflexivity]. }
  rewrite seq_S, foldl_app. simpl.
  destruct (decide (i = n)) as [-> | Hne].
  - rewrite list_lookup_insert_eq.
    + destruct (decide (n < S n)%nat); [reflexivity | lia].
    + fold (seed_loop w n mem). rewrite length_seed_loop. lia.
  - rewrite list_lookup_insert_ne by done. rewrite IH by lia.
    destruct (decide (i < n)%nat), (decide (i < S n)%nat); try reflexivity; lia.
Qed.

Lemma length_memcpy dst src n mem : length (memcpy dst src n mem) = length mem.
Proof. apply length_inserts. Qed.

Lemma lookup_memcpy dst n mem i :
  (dst + n <= length mem)%nat ->
  memcpy dst 0 n mem !! i =
    if decide (dst <= i < dst + n)%nat then mem !! (i - dst)%nat else mem !! i.
Proof.
  intros Hlen. unfold memcpy. rewrite drop_0.
  assert (Hl : length (take n mem) = n) by (rewrite length_take; lia).
  destruct (decide (dst <= i < dst + n)%nat) as [Hi | Hi].
  - rewrite list_lookup_inserts by (rewrite ?Hl; lia).
    apply lookup_take_lt. lia.
  - destruct (decide (i < dst)%nat).
    + apply list_lookup_inserts_lt. lia.
    + apply list_lookup_inserts_ge. rewrite Hl. lia.
Qed.

Lemma length_copy_loop m np mem :
  length (foldl (fun mem i => memcpy (np * (i + 1)) 0 np mem) mem (seq 0 m)) = length mem.
Proof.
  induction m as [| m IH]; [reflexivity |].
  rewrite seq_S, foldl_app. simpl. rewrite length_memcpy. exact IH.
Qed.

(** After [m] copies the tiles 0 to [m] hold what tile 0 held, and the
    rest of the block is as it was. *)
Lemma lookup_copy_loop m np mem i :
  ((m + 1) * np <= length mem)%nat ->
  foldl (fun mem i => memcpy (np * (i + 1)) 0 np mem) mem (seq 0 m) !! i =
    if decide (i < (m + 1) * np)%nat then mem !! (i mod np)%nat else mem !! i.
Proof.
  revert i. induction m as [| m IH]; intros i Hlen.
  { simpl. destruct (decide (i < np + 0)%nat) as [Hi | Hi]; [| reflexivity].
    rewrite Nat.mod_small by lia. reflexivity. }
  rewrite seq_S, foldl_app. cbn [foldl Nat.add].
  rewrite lookup_memcpy by (rewrite length_copy_loop; lia).
  destruct (decide (np * (m + 1) <= i < np * (m + 1) + np)%nat) as [Hi | Hi].
  - rewrite IH by lia. repeat case_decide; try lia; try nia.
    f_equal. symmetry.
    replace (i mod np)%nat with (((i - np * (m + 1)) + (m + 1) * np) mod np)%nat
      by (f_equal; lia).
    apply Nat.Div0.mod_add.
  - rewrite IH by lia. repeat case_decide; try reflexivity; lia.
Qed.

Lemma length_init_inout w D np : length (init_inout w D np) = ((D + 2) * np)%nat.
Proof.
  unfold init_inout, copy_loop, malloc_inout.
  rewrite length_copy_loop, length_seed_loop, length_map, length_seq. reflexivity.
Qed.

Lemma lookup_init_inout w D np i :
  (i < (D + 2) * np)%nat ->
  init_inout w D np !! i = Some (seed_cell w (i mod np)).
Proof.
  intros Hi. unfold init_inout, copy_loop.
  assert (Hlen : length (malloc_inout w D np) = ((D + 2) * np)%nat).
  { unfold malloc_inout. rewrite length_map, length_seq. reflexivity. }
  assert (Hnp : (0 < np)%nat) by (destruct np; lia).
  rewrite lookup_copy_loop by (rewrite length_seed_loop, Hlen; lia).
  destruct (decide (i < (D + 1 + 1) * np)%nat); [| lia].
  rewrite lookup_seed_loop by (rewrite Hlen; nia).
  pose proof (Nat.mod_upper_bound i np).
  destruct (decide (i mod np < np)%nat); [reflexivity | lia].
Qed.

Lemma tile_init_inout w D np tl :
  (tl <= D + 1)%nat ->
  tile (tl * np) np (init_inout w D np) = map (seed_cell w) (seq 0 np).
Proof.
  intros Htl. apply list_eq. intros i. unfold tile.
  change (map ?f ?l) with (f <$> l). rewrite list_lookup_fmap.
  destruct (decide (i < np)%nat) as [Hi | Hi].
  - rewrite lookup_take_lt, lookup_drop by lia.
    rewrite lookup_init_inout by nia.
    rewrite lookup_seq_lt by lia. simpl. do 2 f_equal.
    rewrite Nat.add_comm, Nat.Div0.mod_add. apply Nat.mod_small. lia.
  - rewrite lookup_take_ge by lia. rewrite lookup_seq_ge by lia. reflexivity.
Qed.

Lemma prologue_inout g w t0 st0 :
  prologue g w = (t0, Continue st0) ->
  inout st0 = init_inout w (w_ndevices w) (np_of g).
Proof.
  unfold prologue.
  intros (? & ? & ? & _ & H & _)%bind_inv_Continue.
  apply bind_inv_Continue in H as (? & ? & ? & _ & H & _).
  destruct (w_ndevices w =? 0)%nat; [discriminate |].
  apply bind_inv_Continue in H as (? & ? & ? & _ & H & _).
  apply bind_inv_Continue in H as (? & ? & ? & _ & H & _).
  apply bind_inv_Continue in H as (? & ? & ? & _ & H & _).
  apply bind_inv_Continue in H as (? & cs & ? & _ & H & _).
  injection H as _ <-. reflexivity.
Qed.

(** C6.  When the initialization is over, the host workspace holds
    [(D + 2) * nx * ny] cells and each of its tiles 0 to [D + 1] is the
    seeded tile 0, cell for cell. *)
Theorem replication_invariant
    (g : globals) (w : World) (t0 : list event) (st0 : state) (tl : nat) :
  prologue g w = (t0, Continue st0) ->
  (tl <= w_ndevices w + 1)%nat ->
  length (inout st0) = ((w_ndevices w + 2) * np_of g)%nat /\
  tile 0 (np_of g) (inout st0) = map (seed_cell w) (seq 0 (np_of g)) /\
  tile (tl * np_of g) (np_of g) (inout st0) = tile 0 (np_of g) (inout st0).
Proof.
  intros H0 Htl. rewrite (prologue_inout _ _ _ _ H0).
  split; [apply length_init_inout |].
  pose proof (tile_init_inout w (w_ndevices w) (np_of g) 0 ltac:(lia)) as Hz.
  simpl in Hz. split; [exact Hz |].
  rewrite Hz. apply tile_init_inout. exact Htl.
Qed.

Lemma replication_invariant_witness :
  let st0 := continued empty_state (prologue small_globals (example_world 2 all_succeed)).2 in
  tile (3 * 4) 4 (inout st0) = tile 0 4 (inout st0).
Proof.
  pose (p := prologue small_globals (example_world 2 all_succeed)).
  destruct (replication_invariant small_globals (example_world 2 all_succeed)
              p.1 (continued empty_state p.2) 3) as (_ & _ & H).
  - vm_compute. reflexivity.
  - vm_compute. lia.
  - exact H.
Defined.

(** ** The order of the floats *)

Lemma SFltb_key x y :
  is_nan x = false -> is_nan y = false ->
  (SFltb x y = true <-> key_lt (float_key x) (float_key y)).
Proof.
  unfold SFltb, SFcompare, key_lt.
  destruct x as [[] | [] | | [] mx ex], y as [[] | [] | | [] my ey];
    simpl; intros Hx Hy; try discriminate;
    try (split; [intros; lia | intros; reflexivity]);
    try (split; [discriminate | intros; lia]);
    change (Pos.compare_cont Eq ?a ?b) with (Pos.compare a b);
    destruct (Z.compare_spec ex ey); destruct (Pos.compare_spec mx my); simpl;
    try (split; [intros; lia | intros; reflexivity]);
    try (split; [discriminate | intros; lia]).
Qed.

Lemma float_gt_irrefl x : float_gt x x = false.
Proof.
  unfold float_gt, SFltb, SFcompare.
  destruct x as [[] | [] | | [] m e]; simpl; try reflexivity;
    rewrite Z.compare_refl; change (Pos.compare_cont Eq m m) with (Pos.compare m m);
    rewrite Pos.compare_refl; reflexivity.
Qed.

Lemma float_gt_nan_l x y : float_gt x y = true -> is_nan x = false /\ is_nan y = false.
Proof.
  unfold float_gt, SFltb, SFcompare.
  destruct x as [? | ? | | ? ? ?], y as [? | ? | | ? ? ?]; simpl; try discriminate; auto.
Qed.

(** [x <= m < d] gives [x < d]. *)
Lemma float_le_lt_trans x m d :
  is_nan x = false ->
  float_gt x m = false -> float_gt d m = true -> float_gt d x = true.
Proof.
  intros Hx Hxm Hdm. destruct (float_gt_nan_l _ _ Hdm) as [Hd Hm].
  unfold float_gt in *.
  apply (SFltb_key m d Hm Hd) in Hdm. apply (SFltb_key x d Hx Hd).
  assert (Hn : ~ key_lt (float_key m) (float_key x)).
  { intros H. apply (SFltb_key m x Hm Hx) in H. congruence. }
  unfold key_lt in *. lia.
Qed.

(** [x < d] gives [not (d < x)]. *)
Lemma float_gt_asym x d : float_gt d x = true -> float_gt x d = false.
Proof.
  intros H. destruct (float_gt_nan_l _ _ H) as [Hd Hx]. unfold float_gt in *.
  apply (SFltb_key x d Hx Hd) in H.
  destruct (SFltb d x) eqn:E; [| reflexivity].
  apply (SFltb_key d x Hd Hx) in E. unfold key_lt in *. lia.
Qed.

Lemma float_not_gt_le x m :
  is_nan x = false -> is_nan m = false -> float_gt x m = false -> SFleb x m = true.
Proof.
  unfold float_gt, SFltb, SFleb. intros Hx Hm.
  assert (Hc : exists c, SFcompare x m = Some c /\ SFcompare m x = Some (CompOpp c)).
  { unfold SFcompare.
    destruct x as [[] | [] | | [] mx ex], m as [[] | [] | | [] my ey];
      simpl in *; try discriminate; eauto;
      change (Pos.compare_cont Eq ?a ?b) with (Pos.compare a b);
      rewrite (Z.compare_antisym ex ey), (Pos.compare_antisym mx my);
      destruct (ex ?= ey); simpl; eauto;
      destruct (mx ?= my)%positive; simpl; eauto. }
  destruct Hc as (c & -> & ->). destruct c; simpl; auto; discriminate.
Qed.

(** ** The comparison *)

Lemma int_wrap_small z : - 2 ^ 31 <= z < 2 ^ 31 -> int_wrap z = z.
Proof. intros H. unfold int_wrap. rewrite Z.mod_small; lia. Qed.

Lemma cell_index_exact nx ny i j :
  nx * ny < 2 ^ 31 -> 0 <= i < nx -> 0 <= j < ny -> cell_index nx i j = i + j * nx.
Proof.
  intros Hb Hi Hj. unfold cell_index.
  assert (0 <= j * nx) by nia. assert (i + j * nx < nx * ny) by nia.
  rewrite (int_wrap_small (j * nx)) by lia. apply int_wrap_small. lia.
Qed.

Section Comparison.
Variable g : globals.
Variable mem : list spec_float.
Variables control p : nat.
Hypothesis nx_pos : 0 < nx g.
Hypothesis ny_pos : 0 < ny g.
Hypothesis in_int : nx g * ny g < 2 ^ 31.
Hypothesis no_nan :
  forall n, 0 <= n < nx g * ny g -> is_nan (diff_at mem control p n) = false.

Lemma compare_cell_running_max acc i j :
  0 <= i < nx g -> 0 <= j < ny g ->
  running_max g mem control p (i + j * nx g) acc ->
  running_max g mem control p (i + j * nx g + 1) (compare_cell g mem control p j acc i).
Proof.
  intros Hi Hj. destruct acc as [[m mi] mj]. unfold running_max, compare_cell. simpl.
  intros (Hmi & Hmj & Hm & Hle & Hlt).
  rewrite (cell_index_exact _ _ _ _ in_int Hi Hj).
  fold (diff_at mem control p (i + j * nx g)).
  set (d := diff_at mem control p (i + j * nx g)).
  assert (Hd : is_nan d = false) by (apply no_nan; nia).
  destruct (float_gt d m) eqn:E; simpl.
  - repeat split; try lia.
    + intros n Hn. destruct (decide (n = i + j * nx g)) as [-> | Hne].
      * apply float_gt_irrefl.
      * apply float_gt_asym. apply (float_le_lt_trans _ m); [apply no_nan; nia | | exact E].
        apply Hle. lia.
    + intros n Hn. apply (float_le_lt_trans _ m); [apply no_nan; nia | | exact E].
      apply Hle. lia.
  - repeat split; try lia; try assumption.
    intros n Hn. destruct (decide (n = i + j * nx g)) as [-> | Hne]; [exact E |].
    apply Hle. lia.
Qed.

Lemma compare_row_prefix acc j (I : nat) :
  0 <= j < ny g -> Z.of_nat I <= nx g ->
  running_max g mem control p (j * nx g) acc ->
  running_max g mem control p (Z.of_nat I + j * nx g)
    (foldl (compare_cell g mem control p j) acc (seqZ 0 (Z.of_nat I))).
Proof.
  intros Hj. induction I as [| I IH]; intros HI Hacc; [exact Hacc |].
  rewrite seqZ_S, foldl_app. simpl.
  replace (Z.of_nat (S I) + j * nx g) with (Z.of_nat I + j * nx g + 1) by lia.
  apply compare_cell_running_max; [lia | assumption |]. apply IH; [lia | assumption].
Qed.

Lemma compare_row_running_max acc j :
  0 <= j < ny g ->
  running_max g mem control p (j * nx g) acc ->
  running_max g mem control p ((j + 1) * nx g) (compare_row g mem control p acc j).
Proof.
  intros Hj Hacc. unfold compare_row.
  pose proof (compare_row_prefix acc j (Z.to_nat (nx g)) Hj ltac:(lia) Hacc) as H.
  rewrite Z2Nat.id in H by lia.
  replace ((j + 1) * nx g) with (nx g + j * nx g) by lia. exact H.
Qed.

Lemma compare_rows_prefix (J : nat) :
  Z.of_nat J <= ny g ->
  running_max g mem control p (Z.of_nat J * nx g)
    (foldl (compare_row g mem control p)
       (fabs_diff (load mem control 0) (load mem p 0), 0, 0) (seqZ 0 (Z.of_nat J))).
Proof.
  induction J as [| J IH]; intros HJ.
  - simpl. unfold running_max. simpl. repeat split; try lia; intros n Hn; lia.
  - rewrite seqZ_S, foldl_app. simpl. rewrite Z.add_0_l.
    replace (Z.of_nat (S J) * nx g) with ((Z.of_nat J + 1) * nx g) by lia.
    apply compare_row_running_max; [lia |]. apply IH. lia.
Qed.

Lemma abs_max_diff_running_max :
  running_max g mem control p (nx g * ny g) (abs_max_diff g mem control p).
Proof.
  unfold abs_max_diff.
  pose proof (compare_rows_prefix (Z.to_nat (ny g)) ltac:(lia)) as H.
  rewrite Z2Nat.id in H by lia.
  replace (nx g * ny g) with (ny g * nx g) by lia. exact H.
Qed.
End Comparison.

(** C5.  For the tile of device [idevice] the comparison reports a
    difference [maxdiff] and coordinates [(maxi, maxj)] in the grid such
    that [maxdiff] is the absolute difference between the control tile and
    the device tile at [(maxi, maxj)], no cell of the grid has a larger one,
    and every cell that comes before [(maxi, maxj)] in row-major order has a
    smaller one.  The differences are compared as floats, none being a NaN;
    the grid is not empty and [nx * ny] fits an [int]. *)
Theorem comparison_reports_first_maximum
    (g : globals) (np : nat) (st : state) (idevice : nat) :
  0 < nx g -> 0 < ny g -> nx g * ny g < 2 ^ 31 ->
  (forall i j, 0 <= i < nx g -> 0 <= j < ny g ->
     is_nan (diff_at (inout st) (control st) (idevice * np) (i + j * nx g)) = false) ->
  exists maxdiff maxi maxj,
    validate g np st idevice =
      Stdout ("Device %d result abs max diff = %f @ (%d,%d)" ++ nl)%string
        [AInt (Z.of_nat idevice); AFloat maxdiff; AInt maxi; AInt maxj] /\
    0 <= maxi < nx g /\ 0 <= maxj < ny g /\
    maxdiff = diff_at (inout st) (control st) (idevice * np) (maxi + maxj * nx g) /\
    (forall i j, 0 <= i < nx g -> 0 <= j < ny g ->
       SFleb (diff_at (inout st) (control st) (idevice * np) (i + j * nx g)) maxdiff = true) /\
    (forall i j, 0 <= i < nx g -> 0 <= j < ny g ->
       i + j * nx g < maxi + maxj * nx g ->
       SFltb (diff_at (inout st) (control st) (idevice * np) (i + j * nx g)) maxdiff = true).
Proof.
  intros Hx Hy Hb Hnan.
  assert (Hnan' : forall n, 0 <= n < nx g * ny g ->
            is_nan (diff_at (inout st) (control st) (idevice * np) n) = false).
  { intros n Hn.
    replace n with (n mod nx g + (n / nx g) * nx g)
      by (rewrite (Z.div_mod n (nx g)) at 3; lia).
    apply Hnan; [apply Z.mod_pos_bound; lia |].
    split; [apply Z.div_pos; lia | apply Z.div_lt_upper_bound; lia]. }
  pose proof (abs_max_diff_running_max g (inout st) (control st) (idevice * np)
                Hx Hy Hb Hnan') as H.
  unfold validate.
  destruct (abs_max_diff g (inout st) (control st) (idevice * np)) as [[m mi] mj].
  unfold running_max in H. simpl in H. destruct H as (Hmi & Hmj & Hm & Hle & Hlt).
  exists m, mi, mj. repeat split; try lia; try assumption.
  - intros i j Hi Hj. apply float_not_gt_le.
    + apply Hnan; assumption.
    + rewrite Hm. apply Hnan; assumption.
    + apply Hle. nia.
  - intros i j Hi Hj Hlt'. apply Hlt. nia.
Qed.

Lemma comparison_reports_first_maximum_witness :
  exists maxdiff maxi maxj,
    validate small_globals 4
      {| inout := example_mem; configs := []; control := 4; input := 8 |} 0 =
      Stdout ("Device %d result abs max diff = %f @ (%d,%d)" ++ nl)%string
        [AInt 0; AFloat maxdiff; AInt maxi; AInt maxj] /\
    0 <= maxi < 2 /\ 0 <= maxj < 2.
Proof.
  destruct (comparison_reports_first_maximum small_globals 4
              {| inout := example_mem; configs := []; control := 4; input := 8 |} 0)
    as (m & mi & mj & Hv & Hi & Hj & _).
  - reflexivity.
  - reflexivity.
  - reflexivity.
  - intros i j Hi Hj. simpl in Hi, Hj.
    assert (Hi' : i = 0 \/ i = 1) by lia. assert (Hj' : j = 0 \/ j = 1) by lia.
    destruct Hi' as [-> | ->], Hj' as [-> | ->]; reflexivity.
  - exists m, mi, mj. split; [exact Hv |]. split; [exact Hi | exact Hj].
Defined.

(** C5, as stated, fails.  In the first pair of tiles the control tile and
    the tile of the device differ by a NaN in the cell (0,0) and by 1 in the
    cell (1,0).  The comparison reports the NaN at (0,0), every later
    difference failing the test [diff > maxdiff] against it; the NaN is not
    the maximum of the differences, the difference 1 not being below or
    equal to it, and no value reported for these tiles is above all the
    differences.  In the second pair the NaN is the difference in the cell
    (1,0): the comparison passes over it and reports the 1 of the cell
    (0,1). *)
Lemma nan_difference_hides_the_maximum :
  (validate small_globals 4
     {| inout := nan_mem; configs := []; control := 4; input := 4 |} 0 =
     Stdout ("Device %d result abs max diff = %f @ (%d,%d)" ++ nl)%string
       [AInt 0; AFloat S754_nan; AInt 0; AInt 0] /\
   diff_at nan_mem 4 0 (1 + 0 * 2) = float_of_int 1 /\
   ~ (exists maxdiff maxi maxj,
        validate small_globals 4
          {| inout := nan_mem; configs := []; control := 4; input := 4 |} 0 =
          Stdout ("Device %d result abs max diff = %f @ (%d,%d)" ++ nl)%string
            [AInt 0; AFloat maxdiff; AInt maxi; AInt maxj] /\
        forall i j, 0 <= i < 2 -> 0 <= j < 2 ->
          SFleb (diff_at nan_mem 4 0 (i + j * 2)) maxdiff = true)) /\
  (validate small_globals 4
     {| inout := nan_later_mem; configs := []; control := 4; input := 4 |} 0 =
     Stdout ("Device %d result abs max diff = %f @ (%d,%d)" ++ nl)%string
       [AInt 0; AFloat (float_of_int 1); AInt 0; AInt 1] /\
   diff_at nan_later_mem 4 0 (1 + 0 * 2) = S754_nan /\
   SFleb (diff_at nan_later_mem 4 0 (1 + 0 * 2)) (float_of_int 1) = false).
Proof.
  split; [| vm_compute; repeat split; reflexivity].
  split; [vm_compute; reflexivity |]. split; [vm_compute; reflexivity |].
  intros (m & mi & mj & Hv & Hle). vm_compute in Hv. injection Hv as <- <- <-.
  specialize (Hle 1 0 ltac:(lia) ltac:(lia)). vm_compute in Hle. discriminate Hle.
Qed.

(** ** The exit status *)

Lemma first_failure_app t1 t2 :
  first_failure (t1 ++ t2) =
    match first_failure t1 with Some s => Some s | None => first_failure t2 end.
Proof.
  induction t1 as [| e t1 IH]; simpl; [reflexivity |].
  destruct (is_failure e) eqn:E; [| exact IH].
  destruct e as [f s | | | |]; simpl in E; try discriminate. reflexivity.
Qed.

Lemma agrees_bind {A B} (m : M A) (f : A -> M B) :
  agrees m -> (forall a, agrees (f a)) -> agrees (bind m f).
Proof.
  unfold agrees. intros Hm Hf. destruct m as [t [s | a]]; simpl in *; [assumption |].
  specialize (Hf a). destruct (f a) as [t' r]. simpl in *.
  rewrite first_failure_app, Hm. exact Hf.
Qed.

Lemma agrees_ret {A} (a : A) : agrees (ret a).
Proof. reflexivity. Qed.

Lemma agrees_emit e : is_failure e = false -> agrees (emit e).
Proof. intros H. unfold agrees. simpl. rewrite H. reflexivity. Qed.

Lemma agrees_checked w f n fmt args :
  is_checked f = true -> agrees (checked w f n fmt args).
Proof.
  intros Hf. unfold agrees, checked.
  destruct (Z.eqb_spec (w_ret w f n) 0) as [Hz | Hz]; simpl.
  - rewrite Hz, Hf. reflexivity.
  - apply Z.eqb_neq in Hz. rewrite Hf, Hz. reflexivity.
Qed.

Lemma agrees_mapM {A B} (f : A -> M B) (l : list A) :
  (forall a, agrees (f a)) -> agrees (mapM f l).
Proof.
  intros Hf. induction l as [| a l IH]; simpl; [apply agrees_ret |].
  apply agrees_bind; [apply Hf |]. intros b.
  apply agrees_bind; [assumption |]. intros bs. apply agrees_ret.
Qed.

Lemma agrees_foldM {A S} (f : S -> A -> M S) (l : list A) (s : S) :
  (forall s a, agrees (f s a)) -> agrees (foldM f l s).
Proof.
  intros Hf. revert s. induction l as [| a l IH]; intros s; simpl; [apply agrees_ret |].
  apply agrees_bind; [apply Hf | apply IH].
Qed.

Ltac agreement :=
  repeat first
    [ apply agrees_checked; reflexivity
    | apply agrees_emit; reflexivity
    | apply agrees_ret
    | apply agrees_mapM; intros ?
    | apply agrees_foldM; intros ? ?
    | apply agrees_bind; [| intros ?] ].

Lemma prologue_agrees g w : agrees (prologue g w).
Proof.
  unfold prologue. agreement.
  destruct (w_ndevices w =? 0)%nat; [reflexivity |]. unfold init_config. agreement.
Qed.

Lemma epilogue_agrees g w st : agrees (epilogue g w st).
Proof.
  unfold epilogue. apply agrees_bind.
  { apply agrees_foldM. intros s i. unfold fini_config.
    destruct (configs s !! i); agreement. }
  intros st'. apply agrees_bind; [| intros _; agreement].
  unfold agrees. simpl. generalize (seq 0 (w_ndevices w)) as l.
  induction l as [| i l IH]; simpl; [reflexivity |].
  unfold validate at 1.
  destruct (abs_max_diff g (inout st') (control st') (i * np_of g)) as [[? ?] ?].
  simpl. exact IH.
Qed.

(** The trace of [thread_func] holds a failure exactly when it fails, and
    then the status it returns. *)
Lemma worker_first_failure w k c :
  first_failure (worker w k c).1 =
    if config_t.status (worker w k c).2 =? 0 then None
    else Some (config_t.status (worker w k c).2).
Proof.
  unfold worker, thread_func.
  repeat (match goal with
          | |- context [negb (?x =? 0)] => destruct (Z.eqb_spec x 0) as [-> | ?]
          end; simpl);
    try reflexivity;
    match goal with
    | H : ?x <> 0 |- _ => apply Z.eqb_neq in H; rewrite H; reflexivity
    end.
Qed.

Lemma workers_first_failure w k i cs :
  first_failure (concat (map (fun c => (worker w k c).1) cs)) =
    snd <$> first_nonzero i (map (fun c => (worker w k c).2) cs).
Proof.
  revert i. induction cs as [| c cs IH]; intros i; simpl; [reflexivity |].
  rewrite first_failure_app, worker_first_failure.
  destruct (config_t.status (worker w k c).2 =? 0); [apply IH | reflexivity].
Qed.

Lemma tick_in_order_agrees w np k st :
  agrees (tick w (fun _ => seq 0 (length (configs st))) np k st).
Proof.
  rewrite tick_eq. cbv zeta.
  pose proof (workers_first_failure w k 0 (configs st)) as Hw.
  rewrite <- fan_out_in_order in Hw.
  rewrite <- (fan_out_configs w k (seq 0 (length (configs st)))) in Hw by reflexivity.
  destruct (first_nonzero 0 (fan_out w k (seq 0 (length (configs st))) (configs st)).2)
    as [[j s] |] eqn:E; unfold agrees; simpl in *.
  - apply first_nonzero_Some in E as (c & _ & _ & _ & Hne & _).
    apply Z.eqb_neq in Hne. rewrite Hne, first_failure_app, Hw. reflexivity.
  - rewrite first_failure_app, Hw. reflexivity.
Qed.

Lemma agrees_bind_strong {A B} (m : M A) (f : A -> M B) :
  agrees m -> (forall t a, m = (t, Continue a) -> agrees (f a)) -> agrees (bind m f).
Proof.
  unfold agrees. intros Hm Hf. destruct m as [t [s | a]]; simpl in *; [assumption |].
  specialize (Hf t a eq_refl). destruct (f a) as [t' r]. simpl in *.
  rewrite first_failure_app, Hm. exact Hf.
Qed.

Lemma bind_snd {A B} (m m' : M A) (f f' : A -> M B) :
  m.2 = m'.2 ->
  (forall a, m.2 = Continue a -> (f a).2 = (f' a).2) ->
  (bind m f).2 = (bind m' f').2.
Proof.
  destruct m as [t [s | a]], m' as [t' [s' | a']]; simpl; intros E Hf;
    try discriminate; [injection E as ->; reflexivity |].
  injection E as <-. specialize (Hf a eq_refl).
  destruct (f a), (f' a). exact Hf.
Qed.

Lemma mapM_length {A B} (f : A -> M B) l t bs :
  mapM f l = (t, Continue bs) -> length bs = length l.
Proof.
  revert t bs. induction l as [| a l IH]; intros t bs; simpl.
  - intros [= _ <-]. reflexivity.
  - intros (t1 & b & t2 & _ & H & _)%bind_inv_Continue.
    apply bind_inv_Continue in H as (t3 & bs' & t4 & H & [= _ <-] & _).
    simpl. f_equal. eapply IH. eassumption.
Qed.

Lemma prologue_length g w t0 st0 :
  prologue g w = (t0, Continue st0) -> length (configs st0) = w_ndevices w.
Proof.
  unfold prologue.
  intros (? & ? & ? & _ & H & _)%bind_inv_Continue.
  apply bind_inv_Continue in H as (? & ? & ? & _ & H & _).
  destruct (w_ndevices w =? 0)%nat; [discriminate |].
  apply bind_inv_Continue in H as (? & ? & ? & _ & H & _).
  apply bind_inv_Continue in H as (? & ? & ? & _ & H & _).
  apply bind_inv_Continue in H as (? & ? & ? & _ & H & _).
  apply bind_inv_Continue in H as (? & cs & ? & Hm & H & _).
  injection H as _ <-. simpl. rewrite (mapM_length _ _ _ _ Hm). apply length_seq.
Qed.

Lemma fan_out_length w k order cs : length (fan_out w k order cs).2 = length cs.
Proof.
  unfold fan_out.
  assert (G : forall acc, length (foldl (fan_step w k) acc order).2 = length acc.2);
    [| apply (G ([], cs))].
  induction order as [| i order IH]; intros acc; simpl; [reflexivity |].
  rewrite IH. unfold fan_step. destruct (acc.2 !! i) as [c |]; [| reflexivity].
  destruct (worker w k c). simpl. apply length_insert.
Qed.

Lemma tick_length w sched np k st t st' :
  tick w sched np k st = (t, Continue st') -> length (configs st') = length (configs st).
Proof.
  rewrite tick_eq. cbv zeta.
  destruct (first_nonzero 0 (fan_out w k (sched k) (configs st)).2) as [[j s] |];
    [discriminate |].
  intros [= _ <-]. simpl. apply fan_out_length.
Qed.

Lemma tick_sched_irrelevant w sched sched' np k st :
  sched k ≡ₚ seq 0 (length (configs st)) ->
  sched' k ≡ₚ seq 0 (length (configs st)) ->
  (tick w sched np k st).2 = (tick w sched' np k st).2.
Proof.
  intros H H'. rewrite !tick_eq. cbv zeta.
  rewrite (fan_out_configs w k (sched k)), (fan_out_configs w k (sched' k)) by assumption.
  destruct (first_nonzero 0 (map (fun c => (worker w k c).2) (configs st))) as [[j s] |];
    reflexivity.
Qed.

Lemma step_loop_sched_irrelevant w sched sched' np D n k st :
  (forall k, sched k ≡ₚ seq 0 D) -> (forall k, sched' k ≡ₚ seq 0 D) ->
  length (configs st) = D ->
  (step_loop w sched np n k st).2 = (step_loop w sched' np n k st).2.
Proof.
  intros H H'. revert k st. induction n as [| n IH]; intros k st Hlen; simpl;
    [reflexivity |].
  apply bind_snd.
  - apply tick_sched_irrelevant; rewrite Hlen; auto.
  - intros st' E. apply IH. rewrite <- Hlen.
    destruct (tick w sched np k st) as [t o] eqn:Et. simpl in E. subst o.
    eapply tick_length. eassumption.
Qed.

Lemma main_exit g w sched :
  (main g w sched).2 =
    match (main_run g w sched).2 with Return s => s | Continue _ => 0 end.
Proof. unfold main. destruct (main_run g w sched) as [t [s | st]]; reflexivity. Qed.

(** The status [main] returns does not depend on the order in which the
    iterations of the parallel loop run. *)
Lemma main_sched_irrelevant g w sched sched' :
  (forall k, sched k ≡ₚ seq 0 (w_ndevices w)) ->
  (forall k, sched' k ≡ₚ seq 0 (w_ndevices w)) ->
  (main g w sched).2 = (main g w sched').2.
Proof.
  intros H H'. rewrite !main_exit. unfold main_run.
  rewrite (bind_snd (prologue g w) (prologue g w)
             (fun st => st1 <- step_loop w sched (np_of g) (Z.to_nat (nticks g)) 0 st ;;
                        epilogue g w st1)
             (fun st => st1 <- step_loop w sched' (np_of g) (Z.to_nat (nticks g)) 0 st ;;
                        epilogue g w st1)); [reflexivity | reflexivity |].
  intros st0 E. apply bind_snd; [| reflexivity].
  destruct (prologue g w) as [t0 o] eqn:E0. simpl in E. subst o.
  eapply step_loop_sched_irrelevant; eauto using prologue_length.
Qed.

Lemma step_loop_in_order_agrees w np D n k st :
  length (configs st) = D -> agrees (step_loop w (in_order D) np n k st).
Proof.
  revert k st. induction n as [| n IH]; intros k st Hlen; simpl; [apply agrees_ret |].
  assert (Ht : tick w (in_order D) np k st =
               tick w (fun _ => seq 0 (length (configs st))) np k st).
  { unfold tick, in_order. rewrite Hlen. reflexivity. }
  apply agrees_bind_strong.
  - rewrite Ht. apply tick_in_order_agrees.
  - intros t st' E. apply IH. rewrite <- Hlen. eapply tick_length. eassumption.
Qed.

Lemma main_run_in_order_agrees g w : agrees (main_run g w (in_order (w_ndevices w))).
Proof.
  unfold main_run. apply agrees_bind_strong; [apply prologue_agrees |].
  intros t0 st0 E0. apply agrees_bind.
  - apply step_loop_in_order_agrees. eapply prologue_length. eassumption.
  - intros st1. apply epilogue_agrees.
Qed.

(** C3, as the code has it.  [main] returns the status of the first call
    that did not return zero, unchanged, among the calls of the CUDA driver
    and runtime and of [pattern2d_gpu], taken in program order with the
    iterations of the parallel loop in index order; it returns 0 when there
    is none, which includes the run without a device.  This holds in
    whatever order the iterations of the parallel loop run. *)
Theorem exit_status_is_first_failure
    (g : globals) (w : World) (sched : nat -> list nat) :
  (forall k, sched k ≡ₚ seq 0 (w_ndevices w)) ->
  (main g w sched).2 =
    default 0 (first_failure (main g w (in_order (w_ndevices w))).1).
Proof.
  intros H.
  rewrite (main_sched_irrelevant g w sched (in_order (w_ndevices w)) H)
    by (intros k; reflexivity).
  pose proof (main_run_in_order_agrees g w) as Ha. unfold agrees in Ha.
  unfold main. destruct (main_run g w (in_order (w_ndevices w))) as [t [s | st]];
    simpl in *; rewrite Ha; [| reflexivity].
  destruct (s =? 0) eqn:E; [| reflexivity].
  apply Z.eqb_eq in E. exact E.
Qed.

Lemma exit_status_is_first_failure_witness :
  (main small_globals (example_world 2 two_fail) reversed).2 = 5.
Proof.
  refine (eq_trans
            (exit_status_is_first_failure small_globals (example_world 2 two_fail)
               reversed _) _).
  - intros k. simpl. apply Permutation_swap.
  - vm_compute. reflexivity.
Defined.

(** C3, as stated, fails.  In the first run [pattern2d_cpu] returns 5 in the
    first tick, no other call fails, and [main] returns 0.  In the second
    run device 1 runs before device 0; in the second tick the pop of
    device 1 returns 9, then the kernel of device 0 returns 5: the first
    status of the run that is not zero is 9, and [main] returns 5. *)
Lemma exit_status_is_not_first_returned :
  (In (Call (pattern2d_cpu 8 4 1) 5)
     (main small_globals (example_world 1 cpu_fails) (in_order 1)).1 /\
   (main small_globals (example_world 1 cpu_fails) (in_order 1)).2 = 0) /\
  (first_failure (main small_globals (example_world 2 two_fail) reversed).1 = Some 9 /\
   (main small_globals (example_world 2 two_fail) reversed).2 = 5).
Proof.
  split; split; try (vm_compute; reflexivity).
  vm_compute. repeat (try (left; reflexivity); right).
Qed.

(** ** The lines on stderr *)

Lemma well_reported_app t1 t2 :
  well_reported t1 -> well_reported t2 -> well_reported (t1 ++ t2).
Proof.
  intros H1 H2. remember (length t1) as n eqn:Hn.
  assert (Hle : (length t1 <= n)%nat) by lia. clear Hn.
  revert t1 H1 Hle. induction n as [| n IH]; intros t1 H1 Hle.
  - destruct t1; [exact H2 | simpl in Hle; lia].
  - destruct t1 as [| e rest]; [exact H2 |]. simpl in *.
    destruct (is_failure e).
    + destruct e as [f s | | | |]; try contradiction.
      destruct rest as [| e' rest']; [contradiction |]. simpl in *.
      destruct H1 as [Hr H1]. split; [exact Hr |]. apply IH; [assumption | lia].
    + apply IH; [assumption | lia].
Qed.

Lemma reported_nil : reported [].
Proof. split; [exact I | reflexivity]. Qed.

Lemma reported_app t1 t2 : reported t1 -> reported t2 -> reported (t1 ++ t2).
Proof.
  unfold reported, stderr_of, failures, joins. intros [H1 E1] [H2 E2]. split.
  - apply well_reported_app; assumption.
  - rewrite !List.filter_app, !length_app. lia.
Qed.

Lemma reported_bind {A B} (m : M A) (f : A -> M B) :
  reported m.1 -> (forall a, reported (f a).1) -> reported (bind m f).1.
Proof. apply (closed_bind reported reported_app). Qed.

Lemma reported_checked w f n fmt args :
  is_checked f = true ->
  (forall s, reports f s (eprintf fmt (args ++ [AInt s]))) ->
  is_join_line (Stderr fmt []) = false ->
  reported (checked w f n fmt args).1.
Proof.
  intros Hf Hr Hj. unfold checked, reported, stderr_of, failures, joins.
  destruct (Z.eqb_spec (w_ret w f n) 0) as [Hz | Hz]; simpl.
  - rewrite Hz, Hf. simpl. auto.
  - apply Z.eqb_neq in Hz. rewrite Hf, Hz. simpl in *. rewrite Hj. simpl.
    split; [| reflexivity]. split; [apply Hr | exact I].
Qed.

Lemma reported_quiet t :
  forallb (fun e => negb (is_failure e) && negb (is_stderr e)) t = true -> reported t.
Proof.
  unfold reported, stderr_of, failures, joins.
  induction t as [| e t IH]; simpl; [auto |].
  intros [[He1 He2]%andb_true_iff Ht]%andb_true_iff.
  apply negb_true_iff in He1, He2. rewrite He1, He2.
  assert (Hj : is_join_line e = false) by (destruct e; simpl in *; congruence).
  rewrite Hj. auto.
Qed.

Lemma reported_emit e :
  negb (is_failure e) && negb (is_stderr e) = true -> reported (emit e).1.
Proof. intros H. apply reported_quiet. simpl. rewrite H. reflexivity. Qed.

Ltac reporting :=
  repeat first
    [ apply reported_checked;
        [ reflexivity
        | intros ?; first [reflexivity | do 2 eexists; split; reflexivity]
        | reflexivity ]
    | apply reported_emit; reflexivity
    | apply reported_nil
    | apply (closed_mapM reported reported_nil reported_app); intros ?
    | apply (closed_foldM reported reported_nil reported_app); intros ? ?
    | apply reported_bind; [| intros ?] ].

Lemma prologue_reported g w : reported (prologue g w).1.
Proof.
  unfold prologue. reporting.
  destruct (w_ndevices w =? 0)%nat; [apply reported_nil |]. unfold init_config. reporting.
Qed.

Lemma worker_reported w k c : reported (worker w k c).1.
Proof.
  unfold worker, thread_func, reported, stderr_of, failures, joins.
  repeat (match goal with
          | |- context [negb (?x =? 0)] =>
              let E := fresh "E" in destruct (x =? 0) eqn:E
          end; simpl;
          repeat match goal with H : (_ =? 0) = _ |- _ => rewrite H end; simpl);
    repeat split.
Qed.

Lemma step_loop_reported w sched np n k st : reported (step_loop w sched np n k st).1.
Proof.
  apply (closed_step_loop reported reported_nil reported_app). clear k st. intros k st.
  apply (closed_tick reported reported_nil reported_app).
  - apply worker_reported.
  - intros st'. apply reported_quiet. reflexivity.
  - intros i cs. rewrite join_first_nonzero.
    destruct (first_nonzero i cs) as [[j s] |]; [| apply reported_nil].
    split; [exact I | reflexivity].
Qed.

Lemma epilogue_reported g w st : reported (epilogue g w st).1.
Proof.
  unfold epilogue. apply reported_bind.
  { apply (closed_foldM reported reported_nil reported_app). intros s i.
    unfold fini_config. destruct (configs s !! i); reporting. }
  intros st'. apply reported_bind; [| intros _; reporting].
  apply reported_quiet. apply events_map. intros i. unfold validate.
  destruct (abs_max_diff g (inout st') (control st') (i * np_of g)) as [[? ?] ?].
  reflexivity.
Qed.

Lemma main_trace g w sched : (main g w sched).1 = (main_run g w sched).1.
Proof. unfold main. destruct (main_run g w sched) as [t [s | st]]; reflexivity. Qed.

(** At most one line of the join. *)

Lemma joins_app t1 t2 : joins (t1 ++ t2) = (joins t1 + joins t2)%nat.
Proof. unfold joins. rewrite List.filter_app, length_app. reflexivity. Qed.

Lemma joins_none t :
  forallb (fun e => negb (is_join_line e)) t = true -> joins t = 0%nat.
Proof. intros H. unfold joins. rewrite (filter_none _ _ H). reflexivity. Qed.

Lemma prologue_joins g w : joins (prologue g w).1 = 0%nat.
Proof.
  apply joins_none. unfold prologue. events.
  destruct (w_ndevices w =? 0)%nat; [reflexivity |]. unfold init_config. events.
Qed.

Lemma epilogue_joins g w st : joins (epilogue g w st).1 = 0%nat.
Proof.
  apply joins_none. unfold epilogue. apply events_bind.
  { apply events_foldM. intros s i. unfold fini_config.
    destruct (configs s !! i); events. }
  intros st'. apply events_bind; [| intros _; events].
  apply events_map. intros i. unfold validate.
  destruct (abs_max_diff g (inout st') (control st') (i * np_of g)) as [[? ?] ?].
  reflexivity.
Qed.

Lemma fan_out_joins w k order cs : joins (fan_out w k order cs).1 = 0%nat.
Proof.
  apply joins_none.
  apply (closed_fan_out _ (events_nil _) (events_app _)). intros c.
  unfold worker, thread_func.
  repeat (match goal with |- context [negb (?x =? 0)] => destruct (x =? 0) end; simpl);
    reflexivity.
Qed.

Lemma step_loop_joins w sched np n k st :
  match (step_loop w sched np n k st).2 with
  | Continue _ => joins (step_loop w sched np n k st).1 = 0%nat
  | Return _ => joins (step_loop w sched np n k st).1 = 1%nat
  end.
Proof.
  revert k st. induction n as [| n IH]; intros k st; simpl; [reflexivity |].
  rewrite tick_eq. cbv zeta.
  destruct (first_nonzero 0 (fan_out w k (sched k) (configs st)).2) as [[j s] |]; simpl.
  - rewrite !joins_app, fan_out_joins. reflexivity.
  - specialize (IH (S k)
                  (host_section w k np
                     (set_configs (fan_out w k (sched k) (configs st)).2 st)).2).
    destruct (step_loop w sched np n (S k) _) as [t' [s' | st']]; simpl in *;
      rewrite !joins_app, fan_out_joins, IH; reflexivity.
Qed.

(** C9, as stated, fails.  In the first run the kernel of device 0 fails
    in the first tick: one call fails, and stderr holds two lines, the one
    of [thread_func] and the one of the join.  In the second run
    [cudaGetDeviceCount] fails: its line carries the status and, there
    being no device, no device index. *)
Lemma two_lines_for_one_failure :
  (failures (main small_globals (example_world 1 kernel_fails) (in_order 1)).1 = 1%nat /\
   stderr_of (main small_globals (example_world 1 kernel_fails) (in_order 1)).1 =
     [Stderr ("Cannot execute pattern 2d on device %d, status = %d" ++ nl)%string
        [AInt 0; AInt 5];
      Stderr ("Cannot execute thread function for device %d, status = %d" ++ nl)%string
        [AInt 0; AInt 5]]) /\
  stderr_of (main small_globals (example_world 1 count_fails) (in_order 1)).1 =
    [Stderr ("Cannot get the cuda device count, status = %d" ++ nl)%string [AInt 3]].
Proof. vm_compute. repeat split; reflexivity. Qed.

(** The line for a failed [cuCtxDestroy]: the status is passed to [fprintf]
    and the format has no conversion for it, so the line carries the device
    index alone. *)
Example destroy_failure_line :
  main small_globals (example_world 1 destroy_fails) (in_order 1) =
    ((main small_globals (example_world 1 destroy_fails) (in_order 1)).1, 3) /\
  stderr_of (main small_globals (example_world 1 destroy_fails) (in_order 1)).1 =
    [Stderr ("Cannot destroy context for device %d" ++ nl)%string [AInt 0]].
Proof. vm_compute. split; reflexivity. Qed.

(** ** The lines of the steps *)

Lemma stdout_of_concat (l : list (list event)) :
  stdout_of (concat l) = concat (map stdout_of l).
Proof.
  unfold stdout_of. induction l as [| t l IH]; simpl; [reflexivity |].
  rewrite List.filter_app, IH. reflexivity.
Qed.

Lemma worker_stdout w k c :
  stdout_of (worker w k c).1 =
    if (thread_func w k c).2 =? 0
    then [completed_line (config_t.idevice c) (int_wrap (config_t.step c + 1))]
    else [].
Proof.
  pose proof (thread_func_stdout w k c) as H. cbv zeta in H.
  destruct H as (_ & _ & Hok & Hfail).
  unfold worker. destruct (thread_func w k c) as [[t c'] r]. simpl in *.
  destruct (Z.eqb_spec r 0) as [Hr | Hr].
  - destruct (Hok Hr) as [-> <-]. reflexivity.
  - apply Hfail. exact Hr.
Qed.

(** C8.  [thread_func] prints the line "Device d completed step k" exactly
    when it succeeds, that is when the push, the kernel and the pop all
    return zero; [k] is then the step counter after its increment.  When it
    fails it prints nothing on stdout.  So the stdout lines of the parallel
    loop of a tick are the "completed" lines of the devices whose step
    succeeded in this tick, one each, in the order in which they ran. *)
Theorem completed_line_iff_step_succeeds (w : World) (k : nat) :
  (forall config : config_t.t,
     let d := config_t.idevice config in
     let t := (thread_func w k config).1.1 in
     let config' := (thread_func w k config).1.2 in
     let r := (thread_func w k config).2 in
     (r = 0 <->
        w_ret w (cuCtxPushCurrent_step d) k = 0 /\
        w_ret w (pattern2d_gpu d) k = 0 /\
        w_ret w (cuCtxPopCurrent_step d) k = 0) /\
     (r = 0 <-> In (completed_line d (config_t.step config')) t) /\
     (r = 0 ->
        stdout_of t = [completed_line d (config_t.step config')] /\
        config_t.step config' = int_wrap (config_t.step config + 1)) /\
     (r <> 0 -> stdout_of t = [])) /\
  (forall (order : list nat) (cs : list config_t.t),
     NoDup order ->
     stdout_of (fan_out w k order cs).1 = completed_lines w k cs order).
Proof.
  split; [apply thread_func_stdout |].
  intros order cs Hnd.
  destruct (fan_out_acc w k order Hnd [] cs) as [Ht _].
  unfold fan_out. rewrite Ht. simpl. rewrite stdout_of_concat, map_map.
  unfold completed_lines. f_equal. apply map_ext. intros i.
  destruct (cs !! i) as [c |]; simpl; [apply worker_stdout | reflexivity].
Qed.

Lemma completed_line_iff_step_succeeds_witness :
  stdout_of (fan_out (example_world 2 kernel_fails) 0 [1; 0]%nat example_configs).1 =
    [completed_line 1 1].
Proof.
  refine (eq_trans
            (proj2 (completed_line_iff_step_succeeds (example_world 2 kernel_fails) 0)
               [1; 0]%nat example_configs _) _).
  - apply (bool_decide_unpack _). vm_compute. exact I.
  - vm_compute. reflexivity.
Defined.

(** * Further properties of the driver *)

(** ** A run without failure *)

Lemma checked_Continue w f n fmt args t :
  checked w f n fmt args = (t, Continue tt) -> w_ret w f n = 0 /\ t = [Call f 0].
Proof.
  unfold checked. destruct (Z.eqb_spec (w_ret w f n) 0) as [Hz | Hz]; simpl.
  - rewrite Hz. intros [= <-]. auto.
  - discriminate.
Qed.

Lemma init_config_Continue g w np inout i t c :
  init_config g w np inout i = (t, Continue c) ->
  t = init_trace i /\ c = initial_config g w np inout i.
Proof.
  unfold init_config, checked, init_trace, initial_config.
  repeat (match goal with
          | |- context [w_ret w ?f 0 =? 0] =>
              destruct (Z.eqb_spec (w_ret w f 0) 0) as [-> | ?]
          end; simpl; try discriminate).
  intros [= <- <-]. split; reflexivity.
Qed.

Lemma mapM_Continue {A B} (f : A -> M B) (T : A -> list event) (F : A -> B) l t bs :
  (forall a t b, f a = (t, Continue b) -> t = T a /\ b = F a) ->
  mapM f l = (t, Continue bs) -> t = concat (map T l) /\ bs = map F l.
Proof.
  intros Hf. revert t bs. induction l as [| a l IH]; intros t bs; simpl.
  - intros [= <- <-]. auto.
  - intros (t1 & b & t2 & H1 & H & ->)%bind_inv_Continue.
    apply bind_inv_Continue in H as (t3 & bs' & t4 & H2 & [= <- <-] & ->).
    destruct (Hf _ _ _ H1) as [-> ->]. destruct (IH _ _ H2) as [-> ->].
    rewrite app_nil_r. auto.
Qed.

Lemma prologue_Continue g w t0 st0 :
  prologue g w = (t0, Continue st0) ->
  w_ndevices w <> 0%nat /\
  t0 = [Call cudaGetDeviceCount 0;
        Stdout ("%d CUDA device(s) found" ++ nl)%string [AInt (Z.of_nat (w_ndevices w))];
        Stdout ("%d OpenMP threads used" ++ nl)%string [AInt (w_nthreads w)];
        Malloc inout_block; Malloc configs_block] ++
       concat (map init_trace (seq 0 (w_ndevices w))) /\
  st0 = {| inout := init_inout w (w_ndevices w) (np_of g);
           configs :=
             map (initial_config g w (np_of g) (init_inout w (w_ndevices w) (np_of g)))
               (seq 0 (w_ndevices w));
           control := (w_ndevices w * np_of g)%nat;
           input := ((w_ndevices w + 1) * np_of g)%nat |}.
Proof.
  unfold prologue.
  intros (t1 & [] & r1 & H1 & H & ->)%bind_inv_Continue.
  apply checked_Continue in H1 as [_ ->].
  apply bind_inv_Continue in H as (t2 & [] & r2 & [= <-] & H & ->).
  destruct (Nat.eqb_spec (w_ndevices w) 0) as [| Hn]; [discriminate |].
  apply bind_inv_Continue in H as (t3 & [] & r3 & [= <-] & H & ->).
  apply bind_inv_Continue in H as (t4 & [] & r4 & [= <-] & H & ->).
  apply bind_inv_Continue in H as (t5 & [] & r5 & [= <-] & H & ->).
  apply bind_inv_Continue in H as (t6 & cs & r6 & Hm & [= <- <-] & ->).
  destruct (mapM_Continue _ _ _ _ _ _ (init_config_Continue g w _ _) Hm) as [-> ->].
  rewrite app_nil_r. auto.
Qed.

Lemma thread_func_keeps w k c :
  let c' := (thread_func w k c).1.2 in
  config_t.idevice c' = config_t.idevice c /\
  config_t.nx c' = config_t.nx c /\ config_t.ny c' = config_t.ny c /\
  config_t.inout_cpu c' = config_t.inout_cpu c.
Proof.
  unfold thread_func.
  repeat (match goal with |- context [negb (?x =? 0)] => destruct (x =? 0) end; simpl);
    auto.
Qed.

Lemma thread_func_success w k c :
  (thread_func w k c).2 = 0 ->
  (thread_func w k c).1.1 =
    step_trace (config_t.idevice c) (int_wrap (config_t.step c + 1)) /\
  config_t.step (thread_func w k c).1.2 = int_wrap (config_t.step c + 1) /\
  config_t.in_dev (thread_func w k c).1.2 =
    w_gpu w (config_t.idevice c) k (config_t.in_dev c) (config_t.out_dev c) /\
  config_t.out_dev (thread_func w k c).1.2 = config_t.in_dev c.
Proof.
  unfold thread_func, step_trace.
  repeat (match goal with
          | |- context [negb (?x =? 0)] => destruct (Z.eqb_spec x 0) as [-> | ?]
          end; simpl);
    try (intros; contradiction).
  intros _. auto.
Qed.

Lemma worker_fields w k c :
  (worker w k c).1 = (thread_func w k c).1.1 /\
  config_t.status (worker w k c).2 = (thread_func w k c).2 /\
  config_t.idevice (worker w k c).2 = config_t.idevice (thread_func w k c).1.2 /\
  config_t.step (worker w k c).2 = config_t.step (thread_func w k c).1.2 /\
  config_t.in_dev (worker w k c).2 = config_t.in_dev (thread_func w k c).1.2 /\
  config_t.out_dev (worker w k c).2 = config_t.out_dev (thread_func w k c).1.2 /\
  config_t.inout_cpu (worker w k c).2 = config_t.inout_cpu (thread_func w k c).1.2.
Proof.
  unfold worker. destruct (thread_func w k c) as [[t c'] r]. simpl. auto 10.
Qed.

Lemma first_nonzero_None i cs :
  first_nonzero i cs = None -> forall j c, cs !! j = Some c -> config_t.status c = 0.
Proof.
  revert i. induction cs as [| c0 cs IH]; intros i H j c Hj; [discriminate Hj |].
  simpl in H. destruct (Z.eqb_spec (config_t.status c0) 0) as [Hz | Hz]; [| discriminate].
  destruct j as [| j]; simpl in Hj; [congruence | eauto].
Qed.

Lemma at_step_initial g w np inout D :
  at_step D 0 (map (initial_config g w np inout) (seq 0 D)).
Proof.
  split; [rewrite length_map, length_seq; reflexivity |].
  intros i c Hi. change (map ?f ?l) with (f <$> l) in Hi.
  rewrite list_lookup_fmap in Hi.
  destruct (seq 0 D !! i) as [j |] eqn:E; [| discriminate].
  apply lookup_seq in E as [-> _]. injection Hi as <-. auto.
Qed.

(** A tick in which no step fails. *)
Lemma tick_Continue w sched np D k st t st' :
  at_step D (Z.of_nat k) (configs st) ->
  sched k ≡ₚ seq 0 D ->
  Z.of_nat k + 1 < 2 ^ 31 ->
  tick w sched np k st = (t, Continue st') ->
  t = tick_trace w sched D (control st) (input st) k /\
  at_step D (Z.of_nat (S k)) (configs st') /\
  control st' = input st /\ input st' = control st /\
  configs st' = map (fun c => (worker w k c).2) (configs st) /\
  (forall i c, configs st !! i = Some c -> (thread_func w k c).2 = 0) /\
  inout st' =
    list_inserts (control st)
      (take np (w_cpu w k (tile (input st) np (inout st)) (tile (control st) np (inout st))))
      (inout st).
Proof.
  intros [Hlen Hcs] Hp Hk. rewrite tick_eq. cbv zeta.
  assert (Hp' : sched k ≡ₚ seq 0 (length (configs st))) by (rewrite Hlen; exact Hp).
  rewrite (fan_out_configs w k (sched k) (configs st) Hp').
  destruct (first_nonzero 0 (map (fun c => (worker w k c).2) (configs st)))
    as [[j s] |] eqn:E; [discriminate |].
  intros [= <- <-].
  assert (Hok : forall i c, configs st !! i = Some c -> (thread_func w k c).2 = 0).
  { intros i c Hi.
    destruct (worker_fields w k c) as (_ & <- & _).
    apply (first_nonzero_None _ _ E i).
    change (map ?f ?l) with (f <$> l). rewrite list_lookup_fmap, Hi. reflexivity. }
  replace (Z.of_nat (S k)) with (Z.of_nat k + 1) by lia.
  repeat split.
  - unfold host_section, tick_trace. simpl. rewrite length_map, Hlen. f_equal.
    assert (Hnd : NoDup (sched k)) by (rewrite Hp; apply NoDup_seq).
    destruct (fan_out_acc w k (sched k) Hnd [] (configs st)) as [Ht _].
    unfold fan_out. rewrite Ht. simpl. f_equal.
    apply map_ext_in. intros i Hi. apply list_elem_of_In in Hi.
    rewrite Hp in Hi. apply elem_of_seq in Hi.
    destruct (lookup_lt_is_Some_2 (configs st) i ltac:(lia)) as [c Hc].
    rewrite Hc. simpl.
    destruct (worker_fields w k c) as (-> & _).
    destruct (thread_func_success w k c (Hok _ _ Hc)) as (-> & _).
    destruct (Hcs _ _ Hc) as [-> ->].
    rewrite int_wrap_small by lia. reflexivity.
  - simpl. rewrite length_map. exact Hlen.
  - simpl in H. change (map ?f ?l) with (f <$> l) in H.
    rewrite list_lookup_fmap in H.
    destruct (configs st !! i) as [c0 |] eqn:Ec; [| discriminate].
    injection H as <-.
    destruct (worker_fields w k c0) as (_ & _ & -> & _).
    destruct (thread_func_keeps w k c0) as (-> & _).
    apply (Hcs _ _ Ec).
  - simpl in H. change (map ?f ?l) with (f <$> l) in H.
    rewrite list_lookup_fmap in H.
    destruct (configs st !! i) as [c0 |] eqn:Ec; [| discriminate].
    injection H as <-.
    destruct (worker_fields w k c0) as (_ & _ & _ & -> & _).
    destruct (thread_func_success w k c0 (Hok _ _ Ec)) as (_ & -> & _).
    destruct (Hcs _ _ Ec) as [_ ->]. apply int_wrap_small. lia.
  - exact Hok.
Qed.

Lemma step_loop_Continue w sched np D n k st t st' :
  at_step D (Z.of_nat k) (configs st) ->
  (forall j, sched j ≡ₚ seq 0 D) ->
  Z.of_nat (k + n) < 2 ^ 31 ->
  step_loop w sched np n k st = (t, Continue st') ->
  t = loop_trace w sched D (control st) (input st) n k /\
  at_step D (Z.of_nat (k + n)) (configs st') /\
  control st' = (if Nat.even n then control st else input st) /\
  input st' = (if Nat.even n then input st else control st).
Proof.
  intros Hat Hp. revert k st t Hat.
  induction n as [| n IH]; intros k st t Hat Hk; cbn [step_loop loop_trace].
  { intros [= <- <-]. rewrite Nat.add_0_r. auto. }
  intros (t1 & st1 & t2 & H1 & H2 & ->)%bind_inv_Continue.
  destruct (tick_Continue w sched np D k st t1 st1 Hat (Hp k) ltac:(lia) H1)
    as (-> & Hat1 & Hc & Hi & _).
  destruct (IH (S k) st1 t2 Hat1 ltac:(lia) H2) as (-> & Hat' & Hc' & Hi').
  rewrite Hc, Hi in *. replace (k + S n)%nat with (S k + n)%nat by lia.
  rewrite Nat.even_succ, <- Nat.negb_even.
  split; [reflexivity |]. split; [assumption |].
  rewrite Hc', Hi'. destruct (Nat.even n); auto.
Qed.

Lemma fini_config_Continue w np st i c t st' :
  configs st !! i = Some c ->
  fini_config w np st i = (t, Continue st') ->
  t = release_trace i /\
  st' = set_inout
          (list_inserts (config_t.inout_cpu c) (take np (config_t.in_dev c)) (inout st)) st.
Proof.
  intros Hc. unfold fini_config, checked, release_trace. rewrite Hc.
  repeat (match goal with
          | |- context [w_ret w ?f 0 =? 0] =>
              destruct (Z.eqb_spec (w_ret w f 0) 0) as [-> | ?]
          end; simpl; try discriminate).
  intros [= <- <-]. auto.
Qed.

Lemma release_loop_Continue w np l st t st' :
  (forall i, i ∈ l -> (i < length (configs st))%nat) ->
  foldM (fini_config w np) l st = (t, Continue st') ->
  t = concat (map release_trace l) /\
  configs st' = configs st /\ control st' = control st /\ input st' = input st.
Proof.
  revert st t. induction l as [| i l IH]; intros st t Hl; simpl.
  { intros [= <- <-]. auto. }
  intros (t1 & st1 & t2 & H1 & H2 & ->)%bind_inv_Continue.
  destruct (lookup_lt_is_Some_2 (configs st) i) as [c Hc].
  { apply Hl, elem_of_cons. auto. }
  destruct (fini_config_Continue _ _ _ _ _ _ _ Hc H1) as [-> ->].
  apply IH in H2 as (-> & -> & -> & ->); [auto |].
  intros j Hj. simpl. apply Hl, elem_of_cons. auto.
Qed.

Lemma epilogue_Continue g w st1 t st :
  length (configs st1) = w_ndevices w ->
  epilogue g w st1 = (t, Continue st) ->
  t = concat (map release_trace (seq 0 (w_ndevices w))) ++
      map (validate g (np_of g) st) (seq 0 (w_ndevices w)) ++
      [Free configs_block; Free inout_block] /\
  control st = input st1 /\ input st = control st1 /\ configs st = configs st1.
Proof.
  intros Hlen. unfold epilogue.
  intros (t1 & st2 & r1 & H1 & H & ->)%bind_inv_Continue.
  apply bind_inv_Continue in H as (t2 & [] & r2 & [= <-] & H & ->).
  apply bind_inv_Continue in H as (t3 & [] & r3 & [= <-] & H & ->).
  apply bind_inv_Continue in H as (t4 & [] & r4 & [= <-] & [= <- <-] & ->).
  apply release_loop_Continue in H1 as (-> & Hc & Hctl & Hinp).
  - rewrite app_nil_r. auto.
  - intros i Hi. apply elem_of_seq in Hi. simpl. lia.
Qed.

Lemma main_run_shape g w sched t st :
  (forall j, sched j ≡ₚ seq 0 (w_ndevices w)) ->
  nticks g < 2 ^ 31 ->
  main_run g w sched = (t, Continue st) ->
  t = [Call cudaGetDeviceCount 0;
       Stdout ("%d CUDA device(s) found" ++ nl)%string [AInt (Z.of_nat (w_ndevices w))];
       Stdout ("%d OpenMP threads used" ++ nl)%string [AInt (w_nthreads w)];
       Malloc inout_block; Malloc configs_block] ++
      concat (map init_trace (seq 0 (w_ndevices w))) ++
      loop_trace w sched (w_ndevices w)
        (w_ndevices w * np_of g) ((w_ndevices w + 1) * np_of g)
        (Z.to_nat (nticks g)) 0 ++
      concat (map release_trace (seq 0 (w_ndevices w))) ++
      map (validate g (np_of g) st) (seq 0 (w_ndevices w)) ++
      [Free configs_block; Free inout_block].
Proof.
  intros Hp Hn Hrun. unfold main_run in Hrun.
  apply bind_inv_Continue in Hrun as (t0 & st0 & r0 & H0 & H & ->).
  apply bind_inv_Continue in H as (t1 & st1 & t2 & H1 & H2 & ->).
  apply prologue_Continue in H0 as (_ & -> & ->).
  apply (step_loop_Continue w sched (np_of g) (w_ndevices w)) in H1
    as (-> & [Hlen _] & _); simpl; [| apply at_step_initial | exact Hp | lia].
  apply epilogue_Continue in H2 as (-> & _); [| exact Hlen].
  rewrite <- ?app_assoc. reflexivity.
Qed.

(** ** Tiles *)

Lemma length_tile p n mem : (p + n <= length mem)%nat -> length (tile p n mem) = n.
Proof. intros H. unfold tile. rewrite length_take, length_drop. lia. Qed.

Lemma lookup_tile p n mem i :
  (i < n)%nat -> tile p n mem !! i = mem !! (p + i)%nat.
Proof. intros H. unfold tile. rewrite lookup_take_lt by lia. apply lookup_drop. Qed.

Lemma tile_ext p q n mem mem' :
  (forall i, (i < n)%nat -> mem !! (p + i)%nat = mem' !! (q + i)%nat) ->
  tile p n mem = tile q n mem'.
Proof.
  intros H. apply list_eq. intros i. unfold tile.
  destruct (decide (i < n)%nat) as [Hi | Hi].
  - rewrite !lookup_take_lt, !lookup_drop by lia. auto.
  - rewrite !lookup_take_ge by lia. reflexivity.
Qed.

(** A write of [n] cells at [p] is what the tile at [p] then holds. *)
Lemma tile_inserts_same p n X mem :
  length X = n -> (p + n <= length mem)%nat -> tile p n (list_inserts p X mem) = X.
Proof.
  intros HX Hlen. apply list_eq. intros i.
  destruct (decide (i < n)%nat) as [Hi | Hi].
  - rewrite lookup_tile by lia. rewrite list_lookup_inserts by lia.
    f_equal. lia.
  - unfold tile. rewrite lookup_take_ge by lia. symmetry.
    apply lookup_ge_None. lia.
Qed.

(** It leaves the tiles that do not meet it as they were. *)
Lemma tile_inserts_other p q n X mem :
  (q + n <= p \/ p + length X <= q)%nat ->
  tile q n (list_inserts p X mem) = tile q n mem.
Proof.
  intros H. apply tile_ext. intros i Hi.
  destruct H as [H | H].
  - apply list_lookup_inserts_lt. lia.
  - apply list_lookup_inserts_ge. lia.
Qed.

Lemma length_seed_tile w np : length (seed_tile w np) = np.
Proof. unfold seed_tile. rewrite length_map, length_seq. reflexivity. Qed.

(** X2.  When the initialization is over, the configs are those of the
    devices 0 to [D - 1] in order: [configs[d]] has the device index [d],
    the step counter 0, the grid size of the globals, its host tile at
    offset [d * np], and an input buffer that holds the seeded tile; the
    pointers [control] and [input] are the tiles [D] and [D + 1]. *)
Theorem configs_after_initialization
    (g : globals) (w : World) (t0 : list event) (st0 : state) (d : nat) :
  prologue g w = (t0, Continue st0) ->
  (d < w_ndevices w)%nat ->
  length (configs st0) = w_ndevices w /\
  control st0 = (w_ndevices w * np_of g)%nat /\
  input st0 = ((w_ndevices w + 1) * np_of g)%nat /\
  exists c,
    configs st0 !! d = Some c /\
    config_t.idevice c = Z.of_nat d /\
    config_t.step c = 0 /\
    config_t.nx c = nx g /\ config_t.ny c = ny g /\
    config_t.inout_cpu c = (np_of g * d)%nat /\
    config_t.in_dev c = seed_tile w (np_of g) /\
    config_t.in_dev c = tile (d * np_of g) (np_of g) (inout st0) /\
    length (config_t.out_dev c) = np_of g.
Proof.
  intros H0 Hd. apply prologue_Continue in H0 as (_ & _ & ->). simpl.
  split; [rewrite length_map, length_seq; reflexivity |].
  split; [reflexivity |]. split; [reflexivity |].
  eexists. split.
  { change (map ?f ?l) with (f <$> l). rewrite list_lookup_fmap.
    rewrite lookup_seq_lt by lia. reflexivity. }
  simpl. repeat split; try reflexivity.
  - rewrite Nat.mul_comm. apply tile_init_inout. lia.
  - rewrite Nat.mul_comm. reflexivity.
  - rewrite length_map, length_seq. reflexivity.
Qed.

Lemma configs_after_initialization_witness :
  exists c,
    configs (continued empty_state (prologue small_globals (example_world 2 all_succeed)).2)
      !! 1%nat = Some c /\
    config_t.idevice c = 1 /\ config_t.inout_cpu c = 4%nat.
Proof.
  pose (p := prologue small_globals (example_world 2 all_succeed)).
  destruct (configs_after_initialization small_globals (example_world 2 all_succeed)
              p.1 (continued empty_state p.2) 1)
    as (_ & _ & _ & c & Hc & Hi & _ & _ & _ & Ho & _).
  - vm_compute. reflexivity.
  - vm_compute. lia.
  - exists c. split; [exact Hc |]. split; [exact Hi | exact Ho].
Defined.

(** ** The data through the ticks *)

Lemma device_buffers_S w d n b :
  device_buffers w d (S n) b = device_step w d (device_buffers w d n b) n.
Proof. unfold device_buffers. rewrite seq_S, foldl_app. reflexivity. Qed.

Lemma host_tiles_S w n b : host_tiles w (S n) b = host_step w (host_tiles w n b) n.
Proof. unfold host_tiles. rewrite seq_S, foldl_app. reflexivity. Qed.

Lemma data_at_initial g w t0 st0 :
  prologue g w = (t0, Continue st0) -> data_at w (w_ndevices w) (np_of g) 0 st0.
Proof.
  intros H0. apply prologue_Continue in H0 as (_ & _ & ->).
  unfold data_at. simpl.
  split; [apply length_init_inout |]. split; [left; auto |].
  split.
  { unfold seed_tile. rewrite !tile_init_inout by lia. reflexivity. }
  split.
  { intros d Hd. apply tile_init_inout. lia. }
  intros i c Hi. change (map ?f ?l) with (f <$> l) in Hi.
  rewrite list_lookup_fmap in Hi.
  destruct (seq 0 (w_ndevices w) !! i) as [j |] eqn:E; [| discriminate].
  apply lookup_seq in E as [-> Hlt]. injection Hi as <-. simpl.
  split; [reflexivity |].
  rewrite (Nat.mul_comm (np_of g) i), tile_init_inout by lia.
  unfold device_buffers, fresh_out_dev, seed_tile. simpl.
  rewrite !length_map, !length_seq. auto.
Qed.

Lemma data_at_tick w sched D np k st t st' :
  kernels_keep_size w ->
  at_step D (Z.of_nat k) (configs st) ->
  data_at w D np k st ->
  sched k ≡ₚ seq 0 D ->
  Z.of_nat k + 1 < 2 ^ 31 ->
  tick w sched np k st = (t, Continue st') ->
  data_at w D np (S k) st'.
Proof.
  intros [Hgpu Hcpu] Hat (Hlen & Hptr & Hhost & Hdev & Hcs) Hp Hk Ht.
  destruct (tick_Continue w sched np D k st t st' Hat Hp Hk Ht)
    as (_ & _ & Hc & Hi & Hcs' & _ & Hio).
  assert (Hb : (control st + np <= length (inout st) /\
                input st + np <= length (inout st) /\
                D * np <= control st /\ D * np <= input st /\
                (input st + np <= control st \/ control st + np <= input st))%nat).
  { destruct Hptr as [[-> ->] | [-> ->]]; rewrite Hlen; lia. }
  destruct Hb as (Hb1 & Hb2 & Hb3 & Hb4 & Hb5).
  set (X := w_cpu w k (tile (input st) np (inout st)) (tile (control st) np (inout st)))
    in *.
  assert (HX : length X = np).
  { unfold X. rewrite Hcpu; rewrite !length_tile by lia; reflexivity. }
  rewrite (take_ge X np) in Hio by lia.
  unfold data_at. rewrite Hc, Hi, Hio.
  split; [rewrite length_inserts; exact Hlen |].
  split; [destruct Hptr as [[-> ->] | [-> ->]]; auto |].
  split.
  { rewrite host_tiles_S, <- Hhost. unfold host_step. simpl. fold X.
    rewrite tile_inserts_same by assumption.
    rewrite tile_inserts_other by lia. reflexivity. }
  split.
  { intros d Hd. rewrite tile_inserts_other by nia. auto. }
  intros i c' Hi'. rewrite Hcs' in Hi'.
  change (map ?f ?l) with (f <$> l) in Hi'. rewrite list_lookup_fmap in Hi'.
  destruct (configs st !! i) as [c |] eqn:Ec; [| discriminate].
  injection Hi' as <-.
  destruct (Hcs i c Ec) as (Hio_c & Hbuf & Hl1 & Hl2).
  destruct (worker_fields w k c) as (_ & Hs & _ & _ & -> & -> & ->).
  destruct (thread_func_keeps w k c) as (_ & _ & _ & ->).
  destruct (tick_Continue w sched np D k st t st' Hat Hp Hk Ht)
    as (_ & _ & _ & _ & _ & Hok & _).
  destruct (thread_func_success w k c (Hok i c Ec)) as (_ & _ & -> & ->).
  destruct Hat as [_ Hat]. destruct (Hat i c Ec) as [-> _].
  rewrite device_buffers_S, <- Hbuf. unfold device_step. simpl.
  rewrite Hgpu by lia. auto.
Qed.

Lemma step_loop_data w sched D np n k st t st' :
  kernels_keep_size w ->
  (forall j, sched j ≡ₚ seq 0 D) ->
  at_step D (Z.of_nat k) (configs st) ->
  data_at w D np k st ->
  Z.of_nat (k + n) < 2 ^ 31 ->
  step_loop w sched np n k st = (t, Continue st') ->
  data_at w D np (k + n) st' /\ at_step D (Z.of_nat (k + n)) (configs st').
Proof.
  intros Hk Hp. revert k st t.
  induction n as [| n IH]; intros k st t Hat Hd Hb; cbn [step_loop].
  { intros [= <- <-]. rewrite Nat.add_0_r. auto. }
  intros (t1 & st1 & t2 & H1 & H2 & ->)%bind_inv_Continue.
  pose proof (data_at_tick w sched D np k st t1 st1 Hk Hat Hd (Hp k) ltac:(lia) H1) as Hd1.
  destruct (tick_Continue w sched np D k st t1 st1 Hat (Hp k) ltac:(lia) H1)
    as (_ & Hat1 & _).
  replace (k + S n)%nat with (S k + n)%nat by lia.
  apply (IH (S k) st1 t2); [assumption | assumption | lia | assumption].
Qed.

(** ** The data through the release *)

Lemma release_loop_data w np D l st t st' :
  length (configs st) = D ->
  (D * np <= length (inout st))%nat ->
  (forall i c, configs st !! i = Some c ->
     config_t.inout_cpu c = (np * i)%nat /\ length (config_t.in_dev c) = np) ->
  NoDup l -> (forall i, i ∈ l -> (i < D)%nat) ->
  foldM (fini_config w np) l st = (t, Continue st') ->
  length (inout st') = length (inout st) /\
  (forall i c, i ∈ l -> configs st !! i = Some c ->
     tile (np * i) np (inout st') = config_t.in_dev c) /\
  (forall p, (forall i, i ∈ l -> (p + np <= np * i \/ np * i + np <= p)%nat) ->
     tile p np (inout st') = tile p np (inout st)).
Proof.
  intros Hlen Hio Hcs Hnd. revert st t Hlen Hio Hcs.
  induction Hnd as [| i l Hi Hnd IH]; intros st t Hlen Hio Hcs Hl; simpl.
  { intros [= <- <-]. split; [reflexivity |]. split; [| auto].
    intros i c Hi. apply elem_of_nil in Hi. contradiction. }
  intros (t1 & st1 & t2 & H1 & H2 & ->)%bind_inv_Continue.
  assert (HiD : (i < D)%nat) by (apply Hl, elem_of_cons; auto).
  destruct (lookup_lt_is_Some_2 (configs st) i ltac:(lia)) as [c Hc].
  destruct (fini_config_Continue _ _ _ _ _ _ _ Hc H1) as [_ ->].
  destruct (Hcs i c Hc) as [Hoff Hlc].
  rewrite Hoff, (take_ge (config_t.in_dev c) np) in H2 by lia.
  apply IH in H2 as (Hlen' & Hin' & Hout'); simpl in *.
  - rewrite length_inserts in Hlen'. split; [exact Hlen' |]. split.
    + intros j cj Hj Hcj. apply elem_of_cons in Hj as [-> | Hj].
      * assert (cj = c) by congruence. subst cj.
        rewrite Hout'.
        -- apply tile_inserts_same; [assumption | nia].
        -- intros j Hj. assert (j <> i) by (intros ->; contradiction). nia.
      * apply Hin'; assumption.
    + intros p Hp. rewrite Hout'.
      * apply tile_inserts_other. rewrite Hlc.
        apply (Hp i), elem_of_cons. auto.
      * intros j Hj. apply Hp, elem_of_cons. auto.
  - exact Hlen.
  - rewrite length_inserts. exact Hio.
  - exact Hcs.
  - intros j Hj. apply Hl, elem_of_cons. auto.
Qed.

Lemma epilogue_release g w st1 t st :
  epilogue g w st1 = (t, Continue st) ->
  exists t1,
    foldM (fini_config w (np_of g)) (seq 0 (w_ndevices w)) (swap_host st1) =
      (t1, Continue st).
Proof.
  unfold epilogue.
  intros (t1 & st2 & r1 & H1 & H & ->)%bind_inv_Continue.
  apply bind_inv_Continue in H as (t2 & [] & r2 & [= <-] & H & ->).
  apply bind_inv_Continue in H as (t3 & [] & r3 & [= <-] & H & ->).
  apply bind_inv_Continue in H as (t4 & [] & r4 & [= <-] & [= <- <-] & ->).
  eauto.
Qed.

(** The data of a run that reaches the comparison. *)
Lemma main_run_data g w sched t st :
  (forall j, sched j ≡ₚ seq 0 (w_ndevices w)) ->
  nticks g < 2 ^ 31 ->
  kernels_keep_size w ->
  main_run g w sched = (t, Continue st) ->
  tile (control st) (np_of g) (inout st) =
    (host_tiles w (Z.to_nat (nticks g))
       (seed_tile w (np_of g), seed_tile w (np_of g))).1 /\
  forall d, (d < w_ndevices w)%nat ->
    tile (d * np_of g) (np_of g) (inout st) =
      (device_buffers w d (Z.to_nat (nticks g))
         (seed_tile w (np_of g), fresh_out_dev w (np_of g) d)).1.
Proof.
  intros Hp Hn Hk Hrun. unfold main_run in Hrun.
  apply bind_inv_Continue in Hrun as (t0 & st0 & r0 & H0 & H & ->).
  apply bind_inv_Continue in H as (t1 & st1 & t2 & H1 & H2 & ->).
  pose proof (data_at_initial _ _ _ _ H0) as Hd0.
  apply prologue_Continue in H0 as (_ & _ & Hst0).
  assert (Hat0 : at_step (w_ndevices w) (Z.of_nat 0) (configs st0)).
  { rewrite Hst0. apply at_step_initial. }
  assert (Hb : Z.of_nat (0 + Z.to_nat (nticks g)) < 2 ^ 31) by lia.
  destruct (step_loop_data w sched (w_ndevices w) (np_of g) _ 0 st0 t1 st1
              Hk Hp Hat0 Hd0 Hb H1) as [Hd1 [Hlen1 _]].
  simpl in Hd1. destruct Hd1 as (Hlen & Hptr & Hhost & _ & Hcs).
  destruct (epilogue_release _ _ _ _ _ H2) as [t3 H3].
  apply (release_loop_data w (np_of g) (w_ndevices w)) in H3
    as (_ & Hin & Hout); simpl.
  - apply epilogue_Continue in H2 as (_ & Hc & _ & _); [| exact Hlen1].
    rewrite Hc. split.
    + rewrite Hout.
      * apply (f_equal fst) in Hhost. exact Hhost.
      * intros i Hi. apply elem_of_seq in Hi.
        destruct Hptr as [[_ ->] | [_ ->]]; nia.
    + intros d Hd.
      destruct (lookup_lt_is_Some_2 (configs st1) d ltac:(lia)) as [c Hcd].
      destruct (Hcs d c Hcd) as (_ & Hbuf & _).
      rewrite (Nat.mul_comm d), (Hin d c); [| apply elem_of_seq; lia | exact Hcd].
      apply (f_equal fst) in Hbuf. exact Hbuf.
  - exact Hlen1.
  - rewrite Hlen. lia.
  - intros i c Hc. destruct (Hcs i c Hc) as (? & _ & ? & _). auto.
  - apply NoDup_seq.
  - intros i Hi. apply elem_of_seq in Hi. lia.
Qed.

(** X3.  In a run that reaches the comparison, with kernels that keep the
    size of the buffer they write, the host tile of device [d] holds what
    [nticks] steps of the kernel of device [d] make of the seeded tile, each
    step reading what the step before wrote, and the control tile holds
    what [nticks] steps of the host kernel make of it. *)
Theorem comparison_data
    (g : globals) (w : World) (sched : nat -> list nat) (t : list event) (st : state)
    (d : nat) :
  (forall j, sched j ≡ₚ seq 0 (w_ndevices w)) ->
  nticks g < 2 ^ 31 ->
  kernels_keep_size w ->
  main_run g w sched = (t, Continue st) ->
  (d < w_ndevices w)%nat ->
  tile (control st) (np_of g) (inout st) =
    (host_tiles w (Z.to_nat (nticks g))
       (seed_tile w (np_of g), seed_tile w (np_of g))).1 /\
  tile (d * np_of g) (np_of g) (inout st) =
    (device_buffers w d (Z.to_nat (nticks g))
       (seed_tile w (np_of g), fresh_out_dev w (np_of g) d)).1.
Proof.
  intros Hp Hn Hk Hrun Hd.
  destruct (main_run_data g w sched t st Hp Hn Hk Hrun) as [Hh Hdev].
  split; [exact Hh | apply Hdev; exact Hd].
Qed.

Lemma example_world_keeps_size D r : kernels_keep_size (example_world D r).
Proof. split; simpl; auto. Qed.

Lemma comparison_data_witness :
  tile (1 * 4) 4
    (inout (continued empty_state
              (main_run small_globals (example_world 2 all_succeed) reversed).2)) =
    seed_tile (example_world 2 all_succeed) 4.
Proof.
  pose (r := main_run small_globals (example_world 2 all_succeed) reversed).
  destruct (comparison_data small_globals (example_world 2 all_succeed) reversed
              r.1 (continued empty_state r.2) 1) as [_ H].
  - intros j. apply Permutation_swap.
  - reflexivity.
  - apply example_world_keeps_size.
  - vm_compute. reflexivity.
  - vm_compute. lia.
  - refine (eq_trans H _). vm_compute. reflexivity.
Defined.

(** ** Equal tiles *)

Lemma fabs_diff_self v : is_finite v = true -> fabs_diff v v = S754_zero false.
Proof.
  unfold fabs_diff, SFsub. destruct v as [[] | [] | | s m e]; simpl;
    try discriminate; try reflexivity.
  intros _. rewrite Z.sub_diag. reflexivity.
Qed.

Lemma foldl_fixed {A B} (f : A -> B -> A) (a : A) (l : list B) :
  (forall x, x ∈ l -> f a x = a) -> foldl f a l = a.
Proof.
  induction l as [| x l IH]; intros H; simpl; [reflexivity |].
  rewrite H by (apply elem_of_cons; auto).
  apply IH. intros y Hy. apply H, elem_of_cons. auto.
Qed.

Lemma abs_max_diff_zero g mem control p :
  0 < nx g -> 0 < ny g -> nx g * ny g < 2 ^ 31 ->
  (forall n, 0 <= n < nx g * ny g -> diff_at mem control p n = S754_zero false) ->
  abs_max_diff g mem control p = (S754_zero false, 0, 0).
Proof.
  intros Hx Hy Hb Hz. unfold abs_max_diff.
  change (fabs_diff (load mem control 0) (load mem p 0)) with (diff_at mem control p 0).
  rewrite Hz by nia.
  apply foldl_fixed. intros j Hj. apply elem_of_seqZ in Hj.
  unfold compare_row. apply foldl_fixed. intros i Hi. apply elem_of_seqZ in Hi.
  unfold compare_cell.
  rewrite (cell_index_exact _ (ny g)) by lia.
  change (fabs_diff (load mem control ?n) (load mem p ?n)) with (diff_at mem control p n).
  rewrite Hz by nia. reflexivity.
Qed.

Lemma np_of_exact g :
  0 < nx g -> 0 < ny g -> nx g * ny g < 2 ^ 31 -> np_of g = Z.to_nat (nx g * ny g).
Proof.
  intros Hx Hy Hb. unfold np_of, size_t_of_int.
  rewrite int_wrap_small by nia. rewrite Z.mod_small; [reflexivity | nia].
Qed.

Lemma load_tile mem p n V i :
  tile p n mem = V -> 0 <= i < Z.of_nat n ->
  load mem p i = default (S754_zero false) (V !! Z.to_nat i).
Proof.
  intros <- Hi. unfold load. rewrite lookup_tile by lia. reflexivity.
Qed.

Lemma device_buffers_iterate w F d n b :
  (forall d k inp out, w_gpu w d k inp out = F k inp) ->
  (device_buffers w d n b).1 = iterate F n b.1.
Proof.
  intros HF. induction n as [| n IH]; [reflexivity |].
  rewrite device_buffers_S. unfold iterate in *. rewrite seq_S, foldl_app. simpl.
  rewrite HF, IH. reflexivity.
Qed.

Lemma host_tiles_iterate w F n b :
  (forall k inp out, w_cpu w k inp out = F k inp) ->
  (host_tiles w n b).1 = iterate F n b.1.
Proof.
  intros HF. induction n as [| n IH]; [reflexivity |].
  rewrite host_tiles_S. unfold iterate in *. rewrite seq_S, foldl_app. simpl.
  rewrite HF, IH. reflexivity.
Qed.

(** X4.  The purpose of the program.  When the host kernel and the kernels
    of the devices compute the same function of their input, of the size
    of its input, every call succeeds and the values this function leaves
    after [nticks] steps are finite, [main] reports for every device the
    difference +0 at (0,0). *)
Theorem same_kernel_no_difference
    (g : globals) (w : World) (sched : nat -> list nat) (t : list event) (st : state)
    (F : nat -> list spec_float -> list spec_float) (d : nat) :
  (forall j, sched j ≡ₚ seq 0 (w_ndevices w)) ->
  nticks g < 2 ^ 31 ->
  0 < nx g -> 0 < ny g -> nx g * ny g < 2 ^ 31 ->
  (forall d k inp out, w_gpu w d k inp out = F k inp) ->
  (forall k inp out, w_cpu w k inp out = F k inp) ->
  (forall k inp, length (F k inp) = length inp) ->
  forallb is_finite (iterate F (Z.to_nat (nticks g)) (seed_tile w (np_of g))) = true ->
  main_run g w sched = (t, Continue st) ->
  (d < w_ndevices w)%nat ->
  validate g (np_of g) st d = no_difference_line d /\
  In (no_difference_line d) (main g w sched).1.
Proof.
  intros Hp Hn Hx Hy Hb Hgpu Hcpu Hlen Hfin Hrun Hd.
  assert (Hk : kernels_keep_size w).
  { split; intros; rewrite ?Hgpu, ?Hcpu, Hlen; assumption. }
  destruct (main_run_data g w sched t st Hp Hn Hk Hrun) as [Hh Hdev].
  specialize (Hdev d Hd).
  rewrite (host_tiles_iterate w F) in Hh by assumption.
  rewrite (device_buffers_iterate w F) in Hdev by assumption.
  simpl in Hh, Hdev.
  set (V := iterate F (Z.to_nat (nticks g)) (seed_tile w (np_of g))) in *.
  assert (Hv : validate g (np_of g) st d = no_difference_line d).
  { unfold validate. rewrite abs_max_diff_zero; try assumption; [reflexivity |].
    intros n Hn'. unfold diff_at.
    rewrite (load_tile _ _ _ _ _ Hh), (load_tile _ _ _ _ _ Hdev)
      by (rewrite np_of_exact by assumption; lia).
    apply fabs_diff_self.
    destruct (V !! Z.to_nat n) as [v |] eqn:Ev; [| reflexivity]. simpl.
    rewrite forallb_forall in Hfin. apply Hfin.
    apply list_elem_of_In, list_elem_of_lookup. eauto. }
  split; [exact Hv |].
  pose proof (main_run_shape g w sched t st Hp Hn Hrun) as Ht.
  rewrite main_trace, Hrun. simpl. rewrite Ht.
  rewrite !in_app_iff. do 4 right. left.
  rewrite <- Hv. apply in_map. apply in_seq. lia.
Qed.

Lemma same_kernel_no_difference_witness :
  validate small_globals 4
    (continued empty_state
       (main_run small_globals (example_world 2 all_succeed) reversed).2) 1 =
    no_difference_line 1.
Proof.
  pose (r := main_run small_globals (example_world 2 all_succeed) reversed).
  destruct (same_kernel_no_difference small_globals (example_world 2 all_succeed)
              reversed r.1 (continued empty_state r.2) (fun _ x => x) 1) as [H _].
  - intros j. apply Permutation_swap.
  - reflexivity.
  - reflexivity.
  - reflexivity.
  - reflexivity.
  - reflexivity.
  - reflexivity.
  - reflexivity.
  - vm_compute. reflexivity.
  - vm_compute. reflexivity.
  - vm_compute. lia.
  - exact H.
Defined.

(** ** The comparison and NaNs *)

Lemma foldl_preserves {A B} (P : A -> Prop) (f : A -> B -> A) (a : A) (l : list B) :
  P a -> (forall a x, P a -> P (f a x)) -> P (foldl f a l).
Proof.
  intros Ha Hf. revert a Ha. induction l as [| x l IH]; intros a Ha; simpl; auto.
Qed.

Lemma float_gt_nan_r d : float_gt d S754_nan = false.
Proof. reflexivity. Qed.

(** X5.  The comparison never selects a difference that is a NaN: when the
    difference at cell (0,0) is not a NaN, the reported maximum is not a
    NaN, whatever the other cells hold.  When the difference at cell (0,0)
    is a NaN, this NaN is reported at (0,0), and no other cell is looked
    at with effect. *)
Theorem comparison_and_nan
    (g : globals) (mem : list spec_float) (control p : nat) :
  (is_nan (diff_at mem control p 0) = true ->
   abs_max_diff g mem control p = (S754_nan, 0, 0)) /\
  (is_nan (diff_at mem control p 0) = false ->
   is_nan (abs_max_diff g mem control p).1.1 = false).
Proof.
  unfold abs_max_diff.
  change (fabs_diff (load mem control 0) (load mem p 0)) with (diff_at mem control p 0).
  split; intros H0.
  - destruct (diff_at mem control p 0); try discriminate.
    apply foldl_fixed. intros j _. unfold compare_row.
    apply foldl_fixed. intros i _. unfold compare_cell.
    rewrite float_gt_nan_r. reflexivity.
  - apply (foldl_preserves (fun acc => is_nan acc.1.1 = false)); [exact H0 |].
    intros acc j Hacc. unfold compare_row.
    apply (foldl_preserves (fun acc => is_nan acc.1.1 = false)); [exact Hacc |].
    clear acc Hacc. intros [[m mi] mj] i Hm. unfold compare_cell.
    destruct (float_gt _ m) eqn:E; [| exact Hm].
    simpl. apply float_gt_nan_l in E as [E _]. exact E.
Qed.

Lemma comparison_and_nan_witness :
  abs_max_diff small_globals nan_mem 4 0 = (S754_nan, 0, 0).
Proof.
  apply (proj1 (comparison_and_nan small_globals nan_mem 4 0)). reflexivity.
Defined.

(** ** Runs that fail *)

Lemma fini_config_Return w np st i t s :
  fini_config w np st i = (t, Return s) ->
  s <> 0 /\ forallb (fun e => negb (is_stdout e)) t = true.
Proof.
  unfold fini_config, checked. destruct (configs st !! i); [| discriminate].
  repeat (match goal with
          | |- context [w_ret w ?f 0 =? 0] =>
              destruct (Z.eqb_spec (w_ret w f 0) 0) as [? | ?]
          end; simpl; try discriminate);
    intros [= <- <-]; split; (assumption || reflexivity).
Qed.

Lemma fini_config_deinit w np st i t st' j :
  fini_config w np st i = (t, Continue st') -> In (deinit_line j) t -> j = i.
Proof.
  intros H Hin. destruct (configs st !! i) as [c |] eqn:Ec.
  - destruct (fini_config_Continue _ _ _ _ _ _ _ Ec H) as [-> _].
    unfold release_trace, deinit_line in Hin. simpl in Hin.
    destruct Hin as [Hin | [Hin | [Hin | [Hin | [Hin | [Hin | []]]]]]];
      try discriminate Hin.
    injection Hin as Hin. lia.
  - unfold fini_config in H. rewrite Ec in H. injection H as <- _. contradiction.
Qed.

(** When the release returns, the devices released in full are a proper
    prefix of the devices. *)
Lemma release_loop_Return w np l st t s j :
  foldM (fini_config w np) l st = (t, Return s) ->
  In (deinit_line j) t ->
  exists l1 l2, l = l1 ++ l2 /\ j ∈ l1 /\ l2 <> [].
Proof.
  revert st t. induction l as [| i l IH]; intros st t; simpl; [discriminate |].
  intros [H | (t1 & st1 & t2 & H1 & H2 & ->)]%bind_inv_Return Hin.
  - apply fini_config_Return in H as [_ H]. rewrite forallb_forall in H.
    apply H in Hin. discriminate Hin.
  - apply in_app_iff in Hin as [Hin | Hin].
    + apply (fini_config_deinit _ _ _ _ _ _ _ H1) in Hin as ->.
      exists [i], l. split; [reflexivity |]. split; [apply elem_of_cons; auto |].
      intros ->. discriminate H2.
    + destruct (IH _ _ H2 Hin) as (l1 & l2 & -> & Hj & Hl2).
      exists (i :: l1), l2. split; [reflexivity |].
      split; [apply elem_of_cons; auto | exact Hl2].
Qed.

Lemma seq_proper_prefix D l1 l2 :
  seq 0 D = l1 ++ l2 -> (D - 1)%nat ∈ l1 -> l2 <> [] -> False.
Proof.
  intros Hs Hj Hl2.
  assert (Hlen : (length l1 + length l2 = D)%nat).
  { rewrite <- length_app, <- Hs. apply length_seq. }
  assert (Hl1 : seq 0 (length l1) = l1).
  { replace (length l1) with (length l1 `min` D)%nat by lia.
    rewrite <- take_seq, Hs. apply take_app_length. }
  rewrite <- Hl1 in Hj. apply elem_of_seq in Hj.
  destruct l2; [contradiction | simpl in Hlen; lia].
Qed.

Lemma epilogue_Return g w st1 t s :
  epilogue g w st1 = (t, Return s) ->
  foldM (fini_config w (np_of g)) (seq 0 (w_ndevices w)) (swap_host st1) = (t, Return s).
Proof.
  unfold epilogue.
  intros [H | (t1 & st2 & t2 & _ & H & _)]%bind_inv_Return; [exact H |].
  simpl in H. discriminate H.
Qed.

Lemma epilogue_quiet_when_returning g w st1 t s :
  epilogue g w st1 = (t, Return s) ->
  forallb (fun e => negb (is_comparison e || is_free e)) t = true.
Proof.
  intros H. apply epilogue_Return in H.
  pose proof (events_foldM (fun e => negb (is_comparison e || is_free e))
                (fini_config w (np_of g)) (seq 0 (w_ndevices w)) (swap_host st1)) as He.
  rewrite H in He. apply He. intros st i. unfold fini_config.
  destruct (configs st !! i); events.
Qed.

Lemma prologue_no_free g w :
  forallb (fun e => negb (is_comparison e || is_free e)) (prologue g w).1 = true.
Proof.
  unfold prologue. events.
  destruct (w_ndevices w =? 0)%nat; [reflexivity |]. unfold init_config. events.
Qed.

Lemma step_loop_no_free w sched np n k st :
  forallb (fun e => negb (is_comparison e || is_free e))
    (step_loop w sched np n k st).1 = true.
Proof. apply events_step_loop; intros; repeat split; reflexivity. Qed.

Lemma not_release_not_deinit t j :
  forallb (fun e => negb (is_release e || is_comparison e)) t = true ->
  ~ In (deinit_line j) t.
Proof.
  intros H Hin. rewrite forallb_forall in H. apply H in Hin. discriminate Hin.
Qed.

(** X6.  The comparison is made, and the two host blocks are freed, only in
    a run that reaches the end of [main].  A run in which [main] returns a
    status other than zero prints no line of the comparison and frees
    neither block, and it never completes the release of the last device:
    whatever call failed, the context of at least one device is left as it
    is. *)
Theorem failed_run_ends_early (g : globals) (w : World) (sched : nat -> list nat) :
  (main g w sched).2 <> 0 ->
  forallb (fun e => negb (is_comparison e || is_free e)) (main g w sched).1 = true /\
  ~ In (deinit_line (w_ndevices w - 1)) (main g w sched).1.
Proof.
  rewrite main_exit, main_trace. unfold main_run.
  pose proof (prologue_no_free g w) as Hp. pose proof (prologue_no_release g w) as Hp'.
  destruct (prologue g w) as [t0 [s0 | st0]]; simpl in *.
  { intros _. split; [exact Hp | apply not_release_not_deinit; exact Hp']. }
  pose proof (step_loop_no_free w sched (np_of g) (Z.to_nat (nticks g)) 0 st0) as Hl.
  pose proof (step_loop_no_release w sched (np_of g) (Z.to_nat (nticks g)) 0 st0) as Hl'.
  destruct (step_loop w sched (np_of g) (Z.to_nat (nticks g)) 0 st0)
    as [t1 [s1 | st1]]; simpl in *.
  { intros _. split; [apply events_app; assumption |].
    apply not_release_not_deinit, events_app; assumption. }
  destruct (epilogue g w st1) as [t2 [s2 | st2]] eqn:He; simpl; [| intros H; congruence].
  intros _. split.
  - apply events_app; [exact Hp |]. apply events_app; [exact Hl |].
    eapply epilogue_quiet_when_returning. eassumption.
  - rewrite !in_app_iff. intros [Hin | [Hin | Hin]].
    + revert Hin. apply not_release_not_deinit. exact Hp'.
    + revert Hin. apply not_release_not_deinit. exact Hl'.
    + apply epilogue_Return in He.
      destruct (release_loop_Return _ _ _ _ _ _ _ He Hin) as (l1 & l2 & Hs & Hj & Hl2).
      exact (seq_proper_prefix _ _ _ Hs Hj Hl2).
Qed.

Lemma failed_run_ends_early_witness :
  ~ In (deinit_line 1) (main small_globals (example_world 2 free_fails) reversed).1.
Proof.
  apply (failed_run_ends_early small_globals (example_world 2 free_fails) reversed).
  vm_compute. discriminate.
Defined.

Lemma mapM_Return {A B} (f : A -> M B) l t s :
  mapM f l = (t, Return s) ->
  exists l1 a l2 t1 bs ta,
    l = l1 ++ a :: l2 /\ mapM f l1 = (t1, Continue bs) /\
    f a = (ta, Return s) /\ t = t1 ++ ta.
Proof.
  revert t. induction l as [| a l IH]; intros t; simpl; [discriminate |].
  intros [H | (t1 & b & t2 & H1 & H2 & ->)]%bind_inv_Return.
  - exists [], a, l, [], [], t. auto.
  - apply bind_inv_Return in H2 as [H2 | (t3 & bs & t4 & _ & H2 & _)];
      [| discriminate H2].
    destruct (IH _ H2) as (l1 & a' & l2 & t1' & bs & ta & -> & Hm & Ha & ->).
    exists (a :: l1), a', l2, (t1 ++ t1'), (b :: bs), ta.
    split; [reflexivity |]. split; [| split; [exact Ha | apply app_assoc]].
    simpl. rewrite H1. simpl. rewrite Hm. simpl. rewrite app_nil_r. reflexivity.
Qed.

Lemma init_config_Return g w np inout i t s :
  init_config g w np inout i = (t, Return s) ->
  s <> 0 /\ stdout_of t = [] /\
  exists fmt, stderr_of t = [Stderr fmt [AInt (Z.of_nat i); AInt s]].
Proof.
  unfold init_config, checked.
  repeat (match goal with
          | |- context [w_ret w ?f 0 =? 0] =>
              destruct (Z.eqb_spec (w_ret w f 0) 0) as [? | ?]
          end; simpl; try discriminate);
    intros [= <- <-]; (split; [assumption |]); (split; [reflexivity |]);
    eexists; reflexivity.
Qed.

Lemma init_traces_stdout l :
  stdout_of (concat (map init_trace l)) = map init_line l /\
  stderr_of (concat (map init_trace l)) = [].
Proof.
  induction l as [| i l [IH1 IH2]]; [split; reflexivity |].
  simpl. unfold stdout_of, stderr_of in *. simpl. rewrite IH1, IH2. auto.
Qed.

(** X7.  The initialization stops at the first device whose config cannot
    be created.  When the device count was obtained and [main] returns a
    status [s] other than zero from the initialization, there is a device
    [d] such that the devices before [d] have their "initialized" line, in
    order, [d] and the devices after it have none, and stderr holds one
    line, with [d] and [s]. *)
Theorem initialization_stops_at_first_failure
    (g : globals) (w : World) (sched : nat -> list nat) (t0 : list event) (s : Z) :
  w_ret w cudaGetDeviceCount 0%nat = 0 ->
  prologue g w = (t0, Return s) ->
  s <> 0 ->
  main g w sched = (t0, s) /\
  exists d fmt,
    (d < w_ndevices w)%nat /\
    stdout_of t0 =
      [Stdout ("%d CUDA device(s) found" ++ nl)%string [AInt (Z.of_nat (w_ndevices w))];
       Stdout ("%d OpenMP threads used" ++ nl)%string [AInt (w_nthreads w)]] ++
      map init_line (seq 0 d) /\
    stderr_of t0 = [Stderr fmt [AInt (Z.of_nat d); AInt s]].
Proof.
  intros Hc H0 Hs. split.
  { unfold main, main_run. rewrite H0. reflexivity. }
  unfold prologue in H0. rewrite (checked_ok _ _ _ _ _ Hc) in H0.
  rewrite bind_Continue in H0. simpl in H0.
  destruct (w_ndevices w =? 0)%nat eqn:En.
  { simpl in H0. injection H0 as _ H0. congruence. }
  simpl in H0.
  destruct (mapM _ (seq 0 (w_ndevices w))) as [tm [sm | cs]] eqn:Em;
    simpl in H0; [| discriminate].
  injection H0 as <- <-.
  apply mapM_Return in Em as (l1 & d & l2 & t1 & bs & ta & Hl & Hm & Ha & ->).
  destruct (mapM_Continue _ _ _ _ _ _ (init_config_Continue g w _ _) Hm) as [-> _].
  apply init_config_Return in Ha as (_ & Hout & fmt & Herr).
  assert (Hd : d = length l1 /\ l1 = seq 0 (length l1) /\ (length l1 < w_ndevices w)%nat).
  { assert (Hlen : length (seq 0 (w_ndevices w)) = length (l1 ++ d :: l2))
      by (rewrite Hl; reflexivity).
    rewrite length_seq, length_app in Hlen. simpl in Hlen.
    pose proof (f_equal (fun l => l !! length l1) Hl) as Hd. simpl in Hd.
    rewrite lookup_app_r, Nat.sub_diag in Hd by lia. simpl in Hd.
    apply lookup_seq in Hd as [Hd _].
    pose proof (f_equal (take (length l1)) Hl) as Ht.
    rewrite take_seq, take_app_length in Ht.
    replace (length l1 `min` w_ndevices w)%nat with (length l1) in Ht by lia.
    split; [lia |]. split; [congruence | lia]. }
  destruct Hd as (-> & Hl1 & Hlt).
  exists (length l1), fmt. split; [exact Hlt |].
  destruct (init_traces_stdout l1) as [Hso Hse].
  unfold stdout_of, stderr_of in *. simpl.
  rewrite !List.filter_app, Hso, Hse, Hout, Herr, app_nil_r, <- Hl1.
  split; reflexivity.
Qed.

Lemma initialization_stops_at_first_failure_witness :
  main small_globals (example_world 2 create_fails) reversed =
    ((prologue small_globals (example_world 2 create_fails)).1, 7).
Proof.
  apply (initialization_stops_at_first_failure small_globals
           (example_world 2 create_fails) reversed).
  - reflexivity.
  - vm_compute. reflexivity.
  - discriminate.
Defined.

(** ** The order of the devices within a tick *)

(** X8.  The state on which the comparison is made, or the status of an
    early [return], does not depend on the order in which the devices run
    within the ticks: each device works on its own config, and the join
    comes after all of them. *)
Theorem result_independent_of_schedule
    (g : globals) (w : World) (sched sched' : nat -> list nat) :
  (forall k, sched k ≡ₚ seq 0 (w_ndevices w)) ->
  (forall k, sched' k ≡ₚ seq 0 (w_ndevices w)) ->
  (main_run g w sched).2 = (main_run g w sched').2.
Proof.
  intros H H'. unfold main_run.
  apply bind_snd; [reflexivity |]. intros st0 E.
  apply bind_snd; [| reflexivity].
  destruct (prologue g w) as [t0 o] eqn:E0. simpl in E. subst o.
  eapply step_loop_sched_irrelevant; eauto using prologue_length.
Qed.

Lemma result_independent_of_schedule_witness :
  (main_run small_globals (example_world 2 two_fail) reversed).2 =
  (main_run small_globals (example_world 2 two_fail) (in_order 2)).2.
Proof.
  apply result_independent_of_schedule.
  - intros k. apply Permutation_swap.
  - intros k. reflexivity.
Defined.

Lemma worker_starts w k c :
  exists rest,
    (worker w k c).1 =
      Call (cuCtxPushCurrent_step (config_t.idevice c))
        (w_ret w (cuCtxPushCurrent_step (config_t.idevice c)) k) :: rest.
Proof.
  unfold worker, thread_func.
  repeat (match goal with |- context [negb (?x =? 0)] => destruct (x =? 0) end; simpl);
    eexists; reflexivity.
Qed.

(** X9.  There is no cancellation within a tick.  In every tick that is
    run, whether or not a step fails in it, the step of every device is
    started, with the push of its context, and the host kernel is called,
    before [main] looks at a status. *)
Theorem no_cancellation_within_tick
    (w : World) (sched : nat -> list nat) (np k : nat) (st : state)
    (i : nat) (c : config_t.t) :
  sched k ≡ₚ seq 0 (length (configs st)) ->
  configs st !! i = Some c ->
  let t := (tick w sched np k st).1 in
  let host :=
    pattern2d_cpu (input st) (control st) (Z.of_nat (length (configs st))) in
  In (Call (cuCtxPushCurrent_step (config_t.idevice c))
        (w_ret w (cuCtxPushCurrent_step (config_t.idevice c)) k)) t /\
  In (Call host (w_ret w host k)) t /\
  forall e, In e t -> is_join_line e = true -> last t = Some e.
Proof.
  intros Hp Hc t host. subst t host. rewrite tick_eq. cbv zeta.
  assert (Hnd : NoDup (sched k)) by (rewrite Hp; apply NoDup_seq).
  destruct (fan_out_acc w k (sched k) Hnd [] (configs st)) as [Ht _].
  pose proof (fan_out_length w k (sched k) (configs st)) as Hlen.
  pose proof (fan_out_joins w k (sched k) (configs st)) as Hj.
  unfold fan_out in *. simpl in Ht.
  set (fo := foldl (fan_step w k) ([], configs st) (sched k)) in *.
  assert (Hpush : In (Call (cuCtxPushCurrent_step (config_t.idevice c))
                        (w_ret w (cuCtxPushCurrent_step (config_t.idevice c)) k)) fo.1).
  { rewrite Ht. apply in_concat. destruct (worker_starts w k c) as [rest Hr].
    exists (worker w k c).1. split; [| rewrite Hr; left; reflexivity].
    apply in_map_iff. exists i. rewrite Hc. split; [reflexivity |].
    apply list_elem_of_In. rewrite Hp. apply elem_of_seq.
    apply lookup_lt_Some in Hc. lia. }
  assert (Hhost : (host_section w k np (set_configs fo.2 st)).1 =
                  [Call (pattern2d_cpu (input st) (control st)
                           (Z.of_nat (length (configs st))))
                     (w_ret w (pattern2d_cpu (input st) (control st)
                                 (Z.of_nat (length (configs st)))) k)]).
  { unfold host_section. simpl. rewrite Hlen. reflexivity. }
  assert (Hnj : forall e, In e fo.1 -> is_join_line e = true -> False).
  { intros e He Hje. unfold joins in Hj.
    assert (Hin : In e (List.filter is_join_line fo.1)) by (apply filter_In; auto).
    destruct (List.filter is_join_line fo.1); [contradiction | discriminate]. }
  rewrite Hhost. destruct (first_nonzero 0 fo.2) as [[j s] |]; cbn [fst].
  - split; [apply in_app_iff; auto |].
    split; [apply in_app_iff; right; left; reflexivity |].
    intros e He Hje. apply in_app_iff in He as [He | [He | [He | []]]].
    + exfalso. eauto.
    + subst e. discriminate Hje.
    + subst e. rewrite app_assoc. apply last_snoc.
  - split; [apply in_app_iff; auto |].
    split; [apply in_app_iff; right; left; reflexivity |].
    intros e He Hje. apply in_app_iff in He as [He | [He | []]].
    + exfalso. eauto.
    + subst e. discriminate Hje.
Qed.

Lemma no_cancellation_within_tick_witness :
  In (Call (cuCtxPushCurrent_step 1) 0)
    (tick (example_world 2 kernel_fails) reversed 4 0
       (continued empty_state (prologue small_globals (example_world 2 kernel_fails)).2)).1.
Proof.
  pose (st := continued empty_state
                (prologue small_globals (example_world 2 kernel_fails)).2).
  destruct (no_cancellation_within_tick (example_world 2 kernel_fails) reversed 4 0 st 1
              (default example_config (configs st !! 1%nat))) as [H _].
  - apply Permutation_swap.
  - vm_compute. reflexivity.
  - exact H.
Defined.

(** ** The host workspace through the ticks *)

Lemma tick_host w sched np k st t st' :
  tick w sched np k st = (t, Continue st') ->
  control st' = input st /\ input st' = control st /\
  exists X, inout st' = list_inserts (control st) X (inout st).
Proof.
  rewrite tick_eq. cbv zeta.
  destruct (first_nonzero 0 (fan_out w k (sched k) (configs st)).2) as [[j s] |];
    [discriminate |].
  intros [= _ <-]. simpl. eauto.
Qed.

Lemma step_loop_host w sched np low n k st t st' :
  step_loop w sched np n k st = (t, Continue st') ->
  (low <= control st)%nat -> (low <= input st)%nat ->
  control st' = (if Nat.even n then control st else input st) /\
  input st' = (if Nat.even n then input st else control st) /\
  length (inout st') = length (inout st) /\
  forall x, (x < low)%nat -> inout st' !! x = inout st !! x.
Proof.
  revert k st t. induction n as [| n IH]; intros k st t; cbn [step_loop].
  { intros [= _ <-] _ _. auto. }
  intros (t1 & st1 & t2 & H1 & H2 & ->)%bind_inv_Continue Hc Hi.
  apply tick_host in H1 as (Hc1 & Hi1 & X & HX).
  apply IH in H2 as (Hc' & Hi' & Hlen & Hlow); [| lia | lia].
  rewrite Hc1, Hi1 in *. rewrite Nat.even_succ, <- Nat.negb_even.
  rewrite Hc', Hi', Hlen, HX, length_inserts.
  split; [destruct (Nat.even n); reflexivity |].
  split; [destruct (Nat.even n); reflexivity |].
  split; [reflexivity |].
  intros x Hx. rewrite Hlow, HX by assumption.
  apply list_lookup_inserts_lt. lia.
Qed.

(** X10.  The steps of the devices do not write the host workspace, and the
    host kernel writes the tiles [D] and [D + 1] only: when the tick loop
    is left at its end, the workspace has the size it had and the host
    tile of every device still holds the seeded values.  The results of
    the devices reach the host at the release. *)
Theorem ticks_leave_device_tiles
    (g : globals) (w : World) (sched : nat -> list nat) (st1 : state) (d : nat) :
  after_loop g w sched = Continue st1 ->
  (d < w_ndevices w)%nat ->
  length (inout st1) = ((w_ndevices w + 2) * np_of g)%nat /\
  tile (d * np_of g) (np_of g) (inout st1) = seed_tile w (np_of g).
Proof.
  unfold after_loop. destruct (prologue g w) as [t0 [s0 | st0]] eqn:E0; [discriminate |].
  destruct (step_loop w sched (np_of g) (Z.to_nat (nticks g)) 0 st0) as [t1 o] eqn:E1.
  simpl. intros -> Hd.
  apply prologue_Continue in E0 as (_ & _ & ->).
  apply (step_loop_host _ _ _ (w_ndevices w * np_of g)) in E1
    as (_ & _ & Hlen & Hlow); simpl; [| lia | lia].
  simpl in Hlen, Hlow. rewrite Hlen, length_init_inout. split; [reflexivity |].
  unfold seed_tile.
  rewrite <- (tile_init_inout w (w_ndevices w) (np_of g) d) by lia.
  apply tile_ext. intros i Hi. apply Hlow. nia.
Qed.

Lemma ticks_leave_device_tiles_witness :
  tile (1 * 4) 4
    (inout (continued empty_state
              (after_loop small_globals (example_world 2 all_succeed) reversed))) =
    seed_tile (example_world 2 all_succeed) 4.
Proof.
  apply (ticks_leave_device_tiles small_globals (example_world 2 all_succeed) reversed
           (continued empty_state
              (after_loop small_globals (example_world 2 all_succeed) reversed)) 1).
  - vm_compute. reflexivity.
  - vm_compute. lia.
Defined.

(** X11.  Which tile the comparison is made against.  In a run that reaches
    the comparison, [control] points to tile [D + 1] when the number of
    ticks is even, as with the 10 ticks of the source, and to tile [D] when
    it is odd; [input] points to the other one. *)
Theorem comparison_tile_by_parity
    (g : globals) (w : World) (sched : nat -> list nat) (t : list event) (st : state) :
  main_run g w sched = (t, Continue st) ->
  control st =
    (if Nat.even (Z.to_nat (nticks g))
     then (w_ndevices w + 1) * np_of g else w_ndevices w * np_of g)%nat /\
  input st =
    (if Nat.even (Z.to_nat (nticks g))
     then w_ndevices w * np_of g else (w_ndevices w + 1) * np_of g)%nat.
Proof.
  unfold main_run.
  intros (t0 & st0 & r0 & H0 & H & ->)%bind_inv_Continue.
  apply bind_inv_Continue in H as (t1 & st1 & t2 & H1 & H2 & ->).
  apply prologue_Continue in H0 as (_ & _ & ->).
  apply (step_loop_host _ _ _ 0) in H1 as (Hc & Hi & _); simpl; [| lia | lia].
  simpl in Hc, Hi.
  destruct (epilogue_release _ _ _ _ _ H2) as [t3 H3].
  assert (Hp : control st = input st1 /\ input st = control st1).
  { refine (foldM_invariant
              (fun s => control s = input st1 /\ input s = control st1)
              _ _ _ _ _ _ _ H3); [| simpl; auto].
    intros s a ta s' [Hc0 Hi0] Hf.
    apply fini_config_pointers in Hf as (-> & -> & _). auto. }
  destruct Hp as [-> ->]. rewrite Hc, Hi.
  destruct (Nat.even (Z.to_nat (nticks g))); auto.
Qed.

Lemma comparison_tile_by_parity_witness :
  control (continued empty_state
             (main_run small_globals (example_world 2 all_succeed) reversed).2) = 8%nat.
Proof.
  pose (r := main_run small_globals (example_world 2 all_succeed) reversed).
  destruct (comparison_tile_by_parity small_globals (example_world 2 all_succeed)
              reversed r.1 (continued empty_state r.2)) as [H _].
  - vm_compute. reflexivity.
  - exact H.
Defined.

(** ** The buffers of a device *)

(** X12.  [thread_func] exchanges the two device buffers exactly when it
    succeeds: the input buffer then holds what the kernel wrote and the
    output buffer the input of this step.  When it fails the input buffer
    is the one it was, with its content, also when the pop failed and the
    step counter has been incremented.  In no case does it change the
    device index, the grid size or the host tile of the config. *)
Theorem buffers_swap_iff_success (w : World) (k : nat) (config : config_t.t) :
  let config' := (thread_func w k config).1.2 in
  let r := (thread_func w k config).2 in
  (r = 0 ->
     config_t.in_dev config' =
       w_gpu w (config_t.idevice config) k (config_t.in_dev config)
         (config_t.out_dev config) /\
     config_t.out_dev config' = config_t.in_dev config) /\
  (r <> 0 -> config_t.in_dev config' = config_t.in_dev config) /\
  config_t.idevice config' = config_t.idevice config /\
  config_t.nx config' = config_t.nx config /\
  config_t.ny config' = config_t.ny config /\
  config_t.inout_cpu config' = config_t.inout_cpu config.
Proof.
  cbv zeta. split; [| split; [| apply thread_func_keeps]].
  - intros Hr. destruct (thread_func_success w k config Hr) as (_ & _ & H1 & H2). auto.
  - unfold thread_func.
    repeat (match goal with
            | |- context [negb (?x =? 0)] => destruct (Z.eqb_spec x 0) as [? | ?]
            end; simpl);
      try reflexivity.
    intros H. contradiction.
Qed.

Lemma buffers_swap_iff_success_witness :
  config_t.in_dev (thread_func (example_world 1 pop_fails) 0 example_config).1.2 =
    config_t.in_dev example_config.
Proof.
  apply (buffers_swap_iff_success (example_world 1 pop_fails) 0 example_config).
  vm_compute. discriminate.
Defined.

(** * The ticks with their steps interleaved *)

(** ** Strands *)

Lemma flat_app t1 t2 : flat (t1 ++ t2) = flat t1 ++ flat t2.
Proof. apply map_app. Qed.

Lemma flat_on_main t : flat (on_main t) = t.
Proof.
  unfold flat, on_main. rewrite map_map. simpl. apply map_id.
Qed.

Lemma flat_on_iteration i t : flat (on_iteration i t) = t.
Proof.
  unfold flat, on_iteration. rewrite map_map. simpl. apply map_id.
Qed.

Lemma strand_events_app x t1 t2 :
  strand_events x (t1 ++ t2) = strand_events x t1 ++ strand_events x t2.
Proof. unfold strand_events. rewrite List.filter_app. apply map_app. Qed.

Lemma strand_eqb_eq x y : strand_eqb x y = true <-> x = y.
Proof.
  destruct x as [i |], y as [j |]; simpl; try (split; congruence).
  rewrite Nat.eqb_eq. split; congruence.
Qed.

Lemma strand_events_tagged x y t :
  strand_events x (map (pair y) t) = if strand_eqb y x then t else [].
Proof.
  unfold strand_events. induction t as [| e t IH]; simpl.
  - destruct (strand_eqb y x); reflexivity.
  - destruct (strand_eqb y x); simpl; [f_equal |]; exact IH.
Qed.

Lemma strand_events_on_main x t :
  strand_events x (on_main t) = match x with None => t | Some _ => [] end.
Proof. unfold on_main. rewrite strand_events_tagged. destruct x; reflexivity. Qed.

Lemma In_strand_events x e t : In (x, e) t <-> In e (strand_events x t).
Proof.
  unfold strand_events. rewrite in_map_iff. split.
  - intros H. exists (x, e). split; [reflexivity |].
    apply filter_In. split; [exact H |]. simpl. by apply strand_eqb_eq.
  - intros ([y e'] & He & [Hin Hy]%filter_In). simpl in *.
    apply strand_eqb_eq in Hy. subst. exact Hin.
Qed.

(** ** Interleavings *)

Lemma imap_shift {B} (F : nat -> list event -> B) n (ts : list (list event)) :
  imap ((fun j => F (n + j)%nat) ∘ S) ts = imap (fun j => F (S n + j)%nat) ts.
Proof.
  apply imap_ext. intros j l _. simpl. f_equal. lia.
Qed.

Lemma flat_rest n ts :
  flat (concat (imap (fun j => on_iteration (n + j)) ts)) = concat ts.
Proof.
  revert n. induction ts as [| l ts IH]; intros n; [reflexivity |].
  cbn [imap concat]. rewrite flat_app, flat_on_iteration. f_equal.
  rewrite (imap_shift on_iteration). apply IH.
Qed.

Lemma strand_events_rest i n ts :
  strand_events (Some i) (concat (imap (fun j => on_iteration (n + j)) ts)) =
    if decide (n <= i)%nat then default [] (ts !! (i - n)%nat) else [].
Proof.
  revert n. induction ts as [| l ts IH]; intros n.
  { simpl. destruct (decide (n <= i)%nat); reflexivity. }
  cbn [imap concat]. rewrite strand_events_app.
  unfold on_iteration at 1. rewrite strand_events_tagged.
  rewrite (imap_shift on_iteration), IH. simpl.
  destruct (Nat.eqb_spec (n + 0) i) as [E | E].
  - destruct (decide (n <= i)%nat); [| lia].
    destruct (decide (S n <= i)%nat); [lia |].
    replace (i - n)%nat with 0%nat by lia. simpl. by rewrite app_nil_r.
  - destruct (decide (n <= i)%nat) as [Hle | Hle];
      destruct (decide (S n <= i)%nat); try lia; [| reflexivity].
    replace (i - n)%nat with (S (i - S n)) by lia. reflexivity.
Qed.

Lemma rest_main n ts :
  strand_events None (concat (imap (fun j => on_iteration (n + j)) ts)) = [].
Proof.
  revert n. induction ts as [| l ts IH]; intros n; [reflexivity |].
  cbn [imap concat]. rewrite strand_events_app.
  unfold on_iteration at 1. rewrite strand_events_tagged.
  rewrite (imap_shift on_iteration), IH. reflexivity.
Qed.

(** The events of iteration [i] come in the interleaving in the order in
    which the iteration makes them, and no event is lost or made up. *)
Lemma strand_events_merge i picks ts :
  strand_events (Some i) (merge picks ts) = default [] (ts !! i).
Proof.
  revert ts. induction picks as [| a picks IH]; intros ts.
  { cbn [merge].
    change (imap on_iteration ts) with (imap (fun j => on_iteration (0 + j)) ts).
    rewrite (strand_events_rest i 0 ts).
    destruct (decide (0 <= i)%nat); [| lia]. by rewrite Nat.sub_0_r. }
  cbn [merge]. destruct (ts !! a) as [[| e rest] |] eqn:Ea; try apply IH.
  unfold strand_events. cbn [List.filter fst strand_eqb].
  destruct (Nat.eqb_spec a i) as [-> | Hne].
  - cbn [map snd]. fold (strand_events (Some i) (merge picks (<[i := rest]> ts))).
    rewrite IH, Ea.
    rewrite list_lookup_insert_eq by (eapply lookup_lt_Some; eassumption).
    reflexivity.
  - fold (strand_events (Some i) (merge picks (<[a := rest]> ts))).
    rewrite IH. by rewrite list_lookup_insert_ne.
Qed.

Lemma strand_events_merge_main picks ts : strand_events None (merge picks ts) = [].
Proof.
  revert ts. induction picks as [| a picks IH]; intros ts.
  { cbn [merge].
    change (imap on_iteration ts) with (imap (fun j => on_iteration (0 + j)) ts).
    apply (rest_main 0 ts). }
  cbn [merge]. destruct (ts !! a) as [[| e rest] |] eqn:Ea; apply IH.
Qed.

Lemma concat_insert_tail (ts : list (list event)) i e rest :
  ts !! i = Some (e :: rest) -> concat ts ≡ₚ e :: concat (<[i := rest]> ts).
Proof.
  intros Hi. rewrite <- (take_drop_middle ts i (e :: rest) Hi) at 1.
  rewrite insert_take_drop by (eapply lookup_lt_Some; eassumption).
  rewrite !concat_app. simpl.
  symmetry. apply Permutation_middle.
Qed.

Lemma merge_flat_perm picks ts : flat (merge picks ts) ≡ₚ concat ts.
Proof.
  revert ts. induction picks as [| a picks IH]; intros ts.
  { cbn [merge].
    change (imap on_iteration ts) with (imap (fun j => on_iteration (0 + j)) ts).
    by rewrite (flat_rest 0 ts). }
  cbn [merge]. destruct (ts !! a) as [[| e rest] |] eqn:Ea; try apply IH.
  simpl. rewrite IH. symmetry. by apply concat_insert_tail.
Qed.

Lemma In_merge x e picks ts :
  In (x, e) (merge picks ts) <->
  exists i l, x = Some i /\ ts !! i = Some l /\ In e l.
Proof.
  rewrite In_strand_events. destruct x as [i |].
  - rewrite strand_events_merge. split.
    + intros H. destruct (ts !! i) as [l |] eqn:E; [| contradiction].
      exists i, l. auto.
    + intros (j & l & [= <-] & -> & H). exact H.
  - rewrite strand_events_merge_main. split; [contradiction |].
    intros (j & l & [=] & _).
Qed.

Lemma In_on_main x e t : In (x, e) (on_main t) <-> x = None /\ In e t.
Proof.
  unfold on_main. rewrite in_map_iff. split.
  - intros (e' & [= <- <-] & H). auto.
  - intros [-> H]. exists e. auto.
Qed.

Lemma In_flat e t : In e (flat t) <-> exists x, In (x, e) t.
Proof.
  unfold flat. rewrite in_map_iff. split.
  - intros ([x e'] & <- & H). exists x. exact H.
  - intros [x H]. exists (x, e). auto.
Qed.

(** ** What a step leaves on its strand *)

Lemma worker_failure w k c :
  (config_t.status (worker w k c).2 <> 0 ->
   exists f, In (Call f (config_t.status (worker w k c).2)) (worker w k c).1 /\
             call_device f = Some (config_t.idevice c)) /\
  (forall f s, In (Call f s) (worker w k c).1 -> s <> 0 ->
     config_t.status (worker w k c).2 <> 0) /\
  forallb (fun e => negb (is_join_line e)) (worker w k c).1 = true.
Proof.
  unfold worker, thread_func.
  repeat (match goal with
          | |- context [negb (?x =? 0)] => destruct (Z.eqb_spec x 0) as [? | ?]
          end; cbn [negb fst snd config_t.status config_t.set_status]).
  - split; [intros H; exfalso; apply H; reflexivity |]. split; [| reflexivity].
    intros f s Hin Hs. exfalso. unfold printf in Hin. simpl in Hin.
    destruct Hin as [[= <- <-] | [[= <- <-] | [[= <- <-] | [[=] | []]]]]; contradiction.
  - split; [| split; [intros; assumption | reflexivity]].
    intros _. exists (cuCtxPopCurrent_step (config_t.idevice c)).
    split; [simpl; auto | reflexivity].
  - split; [| split; [intros; assumption | reflexivity]].
    intros _. exists (pattern2d_gpu (config_t.idevice c)).
    split; [simpl; auto | reflexivity].
  - split; [| split; [intros; assumption | reflexivity]].
    intros _. exists (cuCtxPushCurrent_step (config_t.idevice c)).
    split; [simpl; auto | reflexivity].
Qed.

Lemma worker_idevice w k c :
  config_t.idevice (worker w k c).2 = config_t.idevice c.
Proof.
  destruct (worker_fields w k c) as (_ & _ & -> & _).
  apply (thread_func_keeps w k c).
Qed.

Lemma lookup_workers {B} (F : config_t.t -> B) (cs : list config_t.t) i :
  map F cs !! i = F <$> cs !! i.
Proof. apply list_lookup_fmap. Qed.

(** ** Properties of traces that the ticks preserve *)

Section ClosedPar.
Variable R : list (strand * event) -> Prop.
Hypothesis R_nil : R [].
Hypothesis R_app : forall t1 t2, R t1 -> R t2 -> R (t1 ++ t2).

Lemma closed_pbind {A B} (m : P A) (f : A -> P B) :
  R m.1 -> (forall a, R (f a).1) -> R (pbind m f).1.
Proof.
  intros Hm Hf. destruct m as [t [s | a]]; simpl in *; [exact Hm |].
  specialize (Hf a). destruct (f a) as [t' r]. simpl in *. by apply R_app.
Qed.

Lemma closed_tick_par w picks np k st :
  (forall l cs, R (merge l (map (fun c => (worker w k c).1) cs))) ->
  (forall st', R (on_main (host_section w k np st').1)) ->
  (forall i cs, R (on_main (join i cs).1)) ->
  R (tick_par w picks np k st).1.
Proof.
  intros Hf Hh Hj. unfold tick_par, fan_par.
  specialize (Hh (set_configs (map (fun c => (worker w k c).2) (configs st)) st)).
  destruct (host_section w k np _) as [t2 st']. simpl in Hh.
  apply closed_pbind; [simpl; apply R_app; [apply Hf | exact Hh] |].
  intros _. apply closed_pbind; [apply Hj | intros _; exact R_nil].
Qed.

Lemma closed_step_loop_par w picks np n k st :
  (forall k l cs, R (merge l (map (fun c => (worker w k c).1) cs))) ->
  (forall k st', R (on_main (host_section w k np st').1)) ->
  (forall i cs, R (on_main (join i cs).1)) ->
  R (step_loop_par w picks np n k st).1.
Proof.
  intros Hf Hh Hj. revert k st. induction n as [| n IH]; intros k st; simpl.
  - exact R_nil.
  - apply closed_pbind; [| intros st'; apply IH].
    apply closed_tick_par; [apply Hf | apply Hh | exact Hj].
Qed.

Lemma closed_main_run_par g w picks :
  R (on_main (prologue g w).1) ->
  (forall st, R (on_main (epilogue g w st).1)) ->
  (forall k l cs, R (merge l (map (fun c => (worker w k c).1) cs))) ->
  (forall k st', R (on_main (host_section w k (np_of g) st').1)) ->
  (forall i cs, R (on_main (join i cs).1)) ->
  R (main_run_par g w picks).1.
Proof.
  intros Hp He Hf Hh Hj. unfold main_run_par.
  apply closed_pbind; [exact Hp |]. intros st.
  apply closed_pbind; [| intros st'; apply He].
  apply closed_step_loop_par; assumption.
Qed.

End ClosedPar.

Lemma main_par_trace g w picks : (main_par g w picks).1 = (main_run_par g w picks).1.
Proof. unfold main_par. destruct (main_run_par g w picks) as [t [s | st]]; reflexivity. Qed.

(** ** The lines on stderr, strand by strand *)

Lemma join_reported i cs : reported (join i cs).1.
Proof.
  rewrite join_first_nonzero.
  destruct (first_nonzero i cs) as [[j s] |]; [| apply reported_nil].
  split; [exact I | reflexivity].
Qed.

Lemma strands_well_reported g w picks x :
  well_reported (strand_events x (main_run_par g w picks).1).
Proof.
  revert x.
  apply (closed_main_run_par (fun t => forall x, well_reported (strand_events x t))).
  - intros x. exact I.
  - intros t1 t2 H1 H2 x. rewrite strand_events_app.
    apply well_reported_app; [apply H1 | apply H2].
  - intros x. rewrite strand_events_on_main.
    destruct x; [exact I | apply prologue_reported].
  - intros st x. rewrite strand_events_on_main.
    destruct x; [exact I | apply epilogue_reported].
  - intros k l cs [i |]; [| rewrite strand_events_merge_main; exact I].
    rewrite strand_events_merge, lookup_workers.
    destruct (cs !! i) as [c |]; simpl; [apply worker_reported | exact I].
  - intros k st' x. rewrite strand_events_on_main.
    destruct x; [exact I |]. apply reported_quiet. reflexivity.
  - intros i cs x. rewrite strand_events_on_main.
    destruct x; [exact I | apply join_reported].
Qed.

Lemma filter_length_perm (Q : event -> bool) l l' :
  l ≡ₚ l' -> length (List.filter Q l) = length (List.filter Q l').
Proof.
  induction 1 as [| e l l' _ IH | e e' l | l l' l'' _ IH1 _ IH2]; simpl.
  - reflexivity.
  - destruct (Q e); simpl; congruence.
  - destruct (Q e), (Q e'); reflexivity.
  - congruence.
Qed.

Lemma workers_reported w k cs :
  reported (concat (map (fun c => (worker w k c).1) cs)).
Proof.
  induction cs as [| c cs IH]; simpl; [apply reported_nil |].
  apply reported_app; [apply worker_reported | exact IH].
Qed.

Lemma stderr_lines_counted g w picks :
  length (stderr_of (flat (main_run_par g w picks).1)) =
    (failures (flat (main_run_par g w picks).1) +
     joins (flat (main_run_par g w picks).1))%nat.
Proof.
  apply (closed_main_run_par
           (fun t => length (stderr_of (flat t)) =
                     (failures (flat t) + joins (flat t))%nat)).
  - reflexivity.
  - intros t1 t2 H1 H2. unfold stderr_of, failures, joins in *.
    rewrite flat_app, !List.filter_app, !length_app. lia.
  - rewrite flat_on_main. apply prologue_reported.
  - intros st. rewrite flat_on_main. apply epilogue_reported.
  - intros k l cs. unfold stderr_of, failures, joins.
    rewrite !(filter_length_perm _ _ _ (merge_flat_perm l _)).
    apply (workers_reported w k cs).
  - intros k st'. rewrite flat_on_main. apply reported_quiet. reflexivity.
  - intros i cs. rewrite flat_on_main. apply join_reported.
Qed.

(** ** The line of the join *)

Lemma tick_par_eq w picks np k st :
  tick_par w picks np k st =
    let cs := map (fun c => (worker w k c).2) (configs st) in
    let hs := host_section w k np (set_configs cs st) in
    let t1 := merge (picks k) (map (fun c => (worker w k c).1) (configs st)) in
    match first_nonzero 0 cs with
    | None => (t1 ++ on_main hs.1, Continue hs.2)
    | Some (j, s) =>
        ((t1 ++ on_main hs.1) ++ [(None, join_line (Z.of_nat j) s)], Return s)
    end.
Proof.
  unfold tick_par, fan_par, host_section, lift. cbv zeta.
  cbn [fst snd configs swap_host set_inout set_configs pbind].
  rewrite join_first_nonzero.
  destruct (first_nonzero 0 (map (fun c => (worker w k c).2) (configs st)))
    as [[j s] |]; cbn [fst snd on_main map pbind].
  - reflexivity.
  - by rewrite !app_nil_r.
Qed.

Lemma no_join_nil : no_join [].
Proof. split; [reflexivity |]. intros j f s []. Qed.

Lemma no_join_app t1 t2 : no_join t1 -> no_join t2 -> no_join (t1 ++ t2).
Proof.
  intros [J1 F1] [J2 F2]. split.
  - rewrite flat_app, joins_app. lia.
  - intros j f s [H | H]%in_app_or; [apply (F1 j f s H) | apply (F2 j f s H)].
Qed.

Lemma no_join_on_main t : joins t = 0%nat -> no_join (on_main t).
Proof.
  intros H. split; [by rewrite flat_on_main |].
  intros j f s [[=] _]%In_on_main.
Qed.

Lemma ends_at_join_after t1 t2 s :
  no_join t1 -> ends_at_join t2 s -> ends_at_join (t1 ++ t2) s.
Proof.
  intros [J1 F1] (i & f & pre & -> & Hs & J & Hin & Hd & Hlow).
  exists i, f, (t1 ++ pre). repeat split; try assumption.
  - by rewrite app_assoc.
  - rewrite flat_app, joins_app. lia.
  - apply in_or_app. by right.
  - intros j f' s' [H | H]%in_app_or Hs'.
    + contradiction Hs'. apply (F1 j f' s' H).
    + apply (Hlow j f' s' H Hs').
Qed.

Lemma joins_merge w k l cs :
  joins (flat (merge l (map (fun c => (worker w k c).1) cs))) = 0%nat.
Proof.
  apply joins_none, forallb_forall. intros e [x Hin]%In_flat.
  apply In_merge in Hin as (i & l' & -> & Hl & He). rewrite lookup_workers in Hl.
  destruct (cs !! i) as [c |]; [| discriminate]. injection Hl as <-.
  destruct (worker_failure w k c) as (_ & _ & Hj).
  rewrite forallb_forall in Hj. apply Hj, He.
Qed.

Lemma tick_par_join w picks np k st :
  indexed (configs st) ->
  match tick_par w picks np k st with
  | (t, Continue st') => no_join t /\ indexed (configs st')
  | (t, Return s) => ends_at_join t s
  end.
Proof.
  intros Hidx. rewrite tick_par_eq. cbv zeta.
  destruct (first_nonzero 0 (map (fun c => (worker w k c).2) (configs st)))
    as [[j s] |] eqn:E.
  - apply first_nonzero_Some in E as (c' & _ & Hc' & Hst & Hs & Hlow).
    rewrite Nat.sub_0_r, lookup_workers in Hc'.
    destruct (configs st !! j) as [c |] eqn:Ec; [| discriminate].
    injection Hc' as <-.
    destruct (worker_failure w k c) as (Hf & _ & _).
    rewrite Hst in Hf. destruct (Hf Hs) as (f & Hin & Hd).
    exists j, f, (merge (picks k) (map (fun c => (worker w k c).1) (configs st)) ++
                  on_main (host_section w k np
                             (set_configs (map (fun c => (worker w k c).2) (configs st))
                                st)).1).
    repeat split.
    + exact Hs.
    + rewrite flat_app, joins_app, joins_merge, flat_on_main. reflexivity.
    + apply in_or_app. left. apply In_merge. exists j, (worker w k c).1.
      rewrite lookup_workers, Ec. auto.
    + rewrite Hd. f_equal. apply (Hidx _ _ Ec).
    + intros j' f' s' [H | H]%in_app_or Hs'.
      * apply In_merge in H as (i & l' & [= <-] & Hl & He).
        rewrite lookup_workers in Hl.
        destruct (configs st !! j') as [c0 |] eqn:Ec0; [| discriminate].
        injection Hl as <-.
        destruct (worker_failure w k c0) as (_ & Hnz & _).
        specialize (Hnz f' s' He Hs').
        destruct (decide (j <= j')%nat) as [| Hlt]; [assumption |].
        contradiction Hnz. apply (Hlow j' (worker w k c0).2); [lia |].
        rewrite lookup_workers, Ec0. reflexivity.
      * apply In_on_main in H as [[=] _].
  - split.
    + apply no_join_app; [| apply no_join_on_main; reflexivity].
      split; [apply joins_merge |].
      intros j f s H. apply In_merge in H as (i & l' & [= <-] & Hl & He).
      rewrite lookup_workers in Hl.
      destruct (configs st !! j) as [c |] eqn:Ec; [| discriminate].
      injection Hl as <-.
      destruct (worker_failure w k c) as (_ & Hnz & _).
      destruct (decide (s = 0)) as [| Hs]; [assumption |].
      contradiction (Hnz f s He Hs).
      apply (first_nonzero_None _ _ E j). rewrite lookup_workers, Ec. reflexivity.
    + intros i c Hc. simpl in Hc. rewrite lookup_workers in Hc.
      destruct (configs st !! i) as [c0 |] eqn:Ec0; [| discriminate].
      injection Hc as <-. rewrite worker_idevice. apply (Hidx _ _ Ec0).
Qed.

Lemma step_loop_par_join w picks np n k st :
  indexed (configs st) ->
  match step_loop_par w picks np n k st with
  | (t, Continue _) => no_join t
  | (t, Return s) => ends_at_join t s
  end.
Proof.
  revert k st. induction n as [| n IH]; intros k st Hidx; simpl.
  { apply no_join_nil. }
  pose proof (tick_par_join w picks np k st Hidx) as Ht.
  destruct (tick_par w picks np k st) as [t1 [s1 | st1]]; simpl; [exact Ht |].
  destruct Ht as [Hn Hidx1]. specialize (IH (S k) st1 Hidx1).
  destruct (step_loop_par w picks np n (S k) st1) as [t2 [s2 | st2]].
  - by apply ends_at_join_after.
  - by apply no_join_app.
Qed.

Lemma main_par_join g w picks :
  no_join (main_par g w picks).1 \/
  ends_at_join (main_par g w picks).1 (main_par g w picks).2.
Proof.
  unfold main_par, main_run_par, lift.
  pose proof (prologue_joins g w) as J0.
  destruct (prologue g w) as [t0 [s0 | st0]] eqn:E0; simpl in *.
  { left. by apply no_join_on_main. }
  assert (Hidx : indexed (configs st0)).
  { apply prologue_Continue in E0 as (_ & _ & ->). simpl.
    intros i c Hc.
    apply (at_step_initial g w (np_of g) (init_inout w (w_ndevices w) (np_of g))
             (w_ndevices w)) in Hc as [Hc _]. exact Hc. }
  pose proof (step_loop_par_join w picks (np_of g) (Z.to_nat (nticks g)) 0 st0 Hidx) as H1.
  destruct (step_loop_par w picks (np_of g) (Z.to_nat (nticks g)) 0 st0)
    as [t1 [s1 | st1]]; simpl.
  { right. apply ends_at_join_after; [by apply no_join_on_main | exact H1]. }
  pose proof (epilogue_joins g w st1) as J2.
  destruct (epilogue g w st1) as [t2 r2]. simpl in *.
  assert (Hn : no_join (on_main t0 ++ t1 ++ on_main t2)).
  { apply no_join_app; [by apply no_join_on_main |].
    apply no_join_app; [exact H1 | by apply no_join_on_main]. }
  destruct r2; left; exact Hn.
Qed.

Lemma ends_at_join_once t s : ends_at_join t s -> joins (flat t) = 1%nat.
Proof.
  intros (i & f & pre & -> & _ & J & _). rewrite flat_app, joins_app, J. reflexivity.
Qed.

(** C9, as the code has it.  The events of a run are taken with their
    strands, for every interleaving of the steps of a tick.  In each strand
    (the thread of [main], and each iteration of the parallel loop), a call
    of the CUDA driver or runtime or of [pattern2d_gpu] that fails is
    followed at once by one stderr line of the function that made the call:
    the message of this call with the device index, where the call has one
    (the device count has none), and the status; for a failed
    [cuCtxDestroy], the message of this call and the device index.  The
    lines on stderr are these and the line of the join, of which there is at
    most one.  Either no call of a step has failed and there is no line of
    the join, or the line of the join is the last event of the run: it
    carries the index of the lowest iteration in which a call failed, and
    the status of that call for that device, which [main] returns. *)
Theorem failures_are_reported (g : globals) (w : World) (picks : nat -> list nat) :
  (forall x, well_reported (strand_events x (main_par g w picks).1)) /\
  length (stderr_of (flat (main_par g w picks).1)) =
    (failures (flat (main_par g w picks).1) + joins (flat (main_par g w picks).1))%nat /\
  (joins (flat (main_par g w picks).1) <= 1)%nat /\
  (no_join (main_par g w picks).1 \/
   ends_at_join (main_par g w picks).1 (main_par g w picks).2).
Proof.
  split; [| split; [| split]].
  - intros x. rewrite main_par_trace. apply strands_well_reported.
  - rewrite main_par_trace. apply stderr_lines_counted.
  - destruct (main_par_join g w picks) as [[J _] | H].
    + rewrite J. lia.
    + rewrite (ends_at_join_once _ _ H). lia.
  - apply main_par_join.
Qed.

Lemma failures_are_reported_witness :
  ends_at_join (main_par small_globals (example_world 2 two_fail) alternating).1
    (main_par small_globals (example_world 2 two_fail) alternating).2.
Proof.
  destruct (failures_are_reported small_globals (example_world 2 two_fail) alternating)
    as (_ & _ & _ & [[_ Hn] | He]); [| exact He].
  exfalso. specialize (Hn 0%nat (pattern2d_gpu 0) 5).
  assert (H : 5 = 0); [| discriminate H].
  apply Hn. apply In_strand_events. vm_compute.
  repeat (first [left; reflexivity | right]).
Defined.

(** ** The interleaved run and the run in index order *)

Lemma same_events_bind {A B} (p : P A) (m : M A) (f : A -> P B) (f' : A -> M B) :
  same_events p m ->
  (forall a, m.2 = Continue a -> same_events (f a) (f' a)) ->
  same_events (pbind p f) (bind m f').
Proof.
  unfold same_events. destruct p as [t o], m as [t' o']. cbn [fst snd].
  intros [Ho Ht] Hf. subst o'.
  destruct o as [s | a]; cbn [pbind bind fst snd]; [split; [reflexivity | exact Ht] |].
  specialize (Hf a eq_refl). destruct (f a) as [t1 r1], (f' a) as [t1' r1'].
  cbn [fst snd] in *. destruct Hf as [-> Hp].
  split; [reflexivity |]. rewrite flat_app, Ht, Hp. reflexivity.
Qed.

Lemma same_events_lift {A} (m : M A) : same_events (lift m) m.
Proof. split; [reflexivity |]. unfold lift. cbn [fst]. by rewrite flat_on_main. Qed.

Lemma concat_map_perm {A} (F : A -> list event) l l' :
  l ≡ₚ l' -> concat (map F l) ≡ₚ concat (map F l').
Proof.
  induction 1 as [| a l l' _ IH | a b l | l l' l'' _ IH1 _ IH2]; simpl.
  - reflexivity.
  - by rewrite IH.
  - rewrite !app_assoc. f_equiv. apply Permutation_app_comm.
  - by rewrite IH1.
Qed.

Lemma fan_out_perm w k order cs :
  order ≡ₚ seq 0 (length cs) ->
  (fan_out w k order cs).1 ≡ₚ concat (map (fun c => (worker w k c).1) cs).
Proof.
  intros Hp. assert (Hnd : NoDup order) by (rewrite Hp; apply NoDup_seq).
  destruct (fan_out_acc w k order Hnd [] cs) as [H1 _].
  unfold fan_out. rewrite H1. simpl.
  rewrite (concat_map_perm _ _ _ Hp).
  replace (concat (map (fun c => (worker w k c).1) cs))
    with (concat
            (map (fun i => from_option (fun c => (worker w k c).1) [] (cs !! i))
               (seq 0 (length cs)))); [reflexivity |].
  f_equal. apply (map_lookup_seq (fun c => (worker w k c).1) [] [] cs).
Qed.

Lemma tick_par_sched w picks sched np k st :
  sched k ≡ₚ seq 0 (length (configs st)) ->
  same_events (tick_par w picks np k st) (tick w sched np k st).
Proof.
  intros Hp. rewrite tick_par_eq, tick_eq. cbv zeta.
  rewrite (fan_out_configs w k (sched k) (configs st) Hp).
  destruct (first_nonzero 0 (map (fun c => (worker w k c).2) (configs st)))
    as [[j s] |]; split; try reflexivity; cbn [fst snd].
  - rewrite !flat_app, flat_on_main, merge_flat_perm, (fan_out_perm w k _ _ Hp).
    simpl. by rewrite <- app_assoc.
  - by rewrite flat_app, flat_on_main, merge_flat_perm, (fan_out_perm w k _ _ Hp).
Qed.

Lemma tick_par_serial w picks np k st :
  same_events (tick_par w picks np k st)
    (tick w (in_order (length (configs st))) np k st).
Proof. apply tick_par_sched. reflexivity. Qed.

Lemma step_loop_par_sched w picks sched np D n k st :
  (forall j, sched j ≡ₚ seq 0 D) ->
  length (configs st) = D ->
  same_events (step_loop_par w picks np n k st) (step_loop w sched np n k st).
Proof.
  intros Hp. revert k st. induction n as [| n IH]; intros k st Hlen; simpl.
  { split; reflexivity. }
  apply same_events_bind.
  - apply tick_par_sched. rewrite Hlen. apply Hp.
  - intros st' E. apply IH. rewrite <- Hlen.
    destruct (tick w sched np k st) as [t o] eqn:Et. simpl in E. subst o.
    eapply tick_length. eassumption.
Qed.

Lemma main_run_par_sched g w picks sched :
  (forall j, sched j ≡ₚ seq 0 (w_ndevices w)) ->
  same_events (main_run_par g w picks) (main_run g w sched).
Proof.
  intros Hp. unfold main_run_par, main_run.
  apply same_events_bind; [apply same_events_lift |]. intros st0 E0.
  apply same_events_bind; [| intros st1 _; apply same_events_lift].
  apply (step_loop_par_sched w picks sched (np_of g) (w_ndevices w)); [exact Hp |].
  destruct (prologue g w) as [t0 o] eqn:E. simpl in E0. subst o.
  eapply prologue_length. eassumption.
Qed.

(** X13.  How the steps of a tick are interleaved changes the order of the
    events of the tick and nothing else: the status [main] returns, the
    state it makes the comparison on, and the events of the run, each as
    often, are those of the run in which the steps run whole, one after
    another, in any order. *)
Theorem interleaving_changes_order_only
    (g : globals) (w : World) (picks sched : nat -> list nat) :
  (forall j, sched j ≡ₚ seq 0 (w_ndevices w)) ->
  (main_par g w picks).2 = (main g w sched).2 /\
  (main_run_par g w picks).2 = (main_run g w sched).2 /\
  flat (main_par g w picks).1 ≡ₚ (main g w sched).1.
Proof.
  intros Hp. destruct (main_run_par_sched g w picks sched Hp) as [Ho Ht].
  rewrite main_par_trace, main_trace. split; [| split; assumption].
  unfold main_par, main.
  destruct (main_run_par g w picks) as [t o], (main_run g w sched) as [t' o'].
  simpl in Ho. subst o'. destruct o; reflexivity.
Qed.

Lemma interleaving_changes_order_only_witness :
  (main_par small_globals (example_world 2 two_fail) alternating).2 =
  (main small_globals (example_world 2 two_fail) reversed).2.
Proof.
  apply (interleaving_changes_order_only small_globals (example_world 2 two_fail)
           alternating reversed).
  intros j. apply Permutation_swap.
Defined.

(** ** A run without failure, with its steps interleaved *)

Lemma tick_par_Continue w picks np D k st t st' :
  at_step D (Z.of_nat k) (configs st) ->
  Z.of_nat k + 1 < 2 ^ 31 ->
  tick_par w picks np k st = (t, Continue st') ->
  t = tick_par_trace w picks D (control st) (input st) k /\
  at_step D (Z.of_nat (S k)) (configs st') /\
  control st' = input st /\ input st' = control st.
Proof.
  intros Hat Hk Ht.
  destruct (tick_par_serial w picks np k st) as [Ho _]. rewrite Ht in Ho. simpl in Ho.
  destruct (tick w (in_order (length (configs st))) np k st) as [t' o] eqn:Es.
  simpl in Ho. subst o.
  assert (Hp : in_order (length (configs st)) k ≡ₚ seq 0 D).
  { unfold in_order. destruct Hat as [-> _]. reflexivity. }
  destruct (tick_Continue w _ np D k st t' st' Hat Hp Hk Es)
    as (_ & Hat' & Hc & Hi & _ & Hok & _).
  split; [| auto]. destruct Hat as [Hlen Hcs].
  rewrite tick_par_eq in Ht. cbv zeta in Ht.
  destruct (first_nonzero 0 (map (fun c => (worker w k c).2) (configs st)))
    as [[j s] |]; [discriminate |].
  injection Ht as <- _. unfold tick_par_trace, host_section. cbn [fst configs set_configs].
  rewrite length_map, Hlen. f_equal. f_equal.
  apply list_eq. intros i. rewrite lookup_workers.
  change (map ?F (seq 0 D)) with (F <$> seq 0 D). rewrite list_lookup_fmap.
  destruct (configs st !! i) as [c |] eqn:Ec.
  - assert (Hi' : (i < D)%nat) by (rewrite <- Hlen; eapply lookup_lt_Some; eassumption).
    rewrite lookup_seq_lt by exact Hi'. simpl. f_equal.
    destruct (worker_fields w k c) as (-> & _).
    destruct (thread_func_success w k c (Hok _ _ Ec)) as (-> & _).
    destruct (Hcs _ _ Ec) as [-> ->].
    rewrite int_wrap_small by lia. reflexivity.
  - apply lookup_ge_None in Ec. rewrite lookup_seq_ge by lia. reflexivity.
Qed.

Lemma step_loop_par_Continue w picks np D n k st t st' :
  at_step D (Z.of_nat k) (configs st) ->
  Z.of_nat (k + n) < 2 ^ 31 ->
  step_loop_par w picks np n k st = (t, Continue st') ->
  t = loop_par_trace w picks D (control st) (input st) n k /\
  length (configs st') = D.
Proof.
  revert k st t. induction n as [| n IH]; intros k st t Hat Hk;
    cbn [step_loop_par loop_par_trace].
  { intros [= <- <-]. split; [reflexivity | apply Hat]. }
  destruct (tick_par w picks np k st) as [t1 [s1 | st1]] eqn:E1; cbn [pbind];
    [discriminate |].
  destruct (tick_par_Continue w picks np D k st t1 st1 Hat ltac:(lia) E1)
    as (-> & Hat1 & Hc & Hi).
  destruct (step_loop_par w picks np n (S k) st1) as [t2 r2] eqn:E2.
  intros [= <- ->].
  destruct (IH (S k) st1 t2 Hat1 ltac:(lia) E2) as (-> & Hlen).
  rewrite Hc, Hi. auto.
Qed.

Lemma main_run_par_shape g w picks t st :
  nticks g < 2 ^ 31 ->
  main_run_par g w picks = (t, Continue st) ->
  t = on_main
        ([Call cudaGetDeviceCount 0;
          Stdout ("%d CUDA device(s) found" ++ nl)%string
            [AInt (Z.of_nat (w_ndevices w))];
          Stdout ("%d OpenMP threads used" ++ nl)%string [AInt (w_nthreads w)];
          Malloc inout_block; Malloc configs_block] ++
         concat (map init_trace (seq 0 (w_ndevices w)))) ++
      loop_par_trace w picks (w_ndevices w)
        (w_ndevices w * np_of g) ((w_ndevices w + 1) * np_of g)
        (Z.to_nat (nticks g)) 0 ++
      on_main
        (concat (map release_trace (seq 0 (w_ndevices w))) ++
         map (validate g (np_of g) st) (seq 0 (w_ndevices w)) ++
         [Free configs_block; Free inout_block]).
Proof.
  intros Hn. unfold main_run_par, lift.
  destruct (prologue g w) as [t0 [s0 | st0]] eqn:E0; cbn [pbind fst snd];
    [discriminate |].
  destruct (step_loop_par w picks (np_of g) (Z.to_nat (nticks g)) 0 st0)
    as [t1 [s1 | st1]] eqn:E1; cbn [pbind fst snd]; [discriminate |].
  destruct (epilogue g w st1) as [t2 r2] eqn:E2. cbn [fst snd].
  intros [= <- ->].
  apply prologue_Continue in E0 as (_ & -> & ->).
  apply (step_loop_par_Continue w picks (np_of g) (w_ndevices w)) in E1
    as (-> & Hlen); cbn [configs control input]; [| apply at_step_initial | lia].
  apply epilogue_Continue in E2 as (-> & _); [| exact Hlen].
  reflexivity.
Qed.

(** X1.  A run that reaches the end of [main] is made of these events and
    no others, whatever the interleaving of the steps: on the thread of
    [main], in this order, the device count and the two opening lines, the
    two [malloc]s and the creation of the configs of the devices 0 to
    [D - 1]; then the ticks, each an interleaving of the successful steps
    [k + 1] of all the devices (for each device its push, kernel, pop and
    "completed" line in this order), followed on the thread of [main] by one
    call of [pattern2d_cpu] whose pointers change places from tick to tick;
    then the release of the devices 0 to [D - 1] in order, the lines of the
    comparison in order, and the two [free]s.  [main] then returns 0. *)
Theorem successful_run_trace
    (g : globals) (w : World) (picks : nat -> list nat)
    (t : list (strand * event)) (st : state) :
  nticks g < 2 ^ 31 ->
  main_run_par g w picks = (t, Continue st) ->
  main_par g w picks = (t, 0) /\
  t = on_main
        ([Call cudaGetDeviceCount 0;
          Stdout ("%d CUDA device(s) found" ++ nl)%string
            [AInt (Z.of_nat (w_ndevices w))];
          Stdout ("%d OpenMP threads used" ++ nl)%string [AInt (w_nthreads w)];
          Malloc inout_block; Malloc configs_block] ++
         concat (map init_trace (seq 0 (w_ndevices w)))) ++
      loop_par_trace w picks (w_ndevices w)
        (w_ndevices w * np_of g) ((w_ndevices w + 1) * np_of g)
        (Z.to_nat (nticks g)) 0 ++
      on_main
        (concat (map release_trace (seq 0 (w_ndevices w))) ++
         map (validate g (np_of g) st) (seq 0 (w_ndevices w)) ++
         [Free configs_block; Free inout_block]).
Proof.
  intros Hn Hrun. split; [unfold main_par; rewrite Hrun; reflexivity |].
  apply (main_run_par_shape g w picks t st Hn Hrun).
Qed.

Lemma successful_run_trace_witness :
  (main_par small_globals (example_world 2 all_succeed) alternating).2 = 0.
Proof.
  pose (r := main_run_par small_globals (example_world 2 all_succeed) alternating).
  destruct (successful_run_trace small_globals (example_world 2 all_succeed) alternating
              r.1 (continued empty_state r.2)) as [Hm _].
  - reflexivity.
  - vm_compute. reflexivity.
  - exact (f_equal snd Hm).
Defined.

(** ** Every interleaving is one of [merge] *)

Lemma rest_interleaves (pre ts : list (list event)) :
  Forall (fun l => l = []) pre ->
  interleaves (pre ++ ts) (concat (imap (fun j => on_iteration (length pre + j)) ts)).
Proof.
  revert pre. induction ts as [| l ts IH]; intros pre Hpre.
  { rewrite app_nil_r. by apply interleaves_done. }
  cbn [imap concat]. rewrite Nat.add_0_r.
  induction l as [| e rest IHl].
  - simpl. rewrite (imap_shift on_iteration).
    specialize (IH (pre ++ [[]])). rewrite length_app, Nat.add_1_r in IH.
    rewrite <- app_assoc in IH. apply IH.
    apply Forall_app. split; [exact Hpre | by constructor].
  - simpl. apply (interleaves_next _ _ _ rest).
    + rewrite lookup_app_r by lia. by rewrite Nat.sub_diag.
    + rewrite insert_app_r_alt by lia. rewrite Nat.sub_diag. exact IHl.
Qed.

Lemma merge_interleaves picks ts : interleaves ts (merge picks ts).
Proof.
  revert ts. induction picks as [| a picks IH]; intros ts.
  { apply (rest_interleaves [] ts). constructor. }
  cbn [merge]. destruct (ts !! a) as [[| e rest] |] eqn:Ea; try apply IH.
  apply (interleaves_next _ _ _ rest); [exact Ea | apply IH].
Qed.

Lemma rest_nil n (ts : list (list event)) :
  Forall (fun l => l = []) ts ->
  concat (imap (fun j => on_iteration (n + j)) ts) = [].
Proof.
  intros H. revert n. induction H as [| l ts -> _ IH]; intros n; [reflexivity |].
  cbn [imap concat]. rewrite (imap_shift on_iteration). apply IH.
Qed.

Lemma interleaves_merge ts t : interleaves ts t -> exists picks, merge picks ts = t.
Proof.
  induction 1 as [ts H | ts i e rest t Hi _ [picks IH]].
  - exists []. apply (rest_nil 0 ts H).
  - exists (i :: picks). cbn [merge]. rewrite Hi, IH. reflexivity.
Qed.

(** ** Two interleaved ticks *)

(** With two devices that take turns, the steps of a tick overlap: each
    call of device 1 comes between two events of device 0. *)
Example steps_overlap :
  flat (tick_par (example_world 2 all_succeed) alternating 4 0
          (continued empty_state
             (prologue small_globals (example_world 2 all_succeed)).2)).1 =
    [Call (cuCtxPushCurrent_step 0) 0; Call (cuCtxPushCurrent_step 1) 0;
     Call (pattern2d_gpu 0) 0; Call (pattern2d_gpu 1) 0;
     Call (cuCtxPopCurrent_step 0) 0; Call (cuCtxPopCurrent_step 1) 0;
     completed_line 0 1; completed_line 1 1;
     Call (pattern2d_cpu 12 8 2) 0].
Proof. vm_compute. reflexivity. Qed.

(** When the kernel of device 0 and the pop of device 1 fail in such a
    tick, a call of device 1 comes between the failed call of device 0 and
    its line: taken without their strands the events are not such that each
    failure is followed at once by its line. *)
Example report_follows_in_its_strand :
  flat (tick_par (example_world 2 two_fail) alternating 4 1
          (continued empty_state
             (prologue small_globals (example_world 2 all_succeed)).2)).1 =
    [Call (cuCtxPushCurrent_step 0) 0; Call (cuCtxPushCurrent_step 1) 0;
     Call (pattern2d_gpu 0) 5; Call (pattern2d_gpu 1) 0;
     Stderr ("Cannot execute pattern 2d on device %d, status = %d" ++ nl)%string
       [AInt 0; AInt 5];
     Call (cuCtxPopCurrent_step 1) 9;
     Stderr ("Cannot pop current context for device %d, status = %d" ++ nl)%string
       [AInt 1; AInt 9];
     Call (pattern2d_cpu 12 8 2) 0;
     join_line 0 5] /\
  ~ well_reported
      (flat (tick_par (example_world 2 two_fail) alternating 4 1
               (continued empty_state
                  (prologue small_globals (example_world 2 all_succeed)).2)).1).
Proof.
  split; [vm_compute; reflexivity |].
  intros H. vm_compute in H. destruct H as [H _]. discriminate H.
Qed.
